(** * Capsule networks with dynamic routing: a shallow embedding of
      [capsule_network.py] and the properties of its core.

    The program is PyTorch code (written for the 0.2/0.3 releases) over
    dense tensors of floating-point numbers.  The embedding keeps the
    structure of the code: the Python functions line by line, one tensor
    operation per tensor operation of the code, Python exceptions as an
    error monad.  It idealises the arithmetic: a tensor element is an exact
    real number or [NaN].  Rounding and overflow are outside the model;
    division by zero, the one source of non-finite values that exact
    arithmetic leaves in this program, is inside it.  Where float32 departs
    from the reals by more than rounding, the statements keep to what both
    satisfy (closed bounds, ranges of inputs), and [squash] is embedded a
    second time on float32 numbers ([squash_float32]) to show the
    departures. *)

From Stdlib Require Import Reals Lra Lia List ZArith Bool Arith PeanoNat.
From Stdlib Require SpecFloat.
Import ListNotations.

Set Implicit Arguments.

(* ================================================================== *)
(** * Scalars: exact reals with a NaN *)
(* ================================================================== *)

Module Num.

Local Open Scope R_scope.

(** An element of a tensor.  [NaN] is absorbing for every arithmetic
    operation, as in IEEE 754. *)
Inductive fnum : Type :=
| Real (r : R)
| NaN.

Definition is_real (x : fnum) : Prop :=
  match x with Real _ => True | NaN => False end.

(** The real behind a finite element ([0] for [NaN], never relied upon). *)
Definition rv (x : fnum) : R :=
  match x with Real r => r | NaN => 0 end.

Definition lift1 (f : R -> R) (x : fnum) : fnum :=
  match x with Real a => Real (f a) | NaN => NaN end.

Definition lift2 (f : R -> R -> R) (x y : fnum) : fnum :=
  match x, y with Real a, Real b => Real (f a b) | _, _ => NaN end.

Definition fadd : fnum -> fnum -> fnum := lift2 Rplus.
Definition fsub : fnum -> fnum -> fnum := lift2 Rminus.
Definition fmul : fnum -> fnum -> fnum := lift2 Rmult.

(** Division.  [0 / 0] is NaN.  IEEE gives an infinity for [a / 0] with
    [a <> 0]; the divisors of this program are [1 + s] with [s >= 0], a sum
    of exponentials, an element count (zero only together with an empty sum)
    and [sqrt s] under a numerator that carries the factor [s]: whenever one
    of them is zero the numerator is zero too (see
    [squash_zero_divisor_zero_numerator]), so the one exceptional value
    is enough. *)
Definition fdiv (x y : fnum) : fnum :=
  match x, y with
  | Real a, Real b => if Req_dec_T b 0 then NaN else Real (a / b)
  | _, _ => NaN
  end.

(** [torch.sqrt]: NaN on a negative argument. *)
Definition fsqrt (x : fnum) : fnum :=
  match x with
  | Real a => if Rlt_dec a 0 then NaN else Real (sqrt a)
  | NaN => NaN
  end.

Definition fexp : fnum -> fnum := lift1 exp.

(** [t ** 2]. *)
Definition fsquare (x : fnum) : fnum := fmul x x.

(** [torch.clamp(t, min=lo)] on one element. *)
Definition fclamp_min (lo : R) : fnum -> fnum := lift1 (Rmax lo).

(** [1 / (1 + exp(-x))]. *)
Definition fsigmoid (x : fnum) : fnum :=
  fdiv (Real 1) (fadd (Real 1) (fexp (lift1 Ropp x))).

(** [x > y] as [torch.max] sees it when it scans a row: a NaN beats
    every number. *)
Definition fgtb (x y : fnum) : bool :=
  match x, y with
  | Real a, Real b => if Rlt_dec b a then true else false
  | NaN, Real _ => true
  | _, NaN => false
  end.

(** [f 0 + f 1 + ... + f (n-1)], the reduction behind [sum]. *)
Fixpoint fsum (f : nat -> fnum) (n : nat) : fnum :=
  match n with
  | O => Real 0
  | S k => fadd (fsum f k) (f k)
  end.

(** The same sum over the reals. *)
Fixpoint rsum (f : nat -> R) (n : nat) : R :=
  match n with
  | O => 0
  | S k => rsum f k + f k
  end.

End Num.
Export Num.

(* ================================================================== *)
(** * Python exceptions as an error monad *)
(* ================================================================== *)

Inductive error : Type :=
| RuntimeError        (* size mismatch, invalid view, ... *)
| TypeError           (* [None] where a number is needed *)
| IndexError          (* dimension or index out of range *)
| AttributeError      (* attribute never set by [__init__] *)
| UnboundLocalError.  (* local variable read before assignment *)

Inductive result (A : Type) : Type :=
| Ok (a : A)
| Err (e : error).
Arguments Err {A} e.

Definition bind {A B} (m : result A) (k : A -> result B) : result B :=
  match m with
  | Ok a => k a
  | Err e => Err e
  end.

Notation "x <- m ;; k" := (bind m (fun x => k))
  (at level 61, m at next level, right associativity).
Notation "' pat <- m ;; k" := (bind m (fun x => match x with pat => k end))
  (at level 61, pat pattern, m at next level, right associativity).

Definition raises {A} (m : result A) : Prop := exists e, m = Err e.

(* ================================================================== *)
(** * Tensors and the [torch] operations the program uses *)
(* ================================================================== *)

Module Torch.

(** A dense tensor: its size and its elements, read through a multi-index.
    Only the elements at valid indices (one component per axis, each below
    the size of its axis) mean anything. *)
Record tensor (A : Type) : Type := mkT {
  size : list nat;
  elt : list nat -> A
}.

Definition dim A (t : tensor A) : nat := length (size t).

Fixpoint prod (s : list nat) : nat :=
  match s with
  | [] => 1
  | a :: s' => a * prod s'
  end.

Definition numel A (t : tensor A) : nat := prod (size t).

Fixpoint valid (s ix : list nat) : Prop :=
  match s, ix with
  | [], [] => True
  | a :: s', i :: ix' => i < a /\ valid s' ix'
  | _, _ => False
  end.

(** Every valid element is a number. *)
Definition finite (t : tensor fnum) : Prop :=
  forall ix, valid (size t) ix -> is_real (elt t ix).

(** ** Lists as index vectors *)

Fixpoint upd (l : list nat) (i v : nat) : list nat :=
  match l, i with
  | [], _ => []
  | _ :: l', O => v :: l'
  | a :: l', S i' => a :: upd l' i' v
  end.

Definition insert_at (i v : nat) (l : list nat) : list nat :=
  firstn i l ++ v :: skipn i l.

Definition remove_at (i : nat) (l : list nat) : list nat :=
  firstn i l ++ skipn (S i) l.

Definition swap (i j : nat) (l : list nat) : list nat :=
  upd (upd l i (nth j l 0)) j (nth i l 0).

(** Row-major position of an index, and back. *)
Fixpoint ravel (s ix : list nat) : nat :=
  match s, ix with
  | _ :: s', i :: ix' => i * prod s' + ravel s' ix'
  | _, _ => 0
  end.

Fixpoint unravel (s : list nat) (k : nat) : list nat :=
  match s with
  | [] => []
  | _ :: s' => k / prod s' :: unravel s' (k mod prod s')
  end.

(** A dimension argument, negative ones counted from the end. *)
Definition norm_dim (d : Z) (rank : nat) : result nat :=
  let d' := if (d <? 0)%Z then (d + Z.of_nat rank)%Z else d in
  if ((0 <=? d') && (d' <? Z.of_nat rank))%Z then Ok (Z.to_nat d')
  else Err IndexError.

(** ** Creation and element-wise maps *)

Definition zeros (s : list nat) : tensor fnum :=
  mkT s (fun _ => Real 0).

(** A tensor of the given size holding the reals [f ix]. *)
Definition of_fun (s : list nat) (f : list nat -> R) : tensor fnum :=
  mkT s (fun ix => Real (f ix)).

Definition tmap A B (f : A -> B) (t : tensor A) : tensor B :=
  mkT (size t) (fun ix => f (elt t ix)).

(** ** Broadcasting binary operations *)

(** One axis of two sizes that broadcast together. *)
Definition bdim (a b : nat) : result nat :=
  if a =? b then Ok a
  else if a =? 1 then Ok b
  else if b =? 1 then Ok a
  else Err RuntimeError.

(** Sizes are aligned at their last axis: both lists are reversed here. *)
Fixpoint bsize_rev (s1 s2 : list nat) : result (list nat) :=
  match s1, s2 with
  | [], s => Ok s
  | s, [] => Ok s
  | a :: s1', b :: s2' =>
      c <- bdim a b ;;
      r <- bsize_rev s1' s2' ;;
      Ok (c :: r)
  end.

Definition bsize (s1 s2 : list nat) : result (list nat) :=
  r <- bsize_rev (rev s1) (rev s2) ;; Ok (rev r).

(** Where an operand of size [a] along an axis is read for position [i] of
    the result: an axis of size 1 is repeated. *)
Definition bi (a i : nat) : nat := if a =? 1 then 0 else i.

Fixpoint bidx_rev (s ix : list nat) : list nat :=
  match s, ix with
  | a :: s', i :: ix' => bi a i :: bidx_rev s' ix'
  | _, _ => []
  end.

Definition bidx (s ix : list nat) : list nat :=
  rev (bidx_rev (rev s) (rev ix)).

Definition bop (f : fnum -> fnum -> fnum) (a b : tensor fnum)
  : result (tensor fnum) :=
  s <- bsize (size a) (size b) ;;
  Ok (mkT s (fun ix => f (elt a (bidx (size a) ix)) (elt b (bidx (size b) ix)))).

Definition add := bop fadd.
Definition sub := bop fsub.
Definition mul := bop fmul.
Definition div := bop fdiv.

(** ** Reductions *)

(** [t.sum(dim=d, keepdim=k)]. *)
Definition sum_dim (d : Z) (keepdim : bool) (t : tensor fnum)
  : result (tensor fnum) :=
  d' <- norm_dim d (dim t) ;;
  let n := nth d' (size t) 0 in
  Ok (mkT (if keepdim then upd (size t) d' 1 else remove_at d' (size t))
          (fun ix => fsum (fun k =>
             elt t (if keepdim then upd ix d' k else insert_at d' k ix)) n)).

(** The sum of all the elements, in row-major order. *)
Definition sum_all (t : tensor fnum) : fnum :=
  fsum (fun k => elt t (unravel (size t) k)) (numel t).

(** [t.mean()]: a scalar. *)
Definition mean (t : tensor fnum) : fnum :=
  fdiv (sum_all t) (Real (INR (numel t))).

(** Index of the first largest of [f 0 .. f (n-1)]. *)
Fixpoint argmax (f : nat -> fnum) (n : nat) : nat :=
  match n with
  | O => 0
  | S k =>
      match k with
      | O => 0
      | S _ => let j := argmax f k in if fgtb (f k) (f j) then k else j
      end
  end.

(** [t.max(dim=d)]: the values and the indices, axis [d] removed. *)
Definition max_dim (d : Z) (t : tensor fnum)
  : result (tensor fnum * tensor nat) :=
  d' <- norm_dim d (dim t) ;;
  let n := nth d' (size t) 0 in
  if n =? 0 then Err RuntimeError
  else
    let am ix := argmax (fun k => elt t (insert_at d' k ix)) n in
    Ok (mkT (remove_at d' (size t)) (fun ix => elt t (insert_at d' (am ix) ix)),
        mkT (remove_at d' (size t)) am).

(** ** Views *)

Definition transpose (d0 d1 : Z) A (t : tensor A) : result (tensor A) :=
  i <- norm_dim d0 (dim t) ;;
  j <- norm_dim d1 (dim t) ;;
  Ok (mkT (swap i j (size t)) (fun ix => elt t (swap i j ix))).

Definition contiguous A (t : tensor A) : tensor A := t.

(** The size a [view] asks for, its one [-1] inferred from the number of
    elements. *)
Definition infer_size (sz : list Z) (n : nat) : result (list nat) :=
  if existsb (fun z => (z <? -1)%Z) sz then Err RuntimeError
  else
    match filter (fun z => (z =? -1)%Z) sz with
    | [] =>
        let s := map Z.to_nat sz in
        if prod s =? n then Ok s else Err RuntimeError
    | [_] =>
        let p := prod (map Z.to_nat (filter (fun z => negb (z =? -1)%Z) sz)) in
        if (p =? 0) || negb (n mod p =? 0) then Err RuntimeError
        else Ok (map (fun z => if (z =? -1)%Z then n / p else Z.to_nat z) sz)
    | _ => Err RuntimeError
    end.

Definition view (sz : list Z) A (t : tensor A) : result (tensor A) :=
  s <- infer_size sz (numel t) ;;
  Ok (mkT s (fun ix => elt t (unravel (size t) (ravel s ix)))).

(** [t.squeeze()]: every axis of size 1 is dropped. *)
Fixpoint unsqueeze_idx (s ix : list nat) : list nat :=
  match s with
  | [] => []
  | a :: s' =>
      if a =? 1 then 0 :: unsqueeze_idx s' ix
      else match ix with
           | i :: ix' => i :: unsqueeze_idx s' ix'
           | [] => []
           end
  end.

Definition squeeze A (t : tensor A) : tensor A :=
  mkT (filter (fun a => negb (a =? 1)) (size t))
      (fun ix => elt t (unsqueeze_idx (size t) ix)).

(** ** Indexing: [t[None, :, k]] *)

Inductive index_item : Type :=
| INone              (* [None]: a new axis of size 1 *)
| IAll               (* [:] *)
| IAt (k : nat).     (* an integer *)

Fixpoint index_size (items : list index_item) (s : list nat)
  : result (list nat) :=
  match items, s with
  | [], _ => Ok s
  | INone :: r, _ => s' <- index_size r s ;; Ok (1 :: s')
  | IAll :: r, a :: s0 => s' <- index_size r s0 ;; Ok (a :: s')
  | IAt k :: r, a :: s0 => if k <? a then index_size r s0 else Err IndexError
  | _ :: _, [] => Err IndexError
  end.

Fixpoint index_src (items : list index_item) (ix : list nat) : list nat :=
  match items, ix with
  | [], _ => ix
  | INone :: r, _ :: ix' => index_src r ix'
  | IAll :: r, i :: ix' => i :: index_src r ix'
  | IAt k :: r, _ => k :: index_src r ix
  | _ :: _, [] => []
  end.

Definition index (items : list index_item) A (t : tensor A)
  : result (tensor A) :=
  s <- index_size items (size t) ;;
  Ok (mkT s (fun ix => elt t (index_src items ix))).

(** [t.data[k]] of a one-axis tensor: a plain number. *)
Definition item A (k : nat) (t : tensor A) : result A :=
  match size t with
  | [n] => if k <? n then Ok (elt t [k]) else Err IndexError
  | _ => Err IndexError
  end.

(** ** Products *)

(** [a @ b] for operands of at least two axes each (the program's are of
    five or more): the leading axes broadcast, the last two are multiplied
    as matrices. *)
Definition matmul (a b : tensor fnum) : result (tensor fnum) :=
  let ra := dim a in
  let rb := dim b in
  if (ra <? 2) || (rb <? 2) then Err RuntimeError
  else
    let ba := firstn (ra - 2) (size a) in
    let bb := firstn (rb - 2) (size b) in
    match skipn (ra - 2) (size a), skipn (rb - 2) (size b) with
    | [n; k], [k'; p] =>
        if k =? k' then
          bs <- bsize ba bb ;;
          Ok (mkT (bs ++ [n; p])
                  (fun ix =>
                     let bix := firstn (length bs) ix in
                     match skipn (length bs) ix with
                     | [i; j] =>
                         fsum (fun l => fmul (elt a (bidx ba bix ++ [i; l]))
                                             (elt b (bidx bb bix ++ [l; j]))) k
                     | _ => NaN
                     end))
        else Err RuntimeError
    | _, _ => Err RuntimeError
    end.

(** [torch.cat(ts, dim=d)]. *)
Fixpoint cat_elt (ts : list (tensor fnum)) (d : nat) (ix : list nat) (k : nat)
  : fnum :=
  match ts with
  | [] => NaN
  | t :: ts' =>
      let n := nth d (size t) 0 in
      if k <? n then elt t (upd ix d k) else cat_elt ts' d ix (k - n)
  end.

Definition same_but (d : nat) (s1 s2 : list nat) : bool :=
  (length s1 =? length s2) &&
  forallb (fun i => (i =? d) || (nth i s1 0 =? nth i s2 0)) (seq 0 (length s1)).

Definition cat (ts : list (tensor fnum)) (d : Z) : result (tensor fnum) :=
  match ts with
  | [] => Err RuntimeError
  | t0 :: _ =>
      d' <- norm_dim d (dim t0) ;;
      if forallb (fun t => same_but d' (size t0) (size t)) ts then
        let n := fold_right (fun t acc => nth d' (size t) 0 + acc) 0 ts in
        Ok (mkT (upd (size t0) d' n)
                (fun ix => cat_elt ts d' ix (nth d' ix 0)))
      else Err RuntimeError
  end.

(** ** [torch.nn.functional] *)

(** [F.softmax(t)] with no [dim]: the axis is chosen from the number of
    axes (0 for one or three axes, 1 otherwise).  The program calls it on
    tensors of one or two axes. *)
Definition softmax_axis (rank : nat) : nat :=
  match rank with
  | 0 | 1 | 3 => 0
  | _ => 1
  end.

Definition F_softmax (t : tensor fnum) : result (tensor fnum) :=
  let d := softmax_axis (dim t) in
  if d <? dim t then
    Ok (mkT (size t)
            (fun ix => fdiv (fexp (elt t ix))
                            (fsum (fun k => fexp (elt t (upd ix d k)))
                                  (nth d (size t) 0))))
  else Err IndexError.

Definition F_relu : tensor fnum -> tensor fnum := tmap (fclamp_min 0).

(** [nn.MSELoss(size_average=True)]: the two tensors are read element by
    element in storage order and need the same number of elements. *)
Definition MSELoss (input target : tensor fnum) : result fnum :=
  if numel input =? numel target then
    Ok (fdiv (fsum (fun k => fsquare (fsub (elt input (unravel (size input) k))
                                           (elt target (unravel (size target) k))))
                   (numel input))
             (Real (INR (numel input))))
  else Err RuntimeError.

(** ** Layers of [torch.nn] *)

(** [nn.Conv2d(.., padding=0)]: weight [[out; in; kh; kw]], bias [[out]]. *)
Record Conv2d : Type := mkConv2d {
  conv_weight : tensor fnum;
  conv_bias : tensor fnum;
  conv_stride : nat
}.

Definition Conv2d_forward (c : Conv2d) (x : tensor fnum)
  : result (tensor fnum) :=
  match size x, size (conv_weight c), size (conv_bias c) with
  | [nb; ci; h; w], [co; ci'; kh; kw], [co'] =>
      let s := conv_stride c in
      if (ci =? ci') && (co =? co') && (kh <=? h) && (kw <=? w) && (0 <? s) then
        Ok (mkT [nb; co; (h - kh) / s + 1; (w - kw) / s + 1]
                (fun ix =>
                   match ix with
                   | [b; o; i; j] =>
                       fadd (fsum (fun ch => fsum (fun u => fsum (fun v =>
                               fmul (elt x [b; ch; i * s + u; j * s + v])
                                    (elt (conv_weight c) [o; ch; u; v]))
                               kw) kh) ci)
                            (elt (conv_bias c) [o])
                   | _ => NaN
                   end))
      else Err RuntimeError
  | _, _, _ => Err RuntimeError
  end.

(** [nn.Linear]: weight [[out; in]], bias [[out]], applied to the last
    axis. *)
Record Linear : Type := mkLinear {
  lin_weight : tensor fnum;
  lin_bias : tensor fnum
}.

Definition Linear_forward (l : Linear) (x : tensor fnum)
  : result (tensor fnum) :=
  match size (lin_weight l), size (lin_bias l), rev (size x) with
  | [n_out; n_in], [n_out'], n_in' :: _ =>
      if (n_in =? n_in') && (n_out =? n_out') then
        Ok (mkT (removelast (size x) ++ [n_out])
                (fun ix =>
                   let q := removelast ix in
                   let o := last ix 0 in
                   fadd (fsum (fun i => fmul (elt x (q ++ [i]))
                                             (elt (lin_weight l) [o; i])) n_in)
                        (elt (lin_bias l) [o])))
      else Err RuntimeError
  | _, _, _ => Err RuntimeError
  end.

End Torch.
Export Torch.

(* ================================================================== *)
(** * The program *)
(* ================================================================== *)

(** Reading an attribute that [__init__] may not have set. *)
Definition attr A (a : option A) : result A :=
  match a with
  | Some v => Ok v
  | None => Err AttributeError
  end.

(** [for i in rng: st = body(i, st)]. *)
Fixpoint for_each St (body : Z -> St -> result St) (rng : list Z) (st : St)
  : result St :=
  match rng with
  | [] => Ok st
  | i :: rng' => st' <- body i st ;; for_each body rng' st'
  end.

(** [range(n)]: empty when [n <= 0]. *)
Definition range (n : Z) : list Z := map Z.of_nat (seq 0 (Z.to_nat n)).

Fixpoint map_result A B (f : A -> result B) (l : list A) : result (list B) :=
  match l with
  | [] => Ok []
  | a :: l' => b <- f a ;; bs <- map_result f l' ;; Ok (b :: bs)
  end.

(** ** [softmax(input, dim)]: softmax along any axis *)

Definition softmax (input : tensor fnum) (dim : Z) : result (tensor fnum) :=
  let input_size := size input in
  let last_axis := (Z.of_nat (length input_size) - 1)%Z in
  trans_input <- transpose dim last_axis input ;;
  let trans_size := size trans_input in
  input_2d <- view [(-1)%Z; Z.of_nat (last trans_size 0)]
                   (contiguous trans_input) ;;
  soft_max_2d <- F_softmax input_2d ;;
  soft_max_nd <- view (map Z.of_nat trans_size) soft_max_2d ;;
  transpose dim last_axis soft_max_nd.

(** ** [class CapsuleLayer] *)

(** The attributes of a layer.  [__init__] sets [route_logits] and
    [route_weights] in routing mode and [capsules] otherwise; the first two
    are [nn.Parameter]s. *)
Record CapsuleLayer : Type := mkCapsuleLayer {
  num_route_nodes : Z;
  num_iterations : Z;
  num_capsules : nat;
  route_logits : option (tensor fnum);
  route_weights : option (tensor fnum);
  capsules : option (list Conv2d)
}.

(** The values drawn at construction ([torch.randn] and the initial weights
    and biases of the convolutions), one tensor's worth per number. *)
Definition samples : Type := nat -> list nat -> R.

Definition Conv2d_init (in_channels out_channels kernel_size stride : nat)
  (w b : list nat -> R) : Conv2d :=
  mkConv2d (of_fun [out_channels; in_channels; kernel_size; kernel_size] w)
           (of_fun [out_channels] b)
           stride.

Definition CapsuleLayer_init (num_capsules : nat) (num_route_nodes : Z)
  (in_channels out_channels : nat) (kernel_size stride : option nat)
  (num_iterations : Z) (rnd : samples) : result CapsuleLayer :=
  if negb (num_route_nodes =? -1)%Z then
    if (num_route_nodes <? 0)%Z then Err RuntimeError
    else
      let n := Z.to_nat num_route_nodes in
      Ok (mkCapsuleLayer num_route_nodes num_iterations num_capsules
            (Some (zeros [num_capsules; 1; n; 1; 1]))
            (Some (of_fun [num_capsules; n; in_channels; out_channels] (rnd 0)))
            None)
  else
    match kernel_size, stride with
    | Some k, Some s =>
        Ok (mkCapsuleLayer num_route_nodes num_iterations num_capsules
              None None
              (Some (map (fun i => Conv2d_init in_channels out_channels k s
                                     (rnd (2 * i)) (rnd (2 * i + 1)))
                         (seq 0 num_capsules))))
    | _, _ => Err TypeError
    end.

(** [parameters()]: what the optimizer reads and updates. *)
Definition CapsuleLayer_parameters (self : CapsuleLayer)
  : list (tensor fnum) :=
  match route_logits self with Some t => [t] | None => [] end ++
  match route_weights self with Some t => [t] | None => [] end ++
  match capsules self with
  | Some cs => flat_map (fun c => [conv_weight c; conv_bias c]) cs
  | None => []
  end.

(** An update of the parameter [route_logits], as an optimizer step or a
    loaded checkpoint makes it. *)
Definition set_route_logits (self : CapsuleLayer) (t : tensor fnum)
  : CapsuleLayer :=
  mkCapsuleLayer (num_route_nodes self) (num_iterations self)
    (num_capsules self) (Some t) (route_weights self) (capsules self).

Definition squash (t : tensor fnum) (dim : Z) : result (tensor fnum) :=
  squared_norm <- sum_dim dim true (tmap fsquare t) ;;
  scale <- div squared_norm (tmap (fadd (Real 1)) squared_norm) ;;
  scaled <- mul scale t ;;
  div scaled (tmap fsqrt squared_norm).

(** ** [squash] in single precision

    The tensors of the program hold float32 numbers.  The definitions above
    compute on exact reals; this one follows the same three lines of
    [squash] (46-48) on one vector with every operation rounded to float32
    (24 bits of precision, round to nearest even, as IEEE 754 binary32),
    the sum taken in index order. *)
Module Float32.

Definition prec : Z := 24.
Definition emax : Z := 128.



Definition add := SpecFloat.SFadd prec emax.
Definition mul := SpecFloat.SFmul prec emax.
Definition div := SpecFloat.SFdiv prec emax.
Definition sqrt := SpecFloat.SFsqrt prec emax.

End Float32.


(** The body of the routing loop.  The state is the pair of the locals
    [logits] and [outputs] ([None] while [outputs] is unassigned). *)
Definition route_step (self : CapsuleLayer) (priors : tensor fnum) (i : Z)
  (st : tensor fnum * option (tensor fnum))
  : result (tensor fnum * option (tensor fnum)) :=
  let logits := fst st in
  probs <- softmax logits 2 ;;
  weighted <- mul probs priors ;;
  summed <- sum_dim 2 true weighted ;;
  outputs <- squash summed (-1) ;;
  if negb (i =? num_iterations self - 1)%Z then
    agree <- mul priors outputs ;;
    delta_logits <- sum_dim (-1) true agree ;;
    logits' <- add logits delta_logits ;;
    Ok (logits', Some outputs)
  else Ok (logits, Some outputs).

Definition CapsuleLayer_forward (self : CapsuleLayer) (x : tensor fnum)
  : result (tensor fnum) :=
  if negb (num_route_nodes self =? -1)%Z then
    xe <- index [INone; IAll; IAll; INone; IAll] x ;;
    w <- attr (route_weights self) ;;
    we <- index [IAll; INone; IAll; IAll; IAll] w ;;
    priors <- matmul xe we ;;
    logits <- attr (route_logits self) ;;
    st <- for_each (route_step self priors) (range (num_iterations self))
                   (logits, None) ;;
    match snd st with
    | Some outputs => Ok outputs
    | None => Err UnboundLocalError
    end
  else
    cs <- attr (capsules self) ;;
    outputs <- map_result (fun capsule =>
                 y <- Conv2d_forward capsule x ;;
                 match size x with
                 | n0 :: _ => view [Z.of_nat n0; (-1)%Z; 1%Z] y
                 | [] => Err IndexError
                 end) cs ;;
    outputs <- cat outputs (-1) ;;
    squash outputs (-1).

(** ** [class CapsuleNet] *)

Record CapsuleNet : Type := mkCapsuleNet {
  conv1 : Conv2d;
  primary_capsules : CapsuleLayer;
  digit_capsules : CapsuleLayer;
  decoder1 : Linear;
  decoder2 : Linear;
  decoder3 : Linear
}.

Definition Linear_init (in_features out_features : nat)
  (w b : list nat -> R) : Linear :=
  mkLinear (of_fun [out_features; in_features] w) (of_fun [out_features] b).

Definition CapsuleNet_init (rnd : samples) : result CapsuleNet :=
  let conv1 := Conv2d_init 1 256 9 1 (rnd 0) (rnd 1) in
  primary <- CapsuleLayer_init 8 (-1) 256 32 (Some 9) (Some 2) 3
               (fun k => rnd (2 + k)) ;;
  digit <- CapsuleLayer_init 10 (32 * 6 * 6) 8 16 None None 3
             (fun k => rnd (18 + k)) ;;
  Ok (mkCapsuleNet conv1 primary digit
        (Linear_init 16 512 (rnd 19) (rnd 20))
        (Linear_init 512 1024 (rnd 21) (rnd 22))
        (Linear_init 1024 784 (rnd 23) (rnd 24))).

(** [self.decoder]: Linear, ReLU, Linear, ReLU, Linear, Sigmoid. *)
Definition decoder (self : CapsuleNet) (x : tensor fnum)
  : result (tensor fnum) :=
  h1 <- Linear_forward (decoder1 self) x ;;
  h2 <- Linear_forward (decoder2 self) (F_relu h1) ;;
  h3 <- Linear_forward (decoder3 self) (F_relu h2) ;;
  Ok (tmap fsigmoid h3).

(** Lines 89-91 of [forward]: the digit capsules, as [[batch; 10; 16]]
    when the batch has more than one element. *)
Definition digit_vectors (self : CapsuleNet) (x : tensor fnum)
  : result (tensor fnum) :=
  c <- Conv2d_forward (conv1 self) x ;;
  p <- CapsuleLayer_forward (primary_capsules self) (F_relu c) ;;
  d <- CapsuleLayer_forward (digit_capsules self) p ;;
  transpose 0 1 (squeeze d).

(** Lines 93-94: the norms of the capsule vectors, through a softmax. *)
Definition class_activations (x : tensor fnum) : result (tensor fnum) :=
  s <- sum_dim (-1) false (tmap fsquare x) ;;
  F_softmax (tmap fsqrt s).

(** Lines 97-98: the capsule vectors handed to the decoder. *)
Definition masked (x classes : tensor fnum) : result (tensor fnum) :=
  vi <- max_dim 1 classes ;;
  let max_length_indices := snd vi in
  k <- item 0 max_length_indices ;;
  index [IAll; IAt k; IAll] x.

Definition CapsuleNet_forward (self : CapsuleNet) (x : tensor fnum)
  : result (tensor fnum * tensor fnum) :=
  x <- digit_vectors self x ;;
  classes <- class_activations x ;;
  selected <- masked x classes ;;
  reconstructions <- decoder self selected ;;
  Ok (classes, reconstructions).

(** ** [class CapsuleLoss] *)

Local Open Scope R_scope.

(** Lines 109-113 of [forward]: the margin loss. *)
Definition margin_loss (labels classes : tensor fnum) : result fnum :=
  let left := tmap fsquare (tmap (fclamp_min 0)
                (tmap (fsub (Real 0.9)) classes)) in
  let right := tmap fsquare (tmap (fclamp_min 0)
                 (tmap (fun c => fsub c (Real 0.1)) classes)) in
  a <- mul labels left ;;
  b <- mul (tmap (fmul (Real 0.5)) (tmap (fsub (Real 1)) labels)) right ;;
  margin_loss <- add a b ;;
  margin_loss <- sum_dim 1 false margin_loss ;;
  Ok (mean margin_loss).

Definition CapsuleLoss_forward (images labels classes reconstructions
  : tensor fnum) : result fnum :=
  margin_loss <- margin_loss labels classes ;;
  reconstruction_loss <- MSELoss reconstructions images ;;
  Ok (fadd margin_loss (fmul (Real 0.0005) reconstruction_loss)).

Local Close Scope R_scope.

(* ================================================================== *)
(** * The specification's reading of the operations *)
(* ================================================================== *)

(** The definitions below follow the words of the specification, one
    capsule at a time; the theorems compare them with the code above. *)
Module Spec.

(** A vector of [D] components is a function of its index. *)
Definition sqnorm (D : nat) (s : nat -> fnum) : fnum :=
  fsum (fun k => fsquare (s k)) D.

(** Component [d] of the squash of [s]:
    [s * (|s|^2 / (1 + |s|^2)) / sqrt (|s|^2)]. *)
Definition squash_vec (D : nat) (s : nat -> fnum) (d : nat) : fnum :=
  fdiv (fmul (fdiv (sqnorm D s) (fadd (Real 1) (sqnorm D s))) (s d))
       (fsqrt (sqnorm D s)).

(** Softmax of the [N] numbers [l 0 .. l (N-1)]. *)
Definition softmax_vec (N : nat) (l : nat -> fnum) (n : nat) : fnum :=
  fdiv (fexp (l n)) (fsum (fun j => fexp (l j)) N).

Section Routing.

(** One output capsule and one batch element: [N] route nodes, votes of
    [D] components each. *)
Variables N D : nat.
Variable votes : nat -> nat -> fnum.

(** Step 3a: coupling coefficients from the current logits. *)
Definition coupling (logits : nat -> fnum) : nat -> fnum :=
  softmax_vec N logits.

(** Step 3b: the coupling-weighted sum of the votes. *)
Definition weighted_sum (logits : nat -> fnum) (d : nat) : fnum :=
  fsum (fun n => fmul (coupling logits n) (votes n d)) N.

(** Step 3c: the output capsule. *)
Definition capsule_output (logits : nat -> fnum) : nat -> fnum :=
  squash_vec D (weighted_sum logits).

(** Step 3d: agreement of each vote with the output, added to the
    logits. *)
Definition agreement (logits : nat -> fnum) (n : nat) : fnum :=
  fsum (fun d => fmul (votes n d) (capsule_output logits d)) D.

Definition update (logits : nat -> fnum) (n : nat) : fnum :=
  fadd (logits n) (agreement logits n).

(** The logits after [t] updates. *)
Fixpoint logits_after (t : nat) (logits : nat -> fnum) : nat -> fnum :=
  match t with
  | O => logits
  | S t' => update (logits_after t' logits)
  end.

(** [T >= 1] iterations: [T - 1] updates, then the output. *)
Definition routing (T : nat) (logits : nat -> fnum) : nat -> fnum :=
  capsule_output (logits_after (T - 1) logits).

(** A single weighted sum with every coupling coefficient [1 / N]. *)
Definition uniform_output : nat -> fnum :=
  squash_vec D (fun d =>
    fsum (fun n => fmul (Real (1 / INR N)) (votes n d)) N).

End Routing.

(** Step 1: the vote of route node [n] for output capsule [m], for batch
    element [b]: the input capsule vector times the learned transform. *)
Definition vote (Din : nat) (x w : tensor fnum) (m b n d : nat) : fnum :=
  fsum (fun k => fmul (elt x [b; n; k]) (elt w [m; n; k; d])) Din.

(** The margin-loss term of one class. *)
Definition margin_term (label activation : R) : R :=
  (label * (Rmax 0 (0.9 - activation)) ^ 2
   + 0.5 * (1 - label) * (Rmax 0 (activation - 0.1)) ^ 2)%R.

End Spec.

(* ================================================================== *)
(** * Well-formed layers *)
(* ================================================================== *)

(** A routing-mode layer as [__init__] builds it and as parameter updates
    keep it: [M] output capsules, [N] route nodes, transforms from [Din] to
    [Dout] components.  The values of the two parameters are free. *)
Definition routing_layer (self : CapsuleLayer) (M N Din Dout : nat)
  (w lg : tensor fnum) : Prop :=
  num_route_nodes self = Z.of_nat N /\
  route_weights self = Some w /\
  route_logits self = Some lg /\
  size w = [M; N; Din; Dout] /\
  size lg = [M; 1; N; 1; 1].

(** The sizes of the parameters of a convolution and of a linear layer. *)
Definition conv_sizes (c : Conv2d) (co ci k s : nat) : Prop :=
  size (conv_weight c) = [co; ci; k; k] /\
  size (conv_bias c) = [co] /\
  conv_stride c = s.

Definition linear_sizes (l : Linear) (n_in n_out : nat) : Prop :=
  size (lin_weight l) = [n_out; n_in] /\
  size (lin_bias l) = [n_out].

(** A network as [CapsuleNet.__init__] builds it, its parameters at any
    values. *)
Definition capsule_net (self : CapsuleNet) : Prop :=
  conv_sizes (conv1 self) 256 1 9 1 /\
  num_route_nodes (primary_capsules self) = (-1)%Z /\
  (exists cs, capsules (primary_capsules self) = Some cs /\
              length cs = 8 /\
              Forall (fun c => conv_sizes c 32 256 9 2) cs) /\
  (exists w lg, routing_layer (digit_capsules self) 10 1152 8 16 w lg) /\
  num_iterations (digit_capsules self) = 3%Z /\
  linear_sizes (decoder1 self) 16 512 /\
  linear_sizes (decoder2 self) 512 1024 /\
  linear_sizes (decoder3 self) 1024 784.

(* ================================================================== *)
(** * Small concrete layers and inputs *)
(* ================================================================== *)

(** A layer with one output capsule, two route nodes and one component per
    capsule, every weight [1], as [__init__] builds it. *)
Definition small_layer (T : Z) : CapsuleLayer :=
  mkCapsuleLayer 2%Z T 1
    (Some (zeros [1; 1; 2; 1; 1]))
    (Some (of_fun [1; 2; 1; 1] (fun _ => 1%R)))
    None.

(** Logits [1] for route node 0 and [0] for route node 1. *)
Definition tilted_logits : tensor fnum :=
  of_fun [1; 1; 2; 1; 1]
    (fun ix => match ix with [_; _; O; _; _] => 1%R | _ => 0%R end).

(** The same layer after an update of its parameter [route_logits]. *)
Definition updated_layer (T : Z) : CapsuleLayer :=
  set_route_logits (small_layer T) tilted_logits.

(** The vector [(3, 4)]. *)
Definition vector34 : tensor fnum :=
  of_fun [2] (fun ix => match ix with [O] => 3%R | _ => 4%R end).

(** Every sample drawn at construction is [1]; the network
    [CapsuleNet.__init__] then builds. *)
Definition example_samples : samples := fun _ _ => 1%R.

Definition example_net : CapsuleNet :=
  mkCapsuleNet
    (Conv2d_init 1 256 9 1 (example_samples 0) (example_samples 1))
    (mkCapsuleLayer (-1) 3 8 None None
       (Some (map (fun i => Conv2d_init 256 32 9 2
                              (example_samples (2 + 2 * i))
                              (example_samples (2 + (2 * i + 1))))
                  (seq 0 8))))
    (mkCapsuleLayer 1152 3 10
       (Some (zeros [10; 1; 1152; 1; 1]))
       (Some (of_fun [10; 1152; 8; 16] (example_samples 18)))
       None)
    (Linear_init 16 512 (example_samples 19) (example_samples 20))
    (Linear_init 512 1024 (example_samples 21) (example_samples 22))
    (Linear_init 1024 784 (example_samples 23) (example_samples 24)).

(** One batch element, two classes.  The one-hot label of class 0, which
    is also the ideal activations for it, and activations moved off the
    ideal ones but inside the margins. *)
Definition label_first : tensor fnum :=
  of_fun [1; 2] (fun ix => match ix with [_; O] => 1%R | _ => 0%R end).

Definition inside_margins : tensor fnum :=
  of_fun [1; 2] (fun ix => match ix with [_; O] => 0.95%R | _ => 0.05%R end).

(** One batch element: capsule [1] at route node 0, [0] at route node 1. *)
Definition small_input : tensor fnum :=
  of_fun [1; 2; 1]
    (fun ix => match ix with [_; O; _] => 1%R | _ => 0%R end).

(** A batch of two copies of [small_input]. *)
Definition small_batch : tensor fnum :=
  of_fun [2; 2; 1]
    (fun ix => match ix with [_; O; _] => 1%R | _ => 0%R end).

(** A convolution-mode layer of two capsules, each a 1x1 convolution of one
    channel, as [__init__] builds it from [example_samples]. *)
Definition small_conv_layer : CapsuleLayer :=
  mkCapsuleLayer (-1) 3 2 None None
    (Some (map (fun i => Conv2d_init 1 1 1 1 (example_samples (2 * i))
                           (example_samples (2 * i + 1)))
               (seq 0 2))).


(** Two one-hot labels of class 3. *)
Definition example_labels : tensor fnum :=
  of_fun [2; 10]
    (fun ix => match ix with
               | [_; c] => if 3 =? c then 1%R else 0%R
               | _ => 0%R
               end).

(* ================================================================== *)
(** * Lemmas on scalars and sums *)
(* ================================================================== *)

Section ScalarFacts.

Local Open Scope R_scope.

Lemma fsum_ext (f g : nat -> fnum) (n : nat) :
  (forall k, (k < n)%nat -> f k = g k) -> fsum f n = fsum g n.
Proof.
  induction n as [|n IH]; intros H; simpl; [reflexivity|].
  rewrite IH by (intros; apply H; lia).
  rewrite (H n) by lia. reflexivity.
Qed.

Lemma fsum_real (f : nat -> fnum) (g : nat -> R) (n : nat) :
  (forall k, (k < n)%nat -> f k = Real (g k)) -> fsum f n = Real (rsum g n).
Proof.
  induction n as [|n IH]; intros H; simpl; [reflexivity|].
  rewrite IH by (intros; apply H; lia).
  rewrite (H n) by lia. reflexivity.
Qed.

Lemma rsum_ext (f g : nat -> R) (n : nat) :
  (forall k, (k < n)%nat -> f k = g k) -> rsum f n = rsum g n.
Proof.
  induction n as [|n IH]; intros H; simpl; [reflexivity|].
  rewrite IH by (intros; apply H; lia).
  rewrite (H n) by lia. reflexivity.
Qed.

Lemma rsum_nonneg (f : nat -> R) (n : nat) :
  (forall k, (k < n)%nat -> 0 <= f k) -> 0 <= rsum f n.
Proof.
  induction n as [|n IH]; intros H; simpl; [lra|].
  assert (0 <= rsum f n) by (apply IH; intros; apply H; lia).
  assert (0 <= f n) by (apply H; lia). lra.
Qed.

Lemma rsum_pos (f : nat -> R) (n : nat) :
  (0 < n)%nat -> (forall k, (k < n)%nat -> 0 < f k) -> 0 < rsum f n.
Proof.
  intros Hn H. destruct n as [|n]; [lia|]. simpl.
  assert (0 <= rsum f n) by (apply rsum_nonneg; intros; left; apply H; lia).
  assert (0 < f n) by (apply H; lia). lra.
Qed.

Lemma rsum_scal (c : R) (f : nat -> R) (n : nat) :
  rsum (fun k => c * f k) n = c * rsum f n.
Proof. induction n as [|n IH]; simpl; [ring|]. rewrite IH. ring. Qed.

Lemma rsum_const (c : R) (n : nat) : rsum (fun _ => c) n = INR n * c.
Proof.
  induction n as [|n IH]; [simpl; ring|].
  rewrite S_INR. simpl rsum. rewrite IH. ring.
Qed.

(** A sum of squares is zero only when every term is. *)
Lemma rsum_squares_zero (f : nat -> R) (n : nat) :
  rsum (fun k => f k * f k) n = 0 -> forall k, (k < n)%nat -> f k = 0.
Proof.
  induction n as [|n IH]; intros H k Hk; [lia|]. simpl in H.
  assert (H0 : 0 <= rsum (fun k => f k * f k) n)
    by (apply rsum_nonneg; intros; nra).
  assert (Hn : 0 <= f n * f n) by nra.
  destruct (Nat.eq_dec k n) as [->|Hne].
  - nra.
  - apply IH; [lra | lia].
Qed.

Lemma fdiv_real (a b : R) : b <> 0 -> fdiv (Real a) (Real b) = Real (a / b).
Proof. intros H. unfold fdiv. destruct (Req_dec_T b 0); [contradiction|reflexivity]. Qed.

Lemma fdiv_zero (a : R) : fdiv (Real a) (Real 0) = NaN.
Proof. unfold fdiv. destruct (Req_dec_T 0 0); [reflexivity|contradiction]. Qed.

Lemma fsqrt_real (a : R) : 0 <= a -> fsqrt (Real a) = Real (sqrt a).
Proof. intros H. unfold fsqrt. destruct (Rlt_dec a 0); [lra|reflexivity]. Qed.

End ScalarFacts.

(* ================================================================== *)
(** * Lemmas on the tensor operations *)
(* ================================================================== *)

Section TensorFacts.

Lemma bdim_refl a : bdim a a = Ok a.
Proof. unfold bdim. rewrite Nat.eqb_refl. reflexivity. Qed.

Lemma bdim_1_l b : bdim 1 b = Ok b.
Proof.
  unfold bdim. destruct (Nat.eqb_spec 1 b) as [<-|H]; reflexivity.
Qed.

Lemma bdim_1_r a : bdim a 1 = Ok a.
Proof.
  unfold bdim. destruct (Nat.eqb_spec a 1) as [->|H]; reflexivity.
Qed.

Lemma bi_lt a i : i < a -> bi a i = i.
Proof. unfold bi. destruct (Nat.eqb_spec a 1); lia. Qed.

Lemma bi_1 i : bi 1 i = 0.
Proof. reflexivity. Qed.

End TensorFacts.

(** The proofs below unfold the scalar operations and the broadcasting of
    one axis only through their lemmas. *)
Arguments bdim : simpl never.
Arguments bi : simpl never.
Arguments norm_dim : simpl never.
Arguments fadd : simpl never.
Arguments fsub : simpl never.
Arguments fmul : simpl never.
Arguments fdiv : simpl never.
Arguments fsqrt : simpl never.
Arguments fexp : simpl never.
Arguments fsquare : simpl never.
Arguments fsum : simpl never.

(** ** Tactics that run the tensor code on sizes of known length *)

(** A dimension argument over a known number of axes. *)
Ltac ndim :=
  repeat match goal with
         | |- context [norm_dim ?d ?r] =>
             let v := eval vm_compute in (norm_dim d r) in
             match v with
             | Ok _ => change (norm_dim d r) with v
             | Err _ => change (norm_dim d r) with v
             end
         end.

(** Rewrites with every known size. *)
Ltac size_hyps :=
  repeat match goal with
         | H : size ?t = _ |- context [size ?t] => rewrite !H
         end.

(** Runs broadcasting operations and reductions on tensors whose sizes are
    hypotheses. *)
Ltac trun :=
  repeat progress (
    unfold add, sub, mul, div, bop, bsize, sum_dim, tmap, dim;
    cbn [size elt rev app bsize_rev bind length];
    size_hyps;
    cbn [size elt rev app bsize_rev bind length];
    ndim;
    cbn [size elt rev app bsize_rev bind nth upd];
    rewrite ?bdim_refl, ?bdim_1_l, ?bdim_1_r;
    cbn [bind rev app]).

(** An index below the size of its axis is read where it is. *)
Ltac bi_hyps :=
  repeat match goal with
         | H : ?i < ?a |- context [bi ?a ?i] => rewrite (bi_lt H)
         end.

(** Reads an element of the result at a valid index. *)
Ltac erun :=
  unfold bidx; cbn [size elt rev app bidx_rev upd];
  rewrite ?bi_1; bi_hyps.

(** ** Row-major positions and views *)

Section ViewFacts.

Lemma ravel_lt s : forall ix, valid s ix -> ravel s ix < prod s.
Proof.
  induction s as [|a s IH]; intros [|i ix] H; simpl in *; try tauto; try lia.
  destruct H as [Hi Hv]. specialize (IH _ Hv). nia.
Qed.

Lemma unravel_ravel s : forall ix, valid s ix -> unravel s (ravel s ix) = ix.
Proof.
  induction s as [|a s IH]; intros [|i ix] H; simpl in *; try tauto.
  destruct H as [Hi Hv].
  pose proof (ravel_lt _ _ Hv) as Hr.
  assert (Hd : (i * prod s + ravel s ix) / prod s = i).
  { symmetry. apply Nat.div_unique with (ravel s ix); lia. }
  assert (Hm : (i * prod s + ravel s ix) mod prod s = ravel s ix).
  { symmetry. apply Nat.mod_unique with i; lia. }
  rewrite Hd, Hm, IH by assumption. reflexivity.
Qed.

Lemma existsb_of_nat s : existsb (fun z => (z <? -1)%Z) (map Z.of_nat s) = false.
Proof.
  induction s as [|a s IH]; simpl; [reflexivity|].
  rewrite IH, orb_false_r. apply Z.ltb_ge. lia.
Qed.

Lemma filter_minus1_of_nat s :
  filter (fun z => (z =? -1)%Z) (map Z.of_nat s) = [].
Proof.
  induction s as [|a s IH]; simpl; [reflexivity|].
  destruct (Z.eqb_spec (Z.of_nat a) (-1)); [lia|assumption].
Qed.

Lemma to_nat_of_nat s : map Z.to_nat (map Z.of_nat s) = s.
Proof.
  induction s as [|a s IH]; simpl; [reflexivity|].
  rewrite Nat2Z.id. f_equal. exact IH.
Qed.

Lemma infer_size_nats s n : prod s = n -> infer_size (map Z.of_nat s) n = Ok s.
Proof.
  intros H. unfold infer_size.
  rewrite existsb_of_nat, filter_minus1_of_nat, to_nat_of_nat.
  rewrite H, Nat.eqb_refl. reflexivity.
Qed.

Lemma infer_size_rows k n :
  0 < k -> n mod k = 0 -> infer_size [(-1)%Z; Z.of_nat k] n = Ok [n / k; k].
Proof.
  intros Hk Hm. unfold infer_size.
  assert (H1 : (Z.of_nat k <? -1)%Z = false) by (apply Z.ltb_ge; lia).
  assert (H2 : (Z.of_nat k =? -1)%Z = false) by (apply Z.eqb_neq; lia).
  cbn [existsb filter map]. rewrite H1.
  change (-1 <? -1)%Z with false. change (-1 =? -1)%Z with true.
  rewrite H2. cbn [orb negb filter map prod].
  rewrite Nat2Z.id, Nat.mul_1_r, Hm.
  destruct (Nat.eqb_spec k 0); [lia|]. reflexivity.
Qed.

End ViewFacts.

(** ** [squash] along the last axis, one vector at a time *)

Section SquashFacts.

Lemma squash_1d (t : tensor fnum) (D : nat) :
  size t = [D] ->
  exists o, squash t (-1) = Ok o /\ size o = [D] /\
    forall d, d < D -> elt o [d] = Spec.squash_vec D (fun k => elt t [k]) d.
Proof.
  intros Hs. unfold squash. trun.
  eexists; split; [reflexivity|]. split; [reflexivity|].
  intros d Hd. erun. reflexivity.
Qed.

Lemma squash_5d (t : tensor fnum) (M B D : nat) :
  size t = [M; B; 1; 1; D] ->
  exists o, squash t (-1) = Ok o /\ size o = [M; B; 1; 1; D] /\
    forall m b d, m < M -> b < B -> d < D ->
      elt o [m; b; 0; 0; d] =
      Spec.squash_vec D (fun k => elt t [m; b; 0; 0; k]) d.
Proof.
  intros Hs. unfold squash. trun.
  eexists; split; [reflexivity|]. split; [reflexivity|].
  intros m b d Hm Hb Hd. erun. reflexivity.
Qed.

Lemma squash_3d (t : tensor fnum) (B N D : nat) :
  size t = [B; N; D] ->
  exists o, squash t (-1) = Ok o /\ size o = [B; N; D] /\
    forall b n d, b < B -> n < N -> d < D ->
      elt o [b; n; d] =
      Spec.squash_vec D (fun k => elt t [b; n; k]) d.
Proof.
  intros Hs. unfold squash. trun.
  eexists; split; [reflexivity|]. split; [reflexivity|].
  intros b n d Hb Hn Hd. erun. reflexivity.
Qed.

End SquashFacts.

(** ** [softmax] along the route-node axis *)

Section SoftmaxFacts.

Lemma softmax_5d (t : tensor fnum) (M B N : nat) :
  size t = [M; B; N; 1; 1] -> 0 < N ->
  exists o, softmax t 2 = Ok o /\ size o = [M; B; N; 1; 1] /\
    forall m b n, m < M -> b < B -> n < N ->
      elt o [m; b; n; 0; 0] =
      Spec.softmax_vec N (fun j => elt t [m; b; j; 0; 0]) n.
Proof.
  intros Hs HN. unfold softmax, transpose, contiguous, dim.
  rewrite Hs. cbn [length]. ndim. cbn [bind size elt swap upd nth last].
  unfold view, numel. cbn [size elt].
  assert (Hnum : prod [M; B; 1; 1; N] = (M * B) * N) by (cbn [prod]; lia).
  rewrite Hnum.
  rewrite (@infer_size_rows N (M * B * N)) by
    (try assumption; apply Nat.Div0.mod_mul).
  rewrite Nat.div_mul by lia.
  cbn [bind size elt]. unfold F_softmax, dim. cbn [size elt length softmax_axis Nat.ltb Nat.leb bind nth].
  rewrite infer_size_nats by (cbn [prod]; lia).
  cbn [bind size elt length]. ndim. cbn [bind size elt swap upd nth].
  eexists; split; [reflexivity|]. split; [reflexivity|].
  intros m b n Hm Hb Hn. cbn [elt size swap upd nth].
  assert (Hr : forall k, k < N ->
            ravel [M; B; 1; 1; N] [m; b; 0; 0; k] = ravel [M * B; N] [m * B + b; k])
    by (intros; cbn [ravel prod]; lia).
  assert (Hv2 : forall k, k < N -> valid [M * B; N] [m * B + b; k])
    by (intros; cbn [valid]; repeat split; try lia; nia).
  assert (Hv5 : forall k, k < N -> valid [M; B; 1; 1; N] [m; b; 0; 0; k])
    by (intros; cbn [valid]; repeat split; lia).
  rewrite Hr, unravel_ravel by auto.
  unfold Spec.softmax_vec. f_equal.
  - cbn [upd]. rewrite <- Hr, unravel_ravel by auto. reflexivity.
  - apply fsum_ext. intros k Hk. cbn [upd].
    rewrite <- Hr, unravel_ravel by auto. reflexivity.
Qed.

End SoftmaxFacts.

(** ** The specification's functions only read their arguments in range *)

Section SpecExt.

Variables N D : nat.

Lemma sqnorm_ext (s s' : nat -> fnum) :
  (forall k, k < D -> s k = s' k) -> Spec.sqnorm D s = Spec.sqnorm D s'.
Proof.
  intros H. unfold Spec.sqnorm. apply fsum_ext. intros k Hk.
  rewrite H by assumption. reflexivity.
Qed.

Lemma squash_vec_ext (s s' : nat -> fnum) (d : nat) :
  (forall k, k < D -> s k = s' k) -> d < D ->
  Spec.squash_vec D s d = Spec.squash_vec D s' d.
Proof.
  intros H Hd. unfold Spec.squash_vec.
  rewrite (sqnorm_ext _ _ H), (H d Hd). reflexivity.
Qed.

Lemma softmax_vec_ext (l l' : nat -> fnum) (n : nat) :
  (forall k, k < N -> l k = l' k) -> n < N ->
  Spec.softmax_vec N l n = Spec.softmax_vec N l' n.
Proof.
  intros H Hn. unfold Spec.softmax_vec. rewrite (H n Hn). f_equal.
  apply fsum_ext. intros k Hk. rewrite H by assumption. reflexivity.
Qed.

Variables v v' : nat -> nat -> fnum.
Hypothesis Hv : forall n d, n < N -> d < D -> v n d = v' n d.

Lemma weighted_sum_ext (l l' : nat -> fnum) (d : nat) :
  (forall k, k < N -> l k = l' k) -> d < D ->
  Spec.weighted_sum N v l d = Spec.weighted_sum N v' l' d.
Proof.
  intros H Hd. unfold Spec.weighted_sum, Spec.coupling.
  apply fsum_ext. intros n Hn.
  rewrite (softmax_vec_ext l l' H Hn), Hv by assumption. reflexivity.
Qed.

Lemma capsule_output_ext (l l' : nat -> fnum) (d : nat) :
  (forall k, k < N -> l k = l' k) -> d < D ->
  Spec.capsule_output N D v l d = Spec.capsule_output N D v' l' d.
Proof.
  intros H Hd. unfold Spec.capsule_output.
  apply squash_vec_ext; [|assumption].
  intros k Hk. apply weighted_sum_ext; assumption.
Qed.

Lemma update_ext (l l' : nat -> fnum) (n : nat) :
  (forall k, k < N -> l k = l' k) -> n < N ->
  Spec.update N D v l n = Spec.update N D v' l' n.
Proof.
  intros H Hn. unfold Spec.update, Spec.agreement.
  rewrite (H n Hn). f_equal. apply fsum_ext. intros d Hd.
  rewrite Hv by assumption.
  rewrite (capsule_output_ext l l' H Hd). reflexivity.
Qed.

Lemma logits_after_ext (t : nat) (l l' : nat -> fnum) :
  (forall k, k < N -> l k = l' k) ->
  forall n, n < N ->
  Spec.logits_after N D v t l n = Spec.logits_after N D v' t l' n.
Proof.
  intros H. induction t as [|t IH]; intros n Hn; cbn [Spec.logits_after].
  - apply H; assumption.
  - apply update_ext; assumption.
Qed.

Lemma routing_ext (T : nat) (l l' : nat -> fnum) (d : nat) :
  (forall k, k < N -> l k = l' k) -> d < D ->
  Spec.routing N D v T l d = Spec.routing N D v' T l' d.
Proof.
  intros H Hd. unfold Spec.routing.
  apply capsule_output_ext; [|assumption].
  apply logits_after_ext; assumption.
Qed.

Lemma logits_after_shift (t : nat) (l : nat -> fnum) :
  Spec.logits_after N D v (S t) l =
  Spec.logits_after N D v t (Spec.update N D v l).
Proof.
  induction t as [|t IH]; [reflexivity|].
  cbn [Spec.logits_after] in *. rewrite IH. reflexivity.
Qed.

End SpecExt.

(** ** The routing branch of [CapsuleLayer.forward] *)

Section VoteFacts.

Lemma priors_spec (x w : tensor fnum) (M B N Din Dout : nat) :
  size x = [B; N; Din] -> size w = [M; N; Din; Dout] ->
  exists xe we p,
    index [INone; IAll; IAll; INone; IAll] x = Ok xe /\
    index [IAll; INone; IAll; IAll; IAll] w = Ok we /\
    matmul xe we = Ok p /\ size p = [M; B; N; 1; Dout] /\
    forall m b n d, m < M -> b < B -> n < N -> d < Dout ->
      elt p [m; b; n; 0; d] = Spec.vote Din x w m b n d.
Proof.
  intros Hx Hw. unfold index. rewrite Hx, Hw.
  cbn [index_size bind].
  do 3 eexists. split; [reflexivity|]. split; [reflexivity|].
  split; [|split].
  - unfold matmul, dim.
    cbn [size elt length Nat.ltb Nat.leb orb Nat.sub firstn skipn].
    rewrite Nat.eqb_refl. trun. reflexivity.
  - reflexivity.
  - intros m b n d Hm Hb Hn Hd.
    cbn [elt length firstn skipn]. erun.
    cbn [app index_src]. reflexivity.
Qed.

End VoteFacts.

Section Step.

Variables (self : CapsuleLayer) (pt : tensor fnum) (M B N D : nat).
Hypothesis Hpt : size pt = [M; B; N; 1; D].
Hypothesis HN : 0 < N.

Let V (m b n d : nat) : fnum := elt pt [m; b; n; 0; d].

Lemma route_step_spec (lt : tensor fnum) (B' : nat) (i : Z)
  (prev : option (tensor fnum)) :
  size lt = [M; B'; N; 1; 1] -> B' = 1 \/ B' = B ->
  exists lt' o,
    route_step self pt i (lt, prev) = Ok (lt', Some o) /\
    size o = [M; B; 1; 1; D] /\
    (forall m b d, m < M -> b < B -> d < D ->
       elt o [m; b; 0; 0; d] =
       Spec.capsule_output N D (V m b)
         (fun n => elt lt [m; bi B' b; n; 0; 0]) d) /\
    (if (i =? num_iterations self - 1)%Z then lt' = lt
     else size lt' = [M; B; N; 1; 1] /\
          forall m b n, m < M -> b < B -> n < N ->
            elt lt' [m; b; n; 0; 0] =
            Spec.update N D (V m b)
              (fun n => elt lt [m; bi B' b; n; 0; 0]) n).
Proof.
  intros Hlt HB. unfold route_step. cbn [fst].
  destruct (softmax_5d lt Hlt HN) as (pr & Epr & Spr & Vpr).
  rewrite Epr. cbn [bind].
  assert (Hb1 : bdim B' B = Ok B).
  { destruct HB as [->| ->]; [apply bdim_1_l | apply bdim_refl]. }
  assert (Hb' : forall b, b < B -> bi B' b < B').
  { intros b Hb.
    destruct HB as [->| ->]; [rewrite bi_1; lia | rewrite bi_lt; lia]. }
  trun. rewrite Hb1. trun.
  match goal with
  | |- context [squash ?t _] =>
      destruct (@squash_5d t M B D eq_refl) as (o & Eo & So & Vo)
  end.
  rewrite Eo. cbn [bind].
  assert (Ho : forall m b d, m < M -> b < B -> d < D ->
     elt o [m; b; 0; 0; d] =
       Spec.capsule_output N D (V m b)
         (fun n => elt lt [m; bi B' b; n; 0; 0]) d).
  { intros m b d Hm Hb Hd. rewrite Vo by assumption.
    unfold Spec.capsule_output. apply squash_vec_ext; [|assumption].
    intros k Hk. cbn [elt]. unfold Spec.weighted_sum, Spec.coupling.
    apply fsum_ext. intros n Hn. erun.
    rewrite Vpr by auto. reflexivity. }
  clear Vo Eo.
  destruct (i =? num_iterations self - 1)%Z; cbn [negb].
  - exists lt, o. repeat split; assumption.
  - trun. rewrite Hb1. trun.
    eexists; exists o. split; [reflexivity|]. split; [assumption|].
    split; [assumption|]. split; [reflexivity|].
    intros m b n Hm Hb Hn. erun.
    unfold Spec.update, Spec.agreement. f_equal.
    apply fsum_ext. intros d Hd. erun.
    rewrite Ho by assumption. reflexivity.
Qed.

End Step.

Section Loop.

Variables (self : CapsuleLayer) (pt : tensor fnum) (M B N D T : nat).
Hypothesis Hpt : size pt = [M; B; N; 1; D].
Hypothesis HN : 0 < N.
Hypothesis HT : num_iterations self = Z.of_nat T.

Let V (m b n d : nat) : fnum := elt pt [m; b; n; 0; d].

Lemma route_loop_spec (len : nat) :
  forall (a : nat) (lt : tensor fnum) (B' : nat) (prev : option (tensor fnum)),
  a + len = T -> 0 < len ->
  size lt = [M; B'; N; 1; 1] -> B' = 1 \/ B' = B ->
  exists lt' o,
    for_each (route_step self pt) (map Z.of_nat (seq a len)) (lt, prev)
      = Ok (lt', Some o) /\
    size o = [M; B; 1; 1; D] /\
    forall m b d, m < M -> b < B -> d < D ->
      elt o [m; b; 0; 0; d] =
      Spec.routing N D (V m b) len (fun n => elt lt [m; bi B' b; n; 0; 0]) d.
Proof.
  induction len as [|len IH]; intros a lt B' prev Ha Hlen Hlt HB; [lia|].
  cbn [seq map for_each].
  destruct (route_step_spec self pt Hpt HN lt (Z.of_nat a) prev Hlt HB)
    as (lt' & o & E & So & Vo & Hl).
  rewrite E. cbn [bind].
  destruct len as [|len].
  - (* the final iteration *)
    cbn [seq map for_each]. exists lt', o.
    split; [reflexivity|]. split; [assumption|].
    intros m b d Hm Hb Hd. rewrite Vo by assumption. reflexivity.
  - (* an update, then the remaining iterations *)
    assert (Hi : (Z.of_nat a =? num_iterations self - 1)%Z = false)
      by (apply Z.eqb_neq; lia).
    rewrite Hi in Hl. destruct Hl as (Hs' & Vl).
    destruct (IH (S a) lt' B (Some o)) as (lt2 & o2 & E2 & So2 & Vo2);
      [lia | lia | assumption | right; reflexivity |].
    exists lt2, o2. split; [exact E2|]. split; [assumption|].
    intros m b d Hm Hb Hd. rewrite Vo2 by assumption.
    unfold Spec.routing.
    replace (S (S len) - 1) with (S (S len - 1)) by lia.
    rewrite logits_after_shift.
    apply capsule_output_ext; [reflexivity| |assumption].
    apply logits_after_ext; [reflexivity|].
    intros n Hn. rewrite bi_lt by assumption. apply Vl; assumption.
Qed.

End Loop.

Lemma range_nat (T : nat) : range (Z.of_nat T) = map Z.of_nat (seq 0 T).
Proof. unfold range. rewrite Nat2Z.id. reflexivity. Qed.

Lemma forward_routing_spec (self : CapsuleLayer) (x w lg : tensor fnum)
  (M B N Din Dout T : nat) :
  routing_layer self M N Din Dout w lg ->
  num_iterations self = Z.of_nat T -> 0 < T ->
  size x = [B; N; Din] -> 0 < N ->
  exists o, CapsuleLayer_forward self x = Ok o /\
    size o = [M; B; 1; 1; Dout] /\
    forall m b d, m < M -> b < B -> d < Dout ->
      elt o [m; b; 0; 0; d] =
      Spec.routing N Dout (Spec.vote Din x w m b) T
        (fun n => elt lg [m; 0; n; 0; 0]) d.
Proof.
  intros (Hn & Hw & Hlg & Sw & Slg) HT HT0 Hx HN.
  unfold CapsuleLayer_forward.
  assert (Hmode : (num_route_nodes self =? -1)%Z = false)
    by (apply Z.eqb_neq; lia).
  rewrite Hmode. cbn [negb].
  destruct (priors_spec x w Hx Sw) as (xe & we & p & Exe & Ewe & Ep & Sp & Vp).
  rewrite Exe, Hw. cbn [bind attr]. rewrite Ewe. cbn [bind].
  rewrite Ep, Hlg. cbn [bind attr].
  rewrite HT, range_nat.
  destruct (@route_loop_spec self p M B N Dout T Sp HN HT T 0 lg 1 None)
    as (lt' & o & E & So & Vo);
    [lia | assumption | assumption | left; reflexivity |].
  rewrite E. cbn [bind snd]. exists o.
  split; [reflexivity|]. split; [assumption|].
  intros m b d Hm Hb Hd. rewrite Vo by assumption.
  apply routing_ext; [|reflexivity|assumption].
  intros n k Hn' Hk. apply Vp; assumption.
Qed.

(* ================================================================== *)
(** * [squash] on vectors of reals *)
(* ================================================================== *)

Section RealVectors.

Local Open Scope R_scope.

Variable D : nat.
Variable s : nat -> fnum.
Variable g : nat -> R.
Hypothesis Hs : forall k, (k < D)%nat -> s k = Real (g k).

Let sq : R := rsum (fun k => g k * g k) D.

Lemma sqnorm_real : Spec.sqnorm D s = Real sq.
Proof.
  unfold Spec.sqnorm. apply fsum_real. intros k Hk.
  rewrite Hs by assumption. reflexivity.
Qed.

Lemma sq_nonneg : 0 <= sq.
Proof. apply rsum_nonneg. intros; nra. Qed.

Lemma sq_pos_of_nonzero : (exists d, (d < D)%nat /\ g d <> 0) -> 0 < sq.
Proof.
  intros (d & Hd & Hg). pose proof sq_nonneg as H0.
  destruct (Req_dec_T sq 0) as [E|E]; [|lra].
  exfalso. apply Hg. exact (@rsum_squares_zero g D E d Hd).
Qed.

Lemma sq_zero_of_zero : (forall d, (d < D)%nat -> g d = 0) -> sq = 0.
Proof.
  intros H. unfold sq.
  rewrite (rsum_ext (fun k => g k * g k) (fun _ => 0)).
  - rewrite rsum_const. ring.
  - intros k Hk. rewrite H by assumption. ring.
Qed.

(** A nonzero vector: every component of the squash is a number. *)
Lemma squash_vec_real (d : nat) :
  (d < D)%nat -> sq <> 0 ->
  Spec.squash_vec D s d = Real (sq / (1 + sq) * g d / sqrt sq).
Proof.
  intros Hd Hsq. pose proof sq_nonneg as H0.
  unfold Spec.squash_vec. rewrite sqnorm_real, (Hs Hd).
  change (fadd (Real 1) (Real sq)) with (Real (1 + sq)).
  rewrite fdiv_real by lra.
  change (fmul (Real (sq / (1 + sq))) (Real (g d)))
    with (Real (sq / (1 + sq) * g d)).
  rewrite fsqrt_real by assumption.
  apply fdiv_real. intros E. apply sqrt_eq_0 in E; lra.
Qed.

(** The zero vector: [0 / sqrt 0]. *)
Lemma squash_vec_zero (d : nat) :
  (d < D)%nat -> sq = 0 -> Spec.squash_vec D s d = NaN.
Proof.
  intros Hd Hsq.
  unfold Spec.squash_vec. rewrite sqnorm_real, (Hs Hd), Hsq.
  change (fadd (Real 1) (Real 0)) with (Real (1 + 0)).
  rewrite fdiv_real by lra.
  change (fmul (Real (0 / (1 + 0))) (Real (g d)))
    with (Real (0 / (1 + 0) * g d)).
  rewrite fsqrt_real by lra. rewrite sqrt_0. apply fdiv_zero.
Qed.

(** The only division by zero of [squash] is [0 / 0]. *)
Lemma squash_zero_divisor_zero_numerator (d : nat) :
  sqrt sq = 0 -> sq / (1 + sq) * g d = 0.
Proof.
  intros E. pose proof sq_nonneg as H0.
  apply sqrt_eq_0 in E; [|assumption]. rewrite E. unfold Rdiv. ring.
Qed.

End RealVectors.


Section ZeroVector.

(** On the zero vector [squash] does not return the zero vector. *)
Lemma squash_zeros_is_not_zeros :
  ~ (exists o, squash (zeros [2]) (-1) = Ok o /\
               forall d, d < 2 -> elt o [d] = Real 0).
Proof.
  intros (o & Eo & Ho).
  destruct (squash_1d (zeros [2]) (D:=2) eq_refl) as (o' & Eo' & _ & Vo').
  rewrite Eo in Eo'. injection Eo' as <-.
  specialize (Ho 0 ltac:(lia)). rewrite Vo' in Ho by lia.
  rewrite (@squash_vec_zero 2 (fun k => elt (zeros [2]) [k]) (fun _ => 0%R)) in Ho.
  - discriminate Ho.
  - reflexivity.
  - lia.
  - apply sq_zero_of_zero. reflexivity.
Qed.


End ZeroVector.

(* ================================================================== *)
(** * Routing on reals, and the claims on the routing layer *)
(* ================================================================== *)

Section RealRouting.

Local Open Scope R_scope.

Variables N D : nat.
Variable l : nat -> fnum.
Variable g : nat -> R.
Hypothesis Hl : forall k, (k < N)%nat -> l k = Real (g k).
Hypothesis HN : (0 < N)%nat.

Lemma softmax_vec_real (n : nat) :
  (n < N)%nat ->
  Spec.softmax_vec N l n = Real (exp (g n) / rsum (fun j => exp (g j)) N).
Proof.
  intros Hn. unfold Spec.softmax_vec.
  rewrite (@fsum_real (fun j => fexp (l j)) (fun j => exp (g j)) N)
    by (intros k Hk; rewrite Hl by assumption; reflexivity).
  rewrite (Hl Hn). change (fexp (Real (g n))) with (Real (exp (g n))).
  apply fdiv_real.
  assert (0 < rsum (fun j => exp (g j)) N)
    by (apply rsum_pos; [assumption | intros; apply exp_pos]).
  lra.
Qed.

Variable v : nat -> nat -> fnum.
Variable u : nat -> nat -> R.
Hypothesis Hv : forall n d, (n < N)%nat -> (d < D)%nat -> v n d = Real (u n d).

Lemma weighted_sum_real (d : nat) :
  (d < D)%nat ->
  Spec.weighted_sum N v l d =
  Real (rsum (fun n => exp (g n) / rsum (fun j => exp (g j)) N * u n d) N).
Proof.
  intros Hd. unfold Spec.weighted_sum, Spec.coupling.
  apply fsum_real. intros n Hn.
  rewrite softmax_vec_real, Hv by assumption. reflexivity.
Qed.

End RealRouting.

Section ScalarSquash.

Local Open Scope R_scope.

(** The squash of a one-component vector [r > 0]. *)
Lemma squash_vec_scalar (s : nat -> fnum) (r : R) :
  s 0%nat = Real r -> 0 < r ->
  Spec.squash_vec 1 s 0 = Real (r * r / (1 + r * r)).
Proof.
  intros Hs Hr.
  assert (Hs' : forall k, (k < 1)%nat -> s k = Real ((fun _ => r) k)).
  { intros k Hk. replace k with 0%nat by lia. exact Hs. }
  rewrite (@squash_vec_real 1 s (fun _ => r) Hs' 0%nat) by (cbn [rsum]; try lia; nra).
  cbn [rsum]. rewrite Rplus_0_l, sqrt_square by lra.
  f_equal. field. split; nra.
Qed.

Lemma squash_scalar_increasing (x y : R) :
  0 < x -> x < y -> x * x / (1 + x * x) < y * y / (1 + y * y).
Proof.
  intros Hx Hxy.
  assert (Hxx : x * x < y * y) by nra.
  apply (Rmult_lt_reg_r ((1 + x * x) * (1 + y * y))); [nra|].
  replace (x * x / (1 + x * x) * ((1 + x * x) * (1 + y * y)))
    with (x * x * (1 + y * y)) by (field; nra).
  replace (y * y / (1 + y * y) * ((1 + x * x) * (1 + y * y)))
    with (y * y * (1 + x * x)) by (field; nra).
  nra.
Qed.

End ScalarSquash.

Section Uniform.

(** Zero logits: every coupling coefficient is [1 / N]. *)
Lemma softmax_vec_zero (N : nat) (l : nat -> fnum) (n : nat) :
  (forall k, k < N -> l k = Real 0) -> 0 < N -> n < N ->
  Spec.softmax_vec N l n = Real (1 / INR N).
Proof.
  intros Hl HN Hn.
  rewrite (@softmax_vec_real N l (fun _ => 0%R) Hl HN n Hn).
  rewrite rsum_const, exp_0. f_equal. field.
  apply not_0_INR. lia.
Qed.

Lemma routing_once_zero (N D : nat) (v : nat -> nat -> fnum)
  (l : nat -> fnum) (d : nat) :
  (forall k, k < N -> l k = Real 0) -> 0 < N -> d < D ->
  Spec.routing N D v 1 l d = Spec.uniform_output N D v d.
Proof.
  intros Hl HN Hd. unfold Spec.routing, Spec.uniform_output.
  cbn [Nat.sub Spec.logits_after]. unfold Spec.capsule_output.
  apply squash_vec_ext; [|assumption].
  intros k Hk. unfold Spec.weighted_sum, Spec.coupling.
  apply fsum_ext. intros n Hn.
  rewrite softmax_vec_zero by assumption. reflexivity.
Qed.

End Uniform.

Section LayerStates.

Lemma CapsuleLayer_init_routing (M N Din Dout : nat) (ks st : option nat)
  (T : Z) (rnd : samples) :
  CapsuleLayer_init M (Z.of_nat N) Din Dout ks st T rnd =
  Ok (mkCapsuleLayer (Z.of_nat N) T M
        (Some (zeros [M; 1; N; 1; 1]))
        (Some (of_fun [M; N; Din; Dout] (rnd 0)))
        None).
Proof.
  unfold CapsuleLayer_init.
  assert (H1 : (Z.of_nat N =? -1)%Z = false) by (apply Z.eqb_neq; lia).
  assert (H2 : (Z.of_nat N <? 0)%Z = false) by (apply Z.ltb_ge; lia).
  rewrite H1, H2, Nat2Z.id. reflexivity.
Qed.

Lemma set_route_logits_layer (self : CapsuleLayer) (M N Din Dout : nat)
  (w lg lg' : tensor fnum) :
  routing_layer self M N Din Dout w lg -> size lg' = [M; 1; N; 1; 1] ->
  routing_layer (set_route_logits self lg') M N Din Dout w lg'.
Proof.
  intros (H1 & H2 & H3 & H4 & H5) Hs. repeat split; assumption.
Qed.

Lemma small_layer_ok (T : Z) :
  routing_layer (small_layer T) 1 2 1 1
    (of_fun [1; 2; 1; 1] (fun _ => 1%R)) (zeros [1; 1; 2; 1; 1]).
Proof. repeat split. Qed.

Lemma updated_layer_ok (T : Z) :
  routing_layer (updated_layer T) 1 2 1 1
    (of_fun [1; 2; 1; 1] (fun _ => 1%R)) tilted_logits.
Proof. repeat split. Qed.

End LayerStates.

Section SmallLayer.

Local Open Scope R_scope.

Let w1 : tensor fnum := of_fun [1%nat; 2%nat; 1%nat; 1%nat] (fun _ => 1).
Let votes1 : nat -> nat -> fnum := Spec.vote 1 small_input w1 0 0.

Lemma votes1_real (n d : nat) :
  (n < 2)%nat -> (d < 1)%nat ->
  votes1 n d = Real (match n with O => 0 + 1 * 1 | _ => 0 + 0 * 1 end).
Proof.
  intros Hn Hd. destruct n as [|[|n]]; [reflexivity|reflexivity|lia].
Qed.

Lemma tilted_real (n : nat) :
  (n < 2)%nat ->
  elt tilted_logits [0; 0; n; 0; 0]%nat = Real (match n with O => 1 | _ => 0 end).
Proof. intros Hn. destruct n as [|[|n]]; [reflexivity|reflexivity|lia]. Qed.

(** With the tilted logits the one output component is above [1/5]. *)
Lemma tilted_routing_value :
  exists r, 1 / 5 < r /\
    Spec.routing 2 1 votes1 1
      (fun n => elt tilted_logits [0; 0; n; 0; 0]%nat) 0 = Real r.
Proof.
  unfold Spec.routing. cbn [Nat.sub Spec.logits_after].
  unfold Spec.capsule_output.
  pose proof (@weighted_sum_real 2 1 _ _ tilted_real ltac:(lia) votes1 _
                votes1_real 0%nat ltac:(lia)) as Hw.
  cbn [rsum] in Hw. rewrite exp_0 in Hw.
  pose proof (exp_ineq1 1 ltac:(lra)) as He.
  set (e := exp 1) in *.
  set (s := 0 + e / (0 + e + 1) * (0 + 1 * 1) + 1 / (0 + e + 1) * (0 + 0 * 1)) in *.
  assert (Hs : s = e / (e + 1)) by (unfold s; field; lra).
  assert (Hhalf : 1 / 2 < s).
  { rewrite Hs. apply (Rmult_lt_reg_r (e + 1)); [lra|].
    unfold Rdiv at 2. rewrite Rmult_assoc, Rinv_l by lra. lra. }
  exists (s * s / (1 + s * s)). split.
  - replace (1 / 5) with ((1 / 2) * (1 / 2) / (1 + (1 / 2) * (1 / 2))) by field.
    apply squash_scalar_increasing; lra.
  - apply squash_vec_scalar; [exact Hw | lra].
Qed.

(** With uniform coupling it is [1/5]. *)
Lemma uniform_value : Spec.uniform_output 2 1 votes1 0 = Real (1 / 5).
Proof.
  unfold Spec.uniform_output.
  rewrite (@squash_vec_scalar _ (1 / 2)).
  - f_equal. field.
  - rewrite (@fsum_real _ (fun n => 1 / INR 2 * match n with O => 0 + 1 * 1 | _ => 0 + 0 * 1 end) 2).
    + cbn [rsum INR]. f_equal. field.
    + intros k Hk. rewrite votes1_real by lia. reflexivity.
  - lra.
Qed.

End SmallLayer.

Section RoutingClaims.

(** Claim C5.  The routing branch of [CapsuleLayer.forward], run for
    [T >= 1] iterations, returns for every output capsule [m] and batch
    element [b] the specification's routing: each iteration takes the
    softmax of the current logits over the route nodes, squashes the
    coupling-weighted sum of the votes, and, except in the last iteration,
    adds to each logit the dot product of its vote with that output; the
    output of the last iteration is returned. *)
Theorem routing_by_agreement (self : CapsuleLayer) (x w lg : tensor fnum)
  (M B N Din Dout T : nat) :
  routing_layer self M N Din Dout w lg ->
  num_iterations self = Z.of_nat T -> 0 < T ->
  size x = [B; N; Din] -> 0 < N ->
  exists o, CapsuleLayer_forward self x = Ok o /\
    size o = [M; B; 1; 1; Dout] /\
    forall m b d, m < M -> b < B -> d < Dout ->
      elt o [m; b; 0; 0; d] =
      Spec.routing N Dout (Spec.vote Din x w m b) T
        (fun n => elt lg [m; 0; n; 0; 0]) d.
Proof. exact (@forward_routing_spec self x w lg M B N Din Dout T). Qed.

Lemma routing_by_agreement_witness :
  exists o, CapsuleLayer_forward (updated_layer 3) small_input = Ok o /\
    size o = [1; 1; 1; 1; 1] /\
    forall m b d, m < 1 -> b < 1 -> d < 1 ->
      elt o [m; b; 0; 0; d] =
      Spec.routing 2 1
        (Spec.vote 1 small_input (of_fun [1; 2; 1; 1] (fun _ => 1%R)) m b) 3
        (fun n => elt tilted_logits [m; 0; n; 0; 0]) d.
Proof.
  apply (@routing_by_agreement (updated_layer 3) small_input
           (of_fun [1; 2; 1; 1] (fun _ => 1%R)) tilted_logits 1 1 2 1 1 3).
  - repeat split.
  - reflexivity.
  - lia.
  - reflexivity.
  - lia.
Defined.

(** Claim C8, amended.  With one iteration, in a layer whose parameter
    [route_logits] is all zero (as [__init__] leaves it), the routing branch
    returns the squash of the sum of the votes weighted by the uniform
    coupling [1 / N]. *)
Theorem routing_once_is_uniform (self : CapsuleLayer) (x w lg : tensor fnum)
  (M B N Din Dout : nat) :
  routing_layer self M N Din Dout w lg ->
  (forall m n, m < M -> n < N -> elt lg [m; 0; n; 0; 0] = Real 0) ->
  num_iterations self = 1%Z ->
  size x = [B; N; Din] -> 0 < N ->
  exists o, CapsuleLayer_forward self x = Ok o /\
    size o = [M; B; 1; 1; Dout] /\
    forall m b d, m < M -> b < B -> d < Dout ->
      elt o [m; b; 0; 0; d] =
      Spec.uniform_output N Dout (Spec.vote Din x w m b) d.
Proof.
  intros Hwf Hz HT Hx HN.
  destruct (@forward_routing_spec self x w lg M B N Din Dout 1)
    as (o & Eo & So & Vo); try assumption; try lia.
  exists o. split; [assumption|]. split; [assumption|].
  intros m b d Hm Hb Hd. rewrite Vo by assumption.
  apply routing_once_zero; auto.
Qed.

Lemma routing_once_is_uniform_witness :
  exists o, CapsuleLayer_forward (small_layer 1) small_input = Ok o /\
    size o = [1; 1; 1; 1; 1] /\
    forall m b d, m < 1 -> b < 1 -> d < 1 ->
      elt o [m; b; 0; 0; d] =
      Spec.uniform_output 2 1
        (Spec.vote 1 small_input (of_fun [1; 2; 1; 1] (fun _ => 1%R)) m b) d.
Proof.
  apply (@routing_once_is_uniform (small_layer 1) small_input
           (of_fun [1; 2; 1; 1] (fun _ => 1%R)) (zeros [1; 1; 2; 1; 1])
           1 1 2 1 1).
  - repeat split.
  - intros m n Hm Hn. reflexivity.
  - reflexivity.
  - reflexivity.
  - lia.
Defined.

(** What one iteration of the updated layer returns. *)
Lemma updated_layer_once :
  exists o r, CapsuleLayer_forward (updated_layer 1) small_input = Ok o /\
    elt o [0; 0; 0; 0; 0] = Real r /\ (1 / 5 < r)%R.
Proof.
  destruct (@forward_routing_spec (updated_layer 1) small_input _ _
              1 1 2 1 1 1 (updated_layer_ok 1))
    as (o & Eo & So & Vo); try reflexivity; try lia.
  destruct tilted_routing_value as (r & Hr & Er).
  exists o, r. split; [assumption|]. split; [|assumption].
  rewrite Vo by lia. exact Er.
Qed.

Lemma updated_layer_once_not_uniform :
  exists o, CapsuleLayer_forward (updated_layer 1) small_input = Ok o /\
    elt o [0; 0; 0; 0; 0] <>
    Spec.uniform_output 2 1
      (Spec.vote 1 small_input (of_fun [1; 2; 1; 1] (fun _ => 1%R)) 0 0) 0.
Proof.
  destruct updated_layer_once as (o & r & Eo & Er & Hr).
  exists o. split; [assumption|].
  rewrite Er, uniform_value. intros E. injection E as E. lra.
Qed.

(** Claim C1, amended.  [__init__] creates [route_logits] as zeros and
    registers it as a parameter (it is the first of [parameters()]); a
    forward call on the fresh layer routes from zero logits, and after the
    parameter has been given any other value [lg], every forward call
    routes from [lg]: the first iteration reads the parameter, whatever it
    holds. *)
Theorem route_logits_is_a_parameter (M N Din Dout B T : nat)
  (ks st : option nat) (rnd : samples) (x : tensor fnum) :
  0 < N -> 0 < T -> size x = [B; N; Din] ->
  exists L w,
    CapsuleLayer_init M (Z.of_nat N) Din Dout ks st (Z.of_nat T) rnd = Ok L /\
    CapsuleLayer_parameters L = [zeros [M; 1; N; 1; 1]; w] /\
    (exists o, CapsuleLayer_forward L x = Ok o /\
       forall m b d, m < M -> b < B -> d < Dout ->
         elt o [m; b; 0; 0; d] =
         Spec.routing N Dout (Spec.vote Din x w m b) T (fun _ => Real 0) d) /\
    (forall lg, size lg = [M; 1; N; 1; 1] ->
       CapsuleLayer_parameters (set_route_logits L lg) = [lg; w] /\
       exists o, CapsuleLayer_forward (set_route_logits L lg) x = Ok o /\
         forall m b d, m < M -> b < B -> d < Dout ->
           elt o [m; b; 0; 0; d] =
           Spec.routing N Dout (Spec.vote Din x w m b) T
             (fun n => elt lg [m; 0; n; 0; 0]) d).
Proof.
  intros HN HT Hx. rewrite CapsuleLayer_init_routing.
  eexists; exists (of_fun [M; N; Din; Dout] (rnd 0)).
  split; [reflexivity|]. split; [reflexivity|].
  match goal with
  | |- context [CapsuleLayer_forward ?L x] =>
      assert (Hwf : routing_layer L M N Din Dout
                      (of_fun [M; N; Din; Dout] (rnd 0)) (zeros [M; 1; N; 1; 1]))
        by (repeat split)
  end.
  split.
  - destruct (@forward_routing_spec _ x _ _ M B N Din Dout T Hwf)
      as (o & Eo & So & Vo); try assumption; try reflexivity.
    exists o. split; assumption.
  - intros lg Hlg. split; [reflexivity|].
    destruct (@forward_routing_spec _ x _ _ M B N Din Dout T
                (@set_route_logits_layer _ _ _ _ _ _ _ lg Hwf Hlg))
      as (o & Eo & So & Vo); try assumption; try reflexivity.
    exists o. split; assumption.
Qed.

Lemma route_logits_is_a_parameter_witness :
  exists L w,
    CapsuleLayer_init 1 (Z.of_nat 2) 1 1 None None (Z.of_nat 3) (fun _ _ => 1%R)
      = Ok L /\
    CapsuleLayer_parameters L = [zeros [1; 1; 2; 1; 1]; w] /\
    (exists o, CapsuleLayer_forward L small_input = Ok o /\
       forall m b d, m < 1 -> b < 1 -> d < 1 ->
         elt o [m; b; 0; 0; d] =
         Spec.routing 2 1 (Spec.vote 1 small_input w m b) 3 (fun _ => Real 0) d) /\
    (forall lg, size lg = [1; 1; 2; 1; 1] ->
       CapsuleLayer_parameters (set_route_logits L lg) = [lg; w] /\
       exists o, CapsuleLayer_forward (set_route_logits L lg) small_input = Ok o /\
         forall m b d, m < 1 -> b < 1 -> d < 1 ->
           elt o [m; b; 0; 0; d] =
           Spec.routing 2 1 (Spec.vote 1 small_input w m b) 3
             (fun n => elt lg [m; 0; n; 0; 0]) d).
Proof.
  apply (@route_logits_is_a_parameter 1 2 1 1 1 3 None None
           (fun _ _ => 1%R) small_input).
  - lia.
  - lia.
  - reflexivity.
Defined.

Lemma updated_layer_does_not_start_from_zero :
  exists o, CapsuleLayer_forward (updated_layer 1) small_input = Ok o /\
    elt o [0; 0; 0; 0; 0] <>
    Spec.routing 2 1
      (Spec.vote 1 small_input (of_fun [1; 2; 1; 1] (fun _ => 1%R)) 0 0) 1
      (fun _ => Real 0) 0.
Proof.
  destruct updated_layer_once as (o & r & Eo & Er & Hr).
  exists o. split; [assumption|].
  rewrite routing_once_zero by (try reflexivity; lia).
  rewrite Er, uniform_value. intros E. injection E as E. lra.
Qed.

(** Claim C10.  In routing mode with [num_iterations <= 0] the forward
    call raises, whatever the input; on a well-formed layer and input the
    exception is the [UnboundLocalError] of [return outputs], the loop body
    never having assigned [outputs]. *)
Theorem forward_without_iterations (self : CapsuleLayer) (x : tensor fnum) :
  num_route_nodes self <> (-1)%Z -> (num_iterations self <= 0)%Z ->
  raises (CapsuleLayer_forward self x) /\
  (forall M N Din Dout B w lg,
     routing_layer self M N Din Dout w lg -> size x = [B; N; Din] ->
     CapsuleLayer_forward self x = Err UnboundLocalError).
Proof.
  intros Hmode HT.
  assert (Hm : (num_route_nodes self =? -1)%Z = false)
    by (apply Z.eqb_neq; assumption).
  assert (Hr : range (num_iterations self) = []).
  { unfold range. replace (Z.to_nat (num_iterations self)) with 0 by lia.
    reflexivity. }
  split.
  - unfold raises, CapsuleLayer_forward. rewrite Hm, Hr. cbn [negb for_each].
    destruct (index _ x) as [xe|e]; cbn [bind]; [|eexists; reflexivity].
    destruct (attr (route_weights self)) as [w|e]; cbn [bind];
      [|eexists; reflexivity].
    destruct (index _ w) as [we|e]; cbn [bind]; [|eexists; reflexivity].
    destruct (matmul xe we) as [p|e]; cbn [bind]; [|eexists; reflexivity].
    destruct (attr (route_logits self)) as [lg|e]; cbn [bind snd];
      eexists; reflexivity.
  - intros M N Din Dout B w lg (Hn & Hw & Hlg & Sw & Slg) Hx.
    unfold CapsuleLayer_forward. rewrite Hm, Hr. cbn [negb for_each].
    destruct (priors_spec x w Hx Sw)
      as (xe & we & p & Exe & Ewe & Ep & Sp & Vp).
    rewrite Exe, Hw. cbn [bind attr]. rewrite Ewe. cbn [bind].
    rewrite Ep, Hlg. reflexivity.
Qed.

Lemma forward_without_iterations_witness :
  raises (CapsuleLayer_forward (small_layer 0) small_input) /\
  (forall M N Din Dout B w lg,
     routing_layer (small_layer 0) M N Din Dout w lg ->
     size small_input = [B; N; Din] ->
     CapsuleLayer_forward (small_layer 0) small_input = Err UnboundLocalError).
Proof.
  apply (@forward_without_iterations (small_layer 0) small_input).
  - cbn. discriminate.
  - cbn. lia.
Defined.

(** The routing branch returns exactly when there is an iteration to run. *)
Lemma forward_total_iff (self : CapsuleLayer) (x w lg : tensor fnum)
  (M B N Din Dout : nat) :
  routing_layer self M N Din Dout w lg -> size x = [B; N; Din] -> 0 < N ->
  (exists o, CapsuleLayer_forward self x = Ok o) <->
  (1 <= num_iterations self)%Z.
Proof.
  intros Hwf Hx HN. split.
  - intros (o & Eo).
    destruct (Z_lt_le_dec 0 (num_iterations self)) as [H|H]; [lia|].
    exfalso.
    destruct Hwf as (Hn & Hw & Hlg & Sw & Slg).
    assert (Hm : (num_route_nodes self =? -1)%Z = false)
      by (apply Z.eqb_neq; lia).
    assert (Hr : range (num_iterations self) = []).
    { unfold range. replace (Z.to_nat (num_iterations self)) with 0 by lia.
      reflexivity. }
    unfold CapsuleLayer_forward in Eo. rewrite Hm, Hr in Eo.
    cbn [negb for_each] in Eo.
    destruct (priors_spec x w Hx Sw)
      as (xe & we & p & Exe & Ewe & Ep & Sp & Vp).
    rewrite Exe, Hw in Eo. cbn [bind attr] in Eo.
    rewrite Ewe in Eo. cbn [bind] in Eo.
    rewrite Ep, Hlg in Eo. discriminate Eo.
  - intros HT.
    destruct (@forward_routing_spec self x w lg M B N Din Dout
                (Z.to_nat (num_iterations self)) Hwf)
      as (o & Eo & _); try assumption; try lia.
    exists o. assumption.
Qed.

End RoutingClaims.

(* ================================================================== *)
(** * The loss *)
(* ================================================================== *)

Section LossFacts.

Lemma unravel_1d (n k : nat) : unravel [n] k = [k].
Proof. cbn [unravel prod]. rewrite Nat.div_1_r. reflexivity. Qed.

Variables (labels classes : tensor fnum) (B C : nat).
Variables lab act : nat -> nat -> R.
Hypothesis Slab : size labels = [B; C].
Hypothesis Scls : size classes = [B; C].
Hypothesis Vlab : forall b c, b < B -> c < C -> elt labels [b; c] = Real (lab b c).
Hypothesis Vcls : forall b c, b < B -> c < C -> elt classes [b; c] = Real (act b c).

Lemma margin_loss_real :
  0 < B ->
  margin_loss labels classes =
  Ok (Real (rsum (fun b => rsum (fun c => Spec.margin_term (lab b c) (act b c)) C) B
            / INR B)).
Proof.
  intros HB. unfold margin_loss. trun.
  unfold mean, sum_all, numel. cbn [size elt remove_at firstn skipn app prod].
  rewrite Nat.mul_1_r. f_equal.
  rewrite (@fsum_real _ (fun b => rsum (fun c => Spec.margin_term (lab b c) (act b c)) C) B).
  - apply fdiv_real. apply not_0_INR. lia.
  - intros b Hb. rewrite unravel_1d. cbn [insert_at firstn skipn app].
    apply fsum_real. intros c Hc. erun.
    rewrite Vlab, Vcls by assumption.
    unfold Spec.margin_term. cbv [fadd fsub fmul fsquare fclamp_min lift1 lift2].
    f_equal. ring.
Qed.

End LossFacts.

Section LossClaims.

Local Open Scope R_scope.

(** Claim C6.  On numbers, for a non-empty batch and reconstructions with
    as many elements as the images, [CapsuleLoss.forward] returns
    [margin + 0.0005 * reconstruction], where [margin] sums over the classes
    [label * max(0, 0.9 - a)^2 + 0.5 * (1 - label) * max(0, a - 0.1)^2] and
    averages over the batch, and [reconstruction] is the mean of the squared
    differences between reconstruction and image. *)
Theorem capsule_loss_formula
  (images labels classes reconstructions : tensor fnum) (B C : nat)
  (lab act : nat -> nat -> R) (img rec : nat -> R) :
  size labels = [B; C] -> size classes = [B; C] ->
  (forall b c, (b < B)%nat -> (c < C)%nat -> elt labels [b; c] = Real (lab b c)) ->
  (forall b c, (b < B)%nat -> (c < C)%nat -> elt classes [b; c] = Real (act b c)) ->
  numel reconstructions = numel images ->
  (forall k, (k < numel images)%nat ->
     elt reconstructions (unravel (size reconstructions) k) = Real (rec k)) ->
  (forall k, (k < numel images)%nat ->
     elt images (unravel (size images) k) = Real (img k)) ->
  (0 < B)%nat -> (0 < numel images)%nat ->
  let margin :=
    rsum (fun b => rsum (fun c =>
      lab b c * (Rmax 0 (0.9 - act b c)) ^ 2
      + 0.5 * (1 - lab b c) * (Rmax 0 (act b c - 0.1)) ^ 2) C) B / INR B in
  let reconstruction :=
    rsum (fun k => (rec k - img k) ^ 2) (numel images) / INR (numel images) in
  CapsuleLoss_forward images labels classes reconstructions =
  Ok (Real (margin + 0.0005 * reconstruction)).
Proof.
  intros Slab Scls Vlab Vcls Hn Vrec Vimg HB Hpos margin reconstruction.
  subst margin reconstruction.
  unfold CapsuleLoss_forward.
  rewrite (margin_loss_real labels classes lab act Slab Scls Vlab Vcls HB).
  fold (Spec.margin_term) in *.
  cbn [bind]. unfold MSELoss. rewrite Hn, Nat.eqb_refl. cbn [bind].
  rewrite (@fsum_real _ (fun k => (rec k - img k) ^ 2) (numel images)).
  - rewrite fdiv_real by (apply not_0_INR; lia). reflexivity.
  - intros k Hk. rewrite Vrec, Vimg by assumption.
    cbv [fsquare fsub fmul lift2]. f_equal. ring.
Qed.

Lemma capsule_loss_formula_witness :
  let lab := fun (_ c : nat) => match c with O => 1 | _ => 0 end in
  let act := fun (_ c : nat) => match c with O => 0.95 | _ => 0.05 end in
  let margin :=
    rsum (fun b => rsum (fun c =>
      lab b c * (Rmax 0 (0.9 - act b c)) ^ 2
      + 0.5 * (1 - lab b c) * (Rmax 0 (act b c - 0.1)) ^ 2) 2) 1 / INR 1 in
  let reconstruction :=
    rsum (fun k => (act 0%nat k - lab 0%nat k) ^ 2) 2 / INR 2 in
  CapsuleLoss_forward label_first label_first inside_margins inside_margins =
  Ok (Real (margin + 0.0005 * reconstruction)).
Proof.
  intros lab act.
  apply (@capsule_loss_formula label_first label_first inside_margins
           inside_margins 1 2 lab act (lab 0%nat) (act 0%nat)).
  - reflexivity.
  - reflexivity.
  - intros b c Hb Hc. destruct c as [|[|c]]; [reflexivity|reflexivity|lia].
  - intros b c Hb Hc. destruct c as [|[|c]]; [reflexivity|reflexivity|lia].
  - reflexivity.
  - intros k Hk. change (numel label_first) with 2%nat in Hk.
    destruct k as [|[|k]]; [reflexivity|reflexivity|lia].
  - intros k Hk. change (numel label_first) with 2%nat in Hk.
    destruct k as [|[|k]]; [reflexivity|reflexivity|lia].
  - lia.
  - change (numel label_first) with 2%nat. lia.
Defined.

End LossClaims.

Section MarginClaims.

Local Open Scope R_scope.

Lemma margin_term_true (a : R) :
  Spec.margin_term 1 a = (Rmax 0 (0.9 - a)) ^ 2.
Proof. unfold Spec.margin_term. ring. Qed.














End MarginClaims.

(* ================================================================== *)
(** * The network *)
(* ================================================================== *)

Section NetFacts.

Lemma Conv2d_forward_size (c : Conv2d) (x : tensor fnum)
  (nb ci h w co k s : nat) :
  conv_sizes c co ci k s -> size x = [nb; ci; h; w] ->
  k <= h -> k <= w -> 0 < s ->
  exists y, Conv2d_forward c x = Ok y /\
            size y = [nb; co; (h - k) / s + 1; (w - k) / s + 1].
Proof.
  intros (Hw & Hb & Hs) Hx Hh Hwd H0. unfold Conv2d_forward.
  rewrite Hx, Hw, Hb, Hs, !Nat.eqb_refl.
  destruct (Nat.leb_spec k h); [|lia]. destruct (Nat.leb_spec k w); [|lia].
  destruct (Nat.ltb_spec 0 s); [|lia]. cbn [andb].
  eexists; split; reflexivity.
Qed.

Lemma Linear_forward_size (l : Linear) (x : tensor fnum) (nb n_in n_out : nat) :
  linear_sizes l n_in n_out -> size x = [nb; n_in] ->
  exists y, Linear_forward l x = Ok y /\ size y = [nb; n_out].
Proof.
  intros (Hw & Hb) Hx. unfold Linear_forward.
  rewrite Hx, Hw, Hb. cbn [rev app]. rewrite !Nat.eqb_refl. cbn [andb].
  eexists; split; reflexivity.
Qed.

Lemma infer_size_batch (nb k n : nat) :
  0 < nb -> n = nb * k ->
  infer_size [Z.of_nat nb; (-1)%Z; 1%Z] n = Ok [nb; k; 1].
Proof.
  intros Hb ->. unfold infer_size.
  assert (H1 : (Z.of_nat nb <? -1)%Z = false) by (apply Z.ltb_ge; lia).
  assert (H2 : (Z.of_nat nb =? -1)%Z = false) by (apply Z.eqb_neq; lia).
  cbn [existsb filter map]. rewrite H1, H2.
  change (-1 <? -1)%Z with false. change (-1 =? -1)%Z with true.
  change (1 <? -1)%Z with false. change (1 =? -1)%Z with false.
  cbn [orb negb filter map prod].
  rewrite Nat2Z.id. change (Z.to_nat 1) with 1. rewrite !Nat.mul_1_r.
  destruct (Nat.eqb_spec nb 0); [lia|].
  rewrite Nat.mul_comm, Nat.Div0.mod_mul, Nat.div_mul by lia.
  reflexivity.
Qed.

Lemma map_result_Forall A B (f : A -> result B) (P : A -> Prop)
  (Q : B -> Prop) (l : list A) :
  (forall a, P a -> exists b, f a = Ok b /\ Q b) -> Forall P l ->
  exists bs, map_result f l = Ok bs /\ Forall Q bs /\ length bs = length l.
Proof.
  intros Hf. induction 1 as [|a l Ha Hl IH]; cbn [map_result].
  - exists []. repeat split. constructor.
  - destruct (Hf a Ha) as (b & Eb & Qb). destruct IH as (bs & Ebs & Qbs & Len).
    rewrite Eb. cbn [bind]. rewrite Ebs. cbn [bind].
    exists (b :: bs). split; [reflexivity|]. split; [constructor; assumption|].
    cbn [length]. lia.
Qed.

Lemma same_but_refl (d : nat) (s : list nat) : same_but d s s = true.
Proof.
  unfold same_but. rewrite Nat.eqb_refl. cbn [andb].
  apply forallb_forall. intros i _. rewrite Nat.eqb_refl. apply orb_true_r.
Qed.

Lemma cat_last_size (ts : list (tensor fnum)) (a b : nat) :
  ts <> [] -> Forall (fun t => size t = [a; b; 1]) ts ->
  exists y, cat ts (-1) = Ok y /\ size y = [a; b; length ts].
Proof.
  intros Hne Hall. destruct ts as [|t0 ts]; [contradiction|].
  assert (H0 : size t0 = [a; b; 1]) by (inversion Hall; assumption).
  unfold cat, dim. rewrite H0. cbn [length]. ndim. cbn [bind].
  assert (Hsame : forallb (fun t => same_but 2 [a; b; 1] (size t)) (t0 :: ts) = true).
  { apply forallb_forall. intros t Ht.
    rewrite Forall_forall in Hall. rewrite (Hall t Ht). apply same_but_refl. }
  rewrite Hsame.
  assert (Hsum : fold_right (fun t acc => nth 2 (size t) 0 + acc) 0 (t0 :: ts)
                 = length (t0 :: ts)).
  { clear Hsame Hne H0. induction Hall as [|t l Ht Hl IH]; [reflexivity|].
    cbn [fold_right length]. rewrite IH, Ht. reflexivity. }
  rewrite Hsum. eexists; split; reflexivity.
Qed.

End NetFacts.

Section NetForward.

Lemma primary_forward_size (self : CapsuleLayer) (cs : list Conv2d)
  (x : tensor fnum) (nb : nat) :
  num_route_nodes self = (-1)%Z -> capsules self = Some cs ->
  cs <> [] -> Forall (fun c => conv_sizes c 32 256 9 2) cs ->
  size x = [nb; 256; 20; 20] -> 0 < nb ->
  exists y, CapsuleLayer_forward self x = Ok y /\
            size y = [nb; 1152; length cs].
Proof.
  intros Hmode Hcs Hne Hall Hx Hb. unfold CapsuleLayer_forward.
  rewrite Hmode, Hcs. cbn [negb Z.eqb Pos.eqb bind attr]. rewrite Hx.
  destruct (@map_result_Forall _ _
              (fun capsule => y <- Conv2d_forward capsule x ;;
                              view [Z.of_nat nb; (-1)%Z; 1%Z] y)
              (fun c => conv_sizes c 32 256 9 2)
              (fun y => size y = [nb; 1152; 1]) cs)
    as (ys & Eys & Hys & Len); [|assumption|].
  { intros c Hc.
    destruct (@Conv2d_forward_size c x nb 256 20 20 32 9 2 Hc Hx)
      as (y & Ey & Sy); [lia|lia|lia|].
    rewrite Ey. cbn [bind]. unfold view, numel. rewrite Sy.
    rewrite (@infer_size_batch nb 1152) by (try assumption; reflexivity).
    cbn [bind]. eexists; split; reflexivity. }
  rewrite Eys. cbn [bind].
  destruct (@cat_last_size ys nb 1152) as (y & Ey & Sy); [|assumption|].
  { intros ->. destruct cs; [contradiction | discriminate]. }
  rewrite Ey. cbn [bind].
  destruct (squash_3d y Sy) as (o & Eo & So & _).
  exists o. rewrite <- Len. split; assumption.
Qed.

Lemma squeeze_routed A (t : tensor A) (nb : nat) :
  size t = [10; nb; 1; 1; 16] ->
  size (squeeze t) = if nb =? 1 then [10; 16] else [10; nb; 16].
Proof.
  intros H. unfold squeeze. cbn [size]. rewrite H. cbn [filter Nat.eqb negb].
  destruct (nb =? 1); reflexivity.
Qed.

(** Lines 89-91. *)
Lemma digit_vectors_size (self : CapsuleNet) (x : tensor fnum) (nb : nat) :
  capsule_net self -> size x = [nb; 1; 28; 28] -> 0 < nb ->
  exists v, digit_vectors self x = Ok v /\
            size v = if nb =? 1 then [16; 10] else [nb; 10; 16].
Proof.
  intros (Hc1 & Hmode & (cs & Hcs & Len & Hall) & (w & lg & Hd) & HT & _)
         Hx Hb.
  unfold digit_vectors.
  destruct (@Conv2d_forward_size (conv1 self) x nb 1 28 28 256 9 1 Hc1 Hx)
    as (c & Ec & Sc); [lia|lia|lia|].
  rewrite Ec. cbn [bind].
  assert (Sr : size (F_relu c) = [nb; 256; 20; 20]) by exact Sc.
  destruct (@primary_forward_size (primary_capsules self) cs (F_relu c) nb)
    as (p & Ep & Sp); try assumption.
  { intros ->. discriminate Len. }
  rewrite Ep. cbn [bind]. rewrite Len in Sp.
  destruct (@forward_routing_spec (digit_capsules self) p w lg
              10 nb 1152 8 16 3 Hd HT) as (d & Ed & Sd & _);
    [lia | assumption | lia |].
  rewrite Ed. cbn [bind].
  pose proof (squeeze_routed d Sd) as Sq.
  unfold transpose, dim. rewrite Sq.
  destruct (nb =? 1); cbn [length]; ndim; cbn [bind];
    eexists; split; reflexivity.
Qed.

End NetForward.

Section Argmax.

Lemma argmax_lt (f : nat -> fnum) (n : nat) : 0 < n -> argmax f n < n.
Proof.
  induction n as [|n IH]; intros Hn; [lia|].
  cbn [argmax]. destruct n as [|n]; [lia|].
  destruct (fgtb (f (S n)) (f (argmax f (S n)))); [lia|].
  specialize (IH ltac:(lia)). lia.
Qed.

Lemma fgtb_false_le (a b : R) : fgtb (Real a) (Real b) = false -> (a <= b)%R.
Proof.
  unfold fgtb. destruct (Rlt_dec b a); [discriminate|]. intros _. lra.
Qed.

Lemma fgtb_true_lt (a b : R) : fgtb (Real a) (Real b) = true -> (b < a)%R.
Proof.
  unfold fgtb. destruct (Rlt_dec b a); [intros _; assumption|discriminate].
Qed.

(** On numbers the chosen index holds a largest value. *)
Lemma argmax_max (f : nat -> fnum) (n : nat) :
  (forall k, k < n -> is_real (f k)) ->
  forall j, j < n -> (rv (f j) <= rv (f (argmax f n)))%R.
Proof.
  induction n as [|n IH]; intros Hf j Hj; [lia|].
  cbn [argmax]. destruct n as [|n].
  - replace j with 0 by lia. lra.
  - assert (Hlt : argmax f (S n) < S n) by (apply argmax_lt; lia).
    pose proof (Hf (S n) ltac:(lia)) as Hn.
    pose proof (Hf (argmax f (S n)) ltac:(lia)) as Ha.
    assert (IH' : forall j, j < S n -> (rv (f j) <= rv (f (argmax f (S n))))%R)
      by (intros; apply IH; [intros; apply Hf; lia | assumption]).
    destruct (f (S n)) as [a|] eqn:Ea; [|contradiction].
    destruct (f (argmax f (S n))) as [b|] eqn:Eb; [|contradiction].
    destruct (fgtb (Real a) (Real b)) eqn:E.
    + apply fgtb_true_lt in E. rewrite Ea.
      destruct (Nat.eq_dec j (S n)) as [->|Hne].
      * rewrite Ea. cbn [rv]. lra.
      * specialize (IH' j ltac:(lia)). cbn [rv] in *. lra.
    + apply fgtb_false_le in E. rewrite Eb.
      destruct (Nat.eq_dec j (S n)) as [->|Hne].
      * rewrite Ea. cbn [rv]. lra.
      * specialize (IH' j ltac:(lia)). cbn [rv] in *. lra.
Qed.

End Argmax.

Section Stages.

(** Lines 93-94 on [[nb; K; D]]: one softmax over the [K] norms per batch
    element. *)
Lemma class_activations_spec (x : tensor fnum) (nb K D : nat) :
  size x = [nb; K; D] ->
  exists cl, class_activations x = Ok cl /\ size cl = [nb; K] /\
    forall b c, b < nb -> c < K ->
      elt cl [b; c] =
      Spec.softmax_vec K
        (fun j => fsqrt (Spec.sqnorm D (fun k => elt x [b; j; k]))) c.
Proof.
  intros Hx. unfold class_activations. trun.
  cbn [remove_at firstn skipn app].
  unfold F_softmax, dim. cbn [size length softmax_axis Nat.ltb Nat.leb].
  eexists; split; [reflexivity|]. split; [reflexivity|].
  intros b c Hb Hc. cbn [elt size nth upd insert_at firstn skipn app].
  reflexivity.
Qed.

(** The same lines on two axes: the softmax runs over the first one. *)
Lemma class_activations_2d (x : tensor fnum) (a b : nat) :
  size x = [a; b] ->
  exists cl, class_activations x = Ok cl /\ size cl = [a].
Proof.
  intros Hx. unfold class_activations. trun.
  cbn [remove_at firstn skipn app].
  unfold F_softmax, dim. cbn [size length softmax_axis Nat.ltb Nat.leb].
  eexists; split; reflexivity.
Qed.

(** Lines 97-98 on one axis of class activations: [max(dim=1)] has no
    axis 1. *)
Lemma masked_1d (x classes : tensor fnum) (a : nat) :
  size classes = [a] -> masked x classes = Err IndexError.
Proof.
  intros Hc. unfold masked, max_dim, dim. rewrite Hc. cbn [length]. ndim.
  reflexivity.
Qed.

(** Lines 97-98 on a batch. *)
Lemma masked_spec (x classes : tensor fnum) (nb K D : nat) :
  size x = [nb; K; D] -> size classes = [nb; K] -> 0 < nb -> 0 < K ->
  exists sel, masked x classes = Ok sel /\ size sel = [nb; D] /\
    forall b d, b < nb -> d < D ->
      elt sel [b; d] = elt x [b; argmax (fun c => elt classes [0; c]) K; d].
Proof.
  intros Hx Hc Hb HK. unfold masked, max_dim, dim. rewrite Hc.
  cbn [length]. ndim. cbn [bind nth].
  destruct (Nat.eqb_spec K 0); [lia|]. cbn [bind snd].
  unfold item. cbn [size elt remove_at firstn skipn app].
  destruct (Nat.ltb_spec 0 nb); [|lia]. cbn [bind].
  cbn [insert_at firstn skipn app].
  pose proof (@argmax_lt (fun c => elt classes [0; c]) K HK) as Hlt.
  unfold index. rewrite Hx. cbn [index_size].
  destruct (Nat.ltb_spec (argmax (fun c => elt classes [0; c]) K) K); [|lia].
  cbn [bind]. eexists; split; [reflexivity|]. split; [reflexivity|].
  intros b d Hb' Hd. reflexivity.
Qed.

Lemma decoder_size (self : CapsuleNet) (x : tensor fnum) (nb : nat) :
  capsule_net self -> size x = [nb; 16] ->
  exists r h, decoder self x = Ok r /\ size r = [nb; 784] /\
    forall ix, elt r ix = fsigmoid (elt h ix).
Proof.
  intros (_ & _ & _ & _ & _ & H1 & H2 & H3) Hx. unfold decoder.
  destruct (@Linear_forward_size (decoder1 self) x nb _ _ H1 Hx)
    as (h1 & E1 & S1).
  rewrite E1. cbn [bind].
  destruct (@Linear_forward_size (decoder2 self) (F_relu h1) nb _ _ H2 S1)
    as (h2 & E2 & S2).
  rewrite E2. cbn [bind].
  destruct (@Linear_forward_size (decoder3 self) (F_relu h2) nb _ _ H3 S2)
    as (h3 & E3 & S3).
  rewrite E3. cbn [bind].
  exists (tmap fsigmoid h3), h3. repeat split. exact S3.
Qed.

End Stages.

Section NetClaims.

Lemma CapsuleNet_init_ok (rnd : samples) :
  exists net, CapsuleNet_init rnd = Ok net /\ capsule_net net.
Proof.
  unfold CapsuleNet_init, CapsuleLayer_init.
  cbn [negb Z.eqb Pos.eqb Z.ltb Z.compare Z.mul Pos.mul Pos.add bind].
  eexists; split; [reflexivity|].
  unfold capsule_net. cbn [conv1 primary_capsules digit_capsules decoder1
    decoder2 decoder3 num_route_nodes num_iterations capsules].
  split; [repeat split|]. split; [reflexivity|].
  split.
  { eexists. split; [reflexivity|]. split; [reflexivity|].
    cbn [seq map]. repeat constructor. }
  split.
  { do 2 eexists. repeat split. }
  split; [reflexivity|]. repeat split.
Qed.

(** A batch of at least two images goes through. *)
Lemma forward_batch (self : CapsuleNet) (x : tensor fnum) (nb : nat) :
  capsule_net self -> size x = [nb; 1; 28; 28] -> 2 <= nb ->
  exists v classes sel reconstructions,
    digit_vectors self x = Ok v /\ size v = [nb; 10; 16] /\
    class_activations v = Ok classes /\ size classes = [nb; 10] /\
    masked v classes = Ok sel /\ size sel = [nb; 16] /\
    decoder self sel = Ok reconstructions /\
    size reconstructions = [nb; 784] /\
    CapsuleNet_forward self x = Ok (classes, reconstructions) /\
    forall b d, b < nb -> d < 16 ->
      elt sel [b; d] = elt v [b; argmax (fun c => elt classes [0; c]) 10; d].
Proof.
  intros Hnet Hx Hb.
  destruct (digit_vectors_size x Hnet Hx) as (v & Ev & Sv); [lia|].
  destruct (Nat.eqb_spec nb 1) as [|_]; [lia|].
  destruct (class_activations_spec v Sv) as (cl & Ecl & Scl & _).
  destruct (masked_spec v cl Sv Scl) as (sel & Esel & Ssel & Vsel); [lia|lia|].
  destruct (decoder_size sel Hnet Ssel) as (r & h & Er & Sr & _).
  exists v, cl, sel, r. unfold CapsuleNet_forward.
  rewrite Ev. cbn [bind]. rewrite Ecl. cbn [bind]. rewrite Esel. cbn [bind].
  rewrite Er. cbn [bind]. repeat split; assumption.
Qed.

(** Claim C4.  For a batch of two or more images the forward call returns,
    and the decoder input holds, for every batch element [b], capsule [k]
    of that element, where the one index [k] is the position of the first
    largest class activation of batch element 0. *)
Theorem decoder_input_from_first_element (self : CapsuleNet)
  (x : tensor fnum) (nb : nat) :
  capsule_net self -> size x = [nb; 1; 28; 28] -> 2 <= nb ->
  exists v classes sel reconstructions,
    digit_vectors self x = Ok v /\
    class_activations v = Ok classes /\
    masked v classes = Ok sel /\
    decoder self sel = Ok reconstructions /\
    CapsuleNet_forward self x = Ok (classes, reconstructions) /\
    size v = [nb; 10; 16] /\ size classes = [nb; 10] /\ size sel = [nb; 16] /\
    let k := argmax (fun c => elt classes [0; c]) 10 in
    k < 10 /\
    (forall b d, b < nb -> d < 16 -> elt sel [b; d] = elt v [b; k; d]) /\
    ((forall c, c < 10 -> is_real (elt classes [0; c])) ->
     forall c, c < 10 -> Rle (rv (elt classes [0; c])) (rv (elt classes [0; k]))).
Proof.
  intros Hnet Hx Hb.
  destruct (forward_batch x Hnet Hx Hb)
    as (v & cl & sel & r & Ev & Sv & Ecl & Scl & Esel & Ssel & Er & Sr & Ef & Vsel).
  exists v, cl, sel, r. repeat (split; [assumption|]).
  cbv zeta. split; [apply argmax_lt; lia|]. split; [exact Vsel|].
  intros Hfin c Hc.
  exact (@argmax_max (fun c => elt cl [0; c]) 10 Hfin c Hc).
Qed.

(** A batch of one image, whatever the image and the values of the
    parameters: the digit capsules come out as [[16; 10]], the class
    activations as 16 numbers, and the selection raises. *)
Lemma forward_batch_of_one_raises (self : CapsuleNet) (x : tensor fnum) :
  capsule_net self -> size x = [1; 1; 28; 28] ->
  (exists v classes,
     digit_vectors self x = Ok v /\ size v = [16; 10] /\
     class_activations v = Ok classes /\ size classes = [16] /\
     masked v classes = Err IndexError) /\
  CapsuleNet_forward self x = Err IndexError.
Proof.
  intros Hnet Hx.
  destruct (@digit_vectors_size self x 1 Hnet Hx) as (v & Ev & Sv); [lia|].
  cbn [Nat.eqb] in Sv.
  destruct (class_activations_2d v Sv) as (cl & Ecl & Scl).
  pose proof (masked_1d v cl Scl) as Em.
  split.
  - exists v, cl. repeat split; assumption.
  - unfold CapsuleNet_forward. rewrite Ev. cbn [bind]. rewrite Ecl.
    cbn [bind]. rewrite Em. reflexivity.
Qed.

(** Claim C2, at its input.  On one zero-valued 28x28 image (batch size 1)
    the forward call of a freshly built network raises: [squeeze()] has
    dropped the batch axis, the class activations have one axis, and
    [max(dim=1)] has no axis 1. *)
Theorem forward_single_image_raises (rnd : samples) :
  exists net, CapsuleNet_init rnd = Ok net /\
    CapsuleNet_forward net (zeros [1; 1; 28; 28]) = Err IndexError.
Proof.
  destruct (CapsuleNet_init_ok rnd) as (net & Enet & Hnet).
  exists net. split; [assumption|].
  apply (forward_batch_of_one_raises (zeros [1; 1; 28; 28]) Hnet eq_refl).
Qed.

End NetClaims.

Section Example.

Lemma example_net_built : CapsuleNet_init example_samples = Ok example_net.
Proof. reflexivity. Qed.

Lemma example_net_ok : capsule_net example_net.
Proof.
  destruct (CapsuleNet_init_ok example_samples) as (net & E & H).
  rewrite example_net_built in E. injection E as <-. exact H.
Qed.

Lemma decoder_input_from_first_element_witness :
  exists v classes sel reconstructions,
    digit_vectors example_net (zeros [2; 1; 28; 28]) = Ok v /\
    class_activations v = Ok classes /\
    masked v classes = Ok sel /\
    decoder example_net sel = Ok reconstructions /\
    CapsuleNet_forward example_net (zeros [2; 1; 28; 28])
      = Ok (classes, reconstructions) /\
    size v = [2; 10; 16] /\ size classes = [2; 10] /\ size sel = [2; 16] /\
    let k := argmax (fun c => elt classes [0; c]) 10 in
    k < 10 /\
    (forall b d, b < 2 -> d < 16 -> elt sel [b; d] = elt v [b; k; d]) /\
    ((forall c, c < 10 -> is_real (elt classes [0; c])) ->
     forall c, c < 10 -> Rle (rv (elt classes [0; c])) (rv (elt classes [0; k]))).
Proof.
  apply (@decoder_input_from_first_element example_net
           (zeros [2; 1; 28; 28]) 2).
  - exact example_net_ok.
  - reflexivity.
  - lia.
Defined.

End Example.

Section Outputs.

Local Open Scope R_scope.

Lemma rsum_div (f : nat -> R) (c : R) (n : nat) :
  rsum (fun k => f k / c) n = rsum f n / c.
Proof.
  unfold Rdiv. rewrite <- (Rmult_comm (/ c)), <- rsum_scal.
  apply rsum_ext. intros; ring.
Qed.

(** The entries of a softmax of numbers add up to one. *)
Lemma softmax_vec_sums_to_one (N : nat) (l : nat -> fnum) (g : nat -> R) :
  (forall k, (k < N)%nat -> l k = Real (g k)) -> (0 < N)%nat ->
  exists p : nat -> R,
    (forall n, (n < N)%nat -> Spec.softmax_vec N l n = Real (p n) /\ 0 < p n) /\
    rsum p N = 1.
Proof.
  intros Hl HN.
  assert (Hpos : 0 < rsum (fun j => exp (g j)) N)
    by (apply rsum_pos; [assumption | intros; apply exp_pos]).
  exists (fun n => exp (g n) / rsum (fun j => exp (g j)) N). split.
  - intros n Hn. split.
    + apply softmax_vec_real; assumption.
    + apply Rdiv_lt_0_compat; [apply exp_pos | assumption].
  - rewrite rsum_div. field. lra.
Qed.

(** The sigmoid of a number lies strictly between 0 and 1. *)
Lemma fsigmoid_range (r : R) :
  exists s, fsigmoid (Real r) = Real s /\ 0 < s < 1.
Proof.
  pose proof (exp_pos (- r)) as He.
  exists (1 / (1 + exp (- r))). split.
  - unfold fsigmoid. cbv [fexp fadd lift1 lift2]. apply fdiv_real. lra.
  - split.
    + apply Rdiv_lt_0_compat; lra.
    + apply (Rmult_lt_reg_r (1 + exp (- r))); [lra|].
      unfold Rdiv. rewrite Rmult_assoc, Rinv_l by lra. lra.
Qed.

End Outputs.

Section BatchOutputs.

Lemma is_real_rv (x : fnum) : is_real x -> x = Real (rv x).
Proof. destruct x; [reflexivity | contradiction]. Qed.

(** For a batch of two or more images: one softmax per batch element over
    the ten capsule norms, and a sigmoid on every element of the
    reconstruction. *)
Lemma forward_batch_outputs (self : CapsuleNet) (x : tensor fnum) (nb : nat) :
  capsule_net self -> size x = [nb; 1; 28; 28] -> 2 <= nb ->
  exists v classes reconstructions,
    digit_vectors self x = Ok v /\
    CapsuleNet_forward self x = Ok (classes, reconstructions) /\
    size classes = [nb; 10] /\ size reconstructions = [nb; 784] /\
    (finite v -> forall b, b < nb ->
       exists p : nat -> R,
         (forall c, c < 10 ->
            elt classes [b; c] = Real (p c) /\ Rlt 0 (p c)) /\
         rsum p 10 = 1%R) /\
    (forall ix, is_real (elt reconstructions ix) ->
       Rlt 0 (rv (elt reconstructions ix)) /\
       Rlt (rv (elt reconstructions ix)) 1).
Proof.
  intros Hnet Hx Hb.
  destruct (digit_vectors_size x Hnet Hx) as (v & Ev & Sv); [lia|].
  destruct (Nat.eqb_spec nb 1) as [|_]; [lia|].
  destruct (class_activations_spec v Sv) as (cl & Ecl & Scl & Vcl).
  destruct (masked_spec v cl Sv Scl) as (sel & Esel & Ssel & _); [lia|lia|].
  destruct (decoder_size sel Hnet Ssel) as (r & h & Er & Sr & Vr).
  exists v, cl, r. unfold CapsuleNet_forward.
  rewrite Ev. cbn [bind]. rewrite Ecl. cbn [bind]. rewrite Esel. cbn [bind].
  rewrite Er. cbn [bind].
  split; [reflexivity|]. split; [reflexivity|].
  split; [assumption|]. split; [assumption|]. split.
  - intros Hfin b Hb'.
    assert (Hnorm : forall j, j < 10 ->
       fsqrt (Spec.sqnorm 16 (fun k => elt v [b; j; k])) =
       Real (sqrt (rsum (fun k => Rmult (rv (elt v [b; j; k]))
                                     (rv (elt v [b; j; k]))) 16))).
    { intros j Hj.
      rewrite (@sqnorm_real 16 (fun k => elt v [b; j; k])
                 (fun k => rv (elt v [b; j; k]))).
      - apply fsqrt_real. apply rsum_nonneg. intros. nra.
      - intros k Hk. apply is_real_rv. apply Hfin. rewrite Sv.
        cbn [valid]. repeat split; assumption. }
    destruct (@softmax_vec_sums_to_one 10 _ _ Hnorm) as (p & Hp & Hsum); [lia|].
    exists p. split; [|assumption].
    intros c Hc. rewrite Vcl by assumption. apply Hp. assumption.
  - intros ix Hreal. rewrite Vr in *.
    destruct (elt h ix) as [y|]; [|contradiction].
    destruct (fsigmoid_range y) as (s & Es & Hs). rewrite Es. cbn [rv].
    exact Hs.
Qed.

End BatchOutputs.

(* ================================================================== *)
(** * Further properties of the program *)
(* ================================================================== *)

Section IndexLists.

Lemma length_upd (l : list nat) (i v : nat) : length (upd l i v) = length l.
Proof.
  revert i. induction l as [|a l IH]; intros [|i]; cbn [upd length]; auto.
Qed.

Lemma nth_upd (l : list nat) (i v j : nat) :
  nth j (upd l i v) 0 =
  if (j =? i) && (i <? length l) then v else nth j l 0.
Proof.
  revert i j. induction l as [|a l IH]; intros i j.
  - cbn [upd length]. rewrite andb_false_r. reflexivity.
  - destruct i as [|i], j as [|j]; cbn [upd nth length]; try reflexivity.
    rewrite IH. reflexivity.
Qed.

Lemma length_swap (i j : nat) (l : list nat) : length (swap i j l) = length l.
Proof. unfold swap. rewrite !length_upd. reflexivity. Qed.

Lemma nth_swap (i j k : nat) (l : list nat) :
  i < length l -> j < length l ->
  nth k (swap i j l) 0 =
  if k =? j then nth i l 0 else if k =? i then nth j l 0 else nth k l 0.
Proof.
  intros Hi Hj. unfold swap. rewrite !nth_upd, !length_upd.
  destruct (Nat.ltb_spec j (length l)); [|lia].
  destruct (Nat.ltb_spec i (length l)); [|lia].
  rewrite !andb_true_r. reflexivity.
Qed.

Lemma valid_length (s ix : list nat) : valid s ix -> length ix = length s.
Proof.
  revert ix. induction s as [|a s IH]; intros [|i ix] H; cbn in *;
    try tauto. f_equal. apply IH. tauto.
Qed.

Lemma valid_nth (s ix : list nat) :
  valid s ix <->
  length ix = length s /\ forall i, i < length s -> nth i ix 0 < nth i s 0.
Proof.
  revert ix. induction s as [|a s IH]; intros [|i ix]; cbn [valid length nth].
  - split; [intros _; split; [reflexivity | intros; lia] | tauto].
  - split; [tauto | intros [H _]; discriminate].
  - split; [tauto | intros [H _]; discriminate].
  - rewrite IH. split.
    + intros (Hi & Hl & Hn). split; [lia|].
      intros [|k] Hk; [assumption | apply Hn; lia].
    + intros (Hl & Hn). split; [apply (Hn 0); lia|]. split; [lia|].
      intros k Hk. apply (Hn (S k)). lia.
Qed.

Lemma valid_swap (i j : nat) (s ix : list nat) :
  i < length s -> j < length s ->
  valid s ix -> valid (swap i j s) (swap i j ix).
Proof.
  intros Hi Hj H. apply valid_nth in H. destruct H as [Hl Hn].
  apply valid_nth. rewrite !length_swap. split; [assumption|].
  intros k Hk. rewrite !nth_swap by lia.
  destruct (k =? j); [apply Hn; lia|].
  destruct (k =? i); apply Hn; lia.
Qed.

Lemma valid_upd (s ix : list nat) (i v : nat) :
  valid s ix -> v < nth i s 0 -> valid s (upd ix i v).
Proof.
  intros H Hv. apply valid_nth in H. destruct H as [Hl Hn].
  apply valid_nth. rewrite length_upd. split; [assumption|].
  intros k Hk. rewrite nth_upd.
  destruct (Nat.eqb_spec k i) as [->|]; cbn [andb]; [|apply Hn; assumption].
  destruct (i <? length ix); [assumption | apply Hn; assumption].
Qed.

Lemma last_nth (l : list nat) : last l 0 = nth (length l - 1) l 0.
Proof.
  induction l as [|a l IH]; [reflexivity|].
  destruct l as [|b l]; [reflexivity|].
  cbn [last length Nat.sub] in *. rewrite IH.
  cbn [nth]. rewrite Nat.sub_0_r. reflexivity.
Qed.

Lemma split_last (l : list nat) :
  l <> [] -> l = removelast l ++ [last l 0].
Proof. intros H. apply app_removelast_last. assumption. Qed.

Lemma prod_app_last (s : list nat) (k : nat) : prod (s ++ [k]) = prod s * k.
Proof.
  induction s as [|a s IH]; cbn [app prod]; [lia|]. rewrite IH. lia.
Qed.

Lemma ravel_app_last (s q : list nat) (k c : nat) :
  length q = length s ->
  ravel (s ++ [k]) (q ++ [c]) = ravel s q * k + c.
Proof.
  revert q. induction s as [|a s IH]; intros [|i q] H; try discriminate.
  - cbn. lia.
  - cbn [app ravel]. rewrite IH by (cbn in H; lia).
    rewrite prod_app_last. lia.
Qed.

Lemma valid_app_last (s q : list nat) (k c : nat) :
  length q = length s ->
  (valid (s ++ [k]) (q ++ [c]) <-> valid s q /\ c < k).
Proof.
  revert q. induction s as [|a s IH]; intros [|i q] H; try discriminate.
  - cbn. tauto.
  - cbn [app valid]. rewrite IH by (cbn in H; lia). tauto.
Qed.

End IndexLists.

Section SoftmaxAnyAxis.

Lemma norm_dim_lt (d : Z) (r n : nat) : norm_dim d r = Ok n -> n < r.
Proof.
  unfold norm_dim.
  destruct (d <? 0)%Z;
    match goal with |- context [if ?c then _ else _] => destruct c eqn:E end;
    try discriminate; intros H; injection H as <-;
    apply andb_prop in E; destruct E as [E1 E2];
    apply Z.leb_le in E1; apply Z.ltb_lt in E2; lia.
Qed.

Lemma norm_dim_last (r : nat) :
  0 < r -> norm_dim (Z.of_nat r - 1) r = Ok (r - 1).
Proof.
  intros Hr. unfold norm_dim.
  destruct (Z.ltb_spec (Z.of_nat r - 1) 0); [lia|].
  destruct (Z.leb_spec 0 (Z.of_nat r - 1)); [|lia].
  destruct (Z.ltb_spec (Z.of_nat r - 1) (Z.of_nat r)); [|lia].
  cbn [andb]. f_equal. lia.
Qed.

Lemma swap_last_upd (d : nat) (ix : list nat) (c : nat) :
  d < length ix ->
  swap d (length ix - 1) (upd (swap d (length ix - 1) ix) (length ix - 1) c)
  = upd ix d c.
Proof.
  intros Hd. generalize (length ix - 1) (Nat.sub_lt (length ix) 1 ltac:(lia) ltac:(lia)).
  intros e He.
  apply nth_ext with (d := 0) (d' := 0).
  - rewrite length_swap, !length_upd, length_swap. reflexivity.
  - intros k Hk. rewrite length_swap, length_upd, length_swap in Hk.
    rewrite nth_swap by (rewrite length_upd, length_swap; assumption).
    rewrite !nth_upd, !length_swap, !nth_swap by assumption.
    rewrite !Nat.eqb_refl.
    destruct (Nat.ltb_spec e (length ix)); [|lia].
    destruct (Nat.ltb_spec d (length ix)); [|lia].
    destruct (Nat.eqb_spec k e) as [Eke|Hke];
      destruct (Nat.eqb_spec k d) as [Ekd|Hkd];
      destruct (Nat.eqb_spec d e) as [Ede|Hde];
      destruct (Nat.eqb_spec e d) as [Eed|Hed];
      cbn [andb]; subst; try lia; try reflexivity.
Qed.

Lemma upd_app_last (q : list nat) (x c : nat) :
  upd (q ++ [x]) (length q) c = q ++ [c].
Proof.
  induction q as [|a q IH]; [reflexivity|].
  cbn [app length upd]. f_equal. apply IH.
Qed.

Lemma swap_swap (i j : nat) (l : list nat) :
  i < length l -> j < length l -> swap i j (swap i j l) = l.
Proof.
  intros Hi Hj. apply nth_ext with (d := 0) (d' := 0).
  - rewrite !length_swap. reflexivity.
  - intros k Hk. rewrite !length_swap in Hk.
    rewrite nth_swap by (rewrite length_swap; assumption).
    rewrite !nth_swap by assumption. rewrite !Nat.eqb_refl.
    destruct (Nat.eqb_spec k j) as [Ekj|Hkj];
      destruct (Nat.eqb_spec k i) as [Eki|Hki];
      destruct (Nat.eqb_spec i j) as [Eij|Hij];
      destruct (Nat.eqb_spec j i) as [Eji|Hji];
      subst; try lia; try reflexivity.
Qed.

(** [softmax(input, dim)] on any tensor: along axis [dim], element by
    element. *)
Lemma softmax_spec (t : tensor fnum) (axis : Z) (d : nat) :
  norm_dim axis (length (size t)) = Ok d ->
  0 < nth d (size t) 0 ->
  exists o, softmax t axis = Ok o /\ size o = size t /\
    forall ix, valid (size t) ix ->
      elt o ix =
      Spec.softmax_vec (nth d (size t) 0)
        (fun c => elt t (upd ix d c)) (nth d ix 0).
Proof.
  intros Hdim Hk.
  pose proof (norm_dim_lt _ _ Hdim) as Hd.
  set (s := size t) in *. set (r := length s) in *.
  set (e := r - 1).
  assert (He : e < r) by (unfold e; lia).
  assert (Hr : 0 < r) by lia.
  set (k := nth d s 0) in *.
  set (ts := swap d e s).
  assert (Lts : length ts = r) by apply length_swap.
  assert (Hlast : last ts 0 = k).
  { rewrite last_nth, Lts. fold e. unfold ts.
    rewrite nth_swap by assumption. rewrite Nat.eqb_refl. reflexivity. }
  assert (Hts : ts = removelast ts ++ [k]).
  { rewrite <- Hlast. apply split_last. intros E. rewrite E in Lts.
    cbn in Lts. lia. }
  set (ts' := removelast ts) in *.
  assert (Lts' : length ts' = e).
  { apply (f_equal (@length nat)) in Hts. rewrite length_app in Hts.
    cbn [length] in Hts. unfold e. lia. }
  assert (Hprod : prod ts = prod ts' * k) by (rewrite Hts at 1; apply prod_app_last).
  unfold softmax, transpose, contiguous, dim.
  fold s. fold r. rewrite Hdim, (norm_dim_last Hr). fold e. cbn [bind size elt].
  fold ts. rewrite Hlast. unfold view at 1, numel. cbn [size elt]. rewrite Hprod.
  rewrite (@infer_size_rows k (prod ts' * k))
    by (try assumption; apply Nat.Div0.mod_mul).
  rewrite Nat.div_mul by lia. cbn [bind].
  unfold F_softmax, dim.
  cbn [size elt length softmax_axis Nat.ltb Nat.leb bind nth].
  unfold view, numel. cbn [size elt prod].
  rewrite infer_size_nats by (rewrite Hprod; lia).
  cbn [bind size elt length]. rewrite Lts. fold r.
  rewrite Hdim, (norm_dim_last Hr). fold e. cbn [bind].
  eexists; split; [reflexivity|]. cbn [size elt]. split.
  { unfold ts. apply swap_swap; assumption. }
  intros ix Hix.
  pose proof (valid_length _ _ Hix) as Lix. fold r in Lix.
  assert (Hjx : valid ts (swap d e ix))
    by (apply valid_swap; assumption).
  set (jx := swap d e ix) in *.
  assert (Ljx : length jx = r) by (unfold jx; rewrite length_swap; assumption).
  assert (Hjl : last jx 0 = nth d ix 0).
  { rewrite last_nth, Ljx. fold e. unfold jx.
    rewrite nth_swap by lia. rewrite Nat.eqb_refl. reflexivity. }
  assert (Ejx : jx = removelast jx ++ [nth d ix 0]).
  { rewrite <- Hjl. apply split_last. intros E. rewrite E in Ljx.
    cbn in Ljx. lia. }
  set (q := removelast jx) in *.
  assert (Lq : length q = length ts').
  { apply (f_equal (@length nat)) in Ejx. rewrite length_app in Ejx.
    cbn [length] in Ejx. lia. }
  assert (Hq : valid ts' q /\ nth d ix 0 < k).
  { apply (valid_app_last ts' q k (nth d ix 0) Lq).
    rewrite <- Hts, <- Ejx. assumption. }
  destruct Hq as [Hq Hc].
  assert (Hrow : ravel ts' q < prod ts') by (apply ravel_lt; assumption).
  assert (Hcell : forall c, c < k ->
            unravel [prod ts'; k] (ravel ts (q ++ [c])) = [ravel ts' q; c]).
  { intros c Hck. rewrite Hts at 1. rewrite ravel_app_last by assumption.
    replace (ravel ts' q * k + c) with (ravel [prod ts'; k] [ravel ts' q; c])
      by (cbn [ravel prod]; lia).
    apply unravel_ravel. cbn [valid]. repeat split; assumption. }
  assert (Hback : forall c, c < k ->
            unravel ts (ravel [prod ts'; k] [ravel ts' q; c]) = q ++ [c]).
  { intros c Hck.
    replace (ravel [prod ts'; k] [ravel ts' q; c]) with (ravel ts (q ++ [c])).
    - apply unravel_ravel. rewrite Hts.
      apply valid_app_last; [assumption | split; assumption].
    - rewrite Hts at 1. rewrite ravel_app_last by assumption.
      cbn [ravel prod]. lia. }
  assert (Hsrc : forall c, swap d e (q ++ [c]) = upd ix d c).
  { intros c.
    replace (q ++ [c]) with (upd jx e c).
    - unfold jx, e. rewrite <- Lix. apply swap_last_upd. lia.
    - rewrite Ejx, <- Lts', <- Lq. apply upd_app_last. }
  pose proof (Hcell _ Hc) as Hcj. rewrite <- Ejx in Hcj.
  rewrite !Hcj. cbn [upd].
  unfold Spec.softmax_vec. f_equal.
  - rewrite (Hback _ Hc), Hsrc. reflexivity.
  - apply fsum_ext. intros c Hck. rewrite (Hback _ Hck), Hsrc. reflexivity.
Qed.

End SoftmaxAnyAxis.

Section SoftmaxExtras.

Lemma upd_nth_same (ix : list nat) (d : nat) : upd ix d (nth d ix 0) = ix.
Proof.
  apply nth_ext with (d := 0) (d' := 0).
  - apply length_upd.
  - intros i Hi. rewrite nth_upd.
    destruct (Nat.eqb_spec i d) as [E|]; [|reflexivity].
    subst i. destruct (d <? length ix); reflexivity.
Qed.

Lemma upd_upd (ix : list nat) (d a b : nat) : upd (upd ix d a) d b = upd ix d b.
Proof.
  revert d. induction ix as [|i ix IH]; intros [|d]; cbn [upd]; try reflexivity.
  rewrite IH. reflexivity.
Qed.

(** X1.  [softmax(input, dim)] on a tensor of any number of axes: for
    every axis [dim] in range (negative ones counted from the end) of
    nonzero size, the call returns a tensor of the size of the input whose
    element at [ix] is [exp(input[ix])] over the sum of [exp] along axis
    [dim] through [ix]. *)
Theorem softmax_any_axis (t : tensor fnum) (axis : Z) (d : nat) :
  norm_dim axis (length (size t)) = Ok d ->
  0 < nth d (size t) 0 ->
  exists o, softmax t axis = Ok o /\ size o = size t /\
    forall ix, valid (size t) ix ->
      elt o ix =
      fdiv (fexp (elt t ix))
           (fsum (fun c => fexp (elt t (upd ix d c))) (nth d (size t) 0)).
Proof.
  intros Hdim Hk.
  destruct (softmax_spec t axis Hdim Hk) as (o & Eo & So & Vo).
  exists o. split; [assumption|]. split; [assumption|].
  intros ix Hix. rewrite (Vo ix Hix). unfold Spec.softmax_vec.
  rewrite upd_nth_same. reflexivity.
Qed.

Lemma softmax_any_axis_witness :
  exists o, softmax tilted_logits (-3) = Ok o /\
    size o = size tilted_logits /\
    forall ix, valid (size tilted_logits) ix ->
      elt o ix =
      fdiv (fexp (elt tilted_logits ix))
           (fsum (fun c => fexp (elt tilted_logits (upd ix 2 c)))
                 (nth 2 (size tilted_logits) 0)).
Proof.
  apply (@softmax_any_axis tilted_logits (-3) 2).
  - reflexivity.
  - cbn. lia.
Defined.

(** X2.  On a tensor of numbers the result of [softmax] holds numbers in
    [0, 1], and along the chosen axis they add up to 1. *)
Theorem softmax_sums_to_one (t : tensor fnum) (axis : Z) (d : nat) :
  norm_dim axis (length (size t)) = Ok d ->
  0 < nth d (size t) 0 ->
  finite t ->
  exists o, softmax t axis = Ok o /\
    forall ix, valid (size t) ix ->
      exists p : nat -> R,
        (forall c, c < nth d (size t) 0 ->
           elt o (upd ix d c) = Real (p c) /\ Rle 0 (p c) /\ Rle (p c) 1) /\
        rsum p (nth d (size t) 0) = 1%R.
Proof.
  intros Hdim Hk Hfin.
  destruct (softmax_spec t axis Hdim Hk) as (o & Eo & So & Vo).
  exists o. split; [assumption|]. intros ix Hix.
  set (k := nth d (size t) 0) in *.
  assert (Hl : forall c, c < k ->
            elt t (upd ix d c) = Real (rv (elt t (upd ix d c)))).
  { intros c Hc. apply is_real_rv. apply Hfin. apply valid_upd; assumption. }
  destruct (@softmax_vec_sums_to_one k (fun c => elt t (upd ix d c)) _ Hl Hk)
    as (p & Hp & Hsum).
  exists p. split; [|assumption].
  intros c Hc. destruct (Hp c Hc) as [Ep Hpos].
  assert (Hv : valid (size t) (upd ix d c)) by (apply valid_upd; assumption).
  rewrite (Vo _ Hv).
  assert (Hn : nth d (upd ix d c) 0 = c).
  { rewrite nth_upd, Nat.eqb_refl.
    pose proof (norm_dim_lt _ _ Hdim). rewrite (valid_length _ _ Hix).
    destruct (Nat.ltb_spec d (length (size t))); [reflexivity | lia]. }
  rewrite Hn.
  rewrite (@softmax_vec_ext k _ (fun c0 => elt t (upd ix d c0)) c)
    by (try assumption; intros; rewrite upd_upd; reflexivity).
  split; [assumption|]. split; [apply Rlt_le; assumption|].
  (* each entry is at most the sum *)
  rewrite <- Hsum.
  assert (Hge : forall n, c < n -> n <= k -> Rle (p c) (rsum p n)).
  { induction n as [|n IH]; intros Hcn Hnk; [lia|]. cbn [rsum].
    destruct (Nat.eq_dec c n) as [->|Hne].
    - assert (Rle 0 (rsum p n)).
      { apply rsum_nonneg. intros j Hj. left. apply (Hp j). lia. }
      lra.
    - assert (Rlt 0 (p n)) by (apply (Hp n); lia).
      specialize (IH ltac:(lia) ltac:(lia)). lra. }
  apply Hge; lia.
Qed.

Lemma softmax_sums_to_one_witness :
  exists o, softmax tilted_logits 2 = Ok o /\
    forall ix, valid (size tilted_logits) ix ->
      exists p : nat -> R,
        (forall c, c < nth 2 (size tilted_logits) 0 ->
           elt o (upd ix 2 c) = Real (p c) /\ Rle 0 (p c) /\ Rle (p c) 1) /\
        rsum p (nth 2 (size tilted_logits) 0) = 1%R.
Proof.
  apply (@softmax_sums_to_one tilted_logits 2 2).
  - reflexivity.
  - cbn. lia.
  - intros ix _. exact Logic.I.
Defined.

(** X3.  [softmax] raises when [dim] is not an axis of the input (below
    minus the number of axes, or at least the number of axes); a tensor
    without axes has no valid [dim]. *)
Theorem softmax_axis_out_of_range (t : tensor fnum) (axis : Z) :
  (axis < - Z.of_nat (length (size t)) \/ Z.of_nat (length (size t)) <= axis)%Z ->
  raises (softmax t axis).
Proof.
  intros H. exists IndexError. unfold softmax, transpose, dim.
  assert (E : norm_dim axis (length (size t)) = Err IndexError).
  { unfold norm_dim. destruct (Z.ltb_spec axis 0).
    - destruct H as [H|H]; [|lia].
      destruct (Z.leb_spec 0 (axis + Z.of_nat (length (size t)))); [lia|].
      reflexivity.
    - destruct H as [H|H]; [lia|].
      destruct (Z.ltb_spec axis (Z.of_nat (length (size t)))); [lia|].
      rewrite andb_false_r. reflexivity. }
  rewrite E. reflexivity.
Qed.

Lemma softmax_axis_out_of_range_witness :
  raises (softmax tilted_logits 5).
Proof.
  apply (@softmax_axis_out_of_range tilted_logits 5). right. cbn. lia.
Defined.

(** X4.  [softmax] along an axis of size 0 raises: the [view(-1, 0)] of
    its flattening step cannot infer the number of rows. *)
Theorem softmax_empty_axis (t : tensor fnum) (axis : Z) (d : nat) :
  norm_dim axis (length (size t)) = Ok d ->
  nth d (size t) 0 = 0 ->
  raises (softmax t axis).
Proof.
  intros Hdim Hk. exists RuntimeError.
  pose proof (norm_dim_lt _ _ Hdim) as Hd.
  assert (Hr : 0 < length (size t)) by lia.
  unfold softmax, transpose, contiguous, dim.
  rewrite Hdim, (norm_dim_last Hr). cbn [bind size elt].
  rewrite last_nth, length_swap, nth_swap by lia.
  rewrite Nat.eqb_refl, Hk.
  unfold view, infer_size.
  cbn [existsb filter map Z.of_nat Z.ltb Z.eqb Z.compare Pos.compare
       Pos.compare_cont Pos.eqb orb negb Z.to_nat prod Nat.mul Nat.eqb bind].
  reflexivity.
Qed.

Lemma softmax_empty_axis_witness :
  raises (softmax (zeros [2; 0; 3]) 1).
Proof.
  apply (@softmax_empty_axis (zeros [2; 0; 3]) 1 1); reflexivity.
Defined.

End SoftmaxExtras.

Section NaNFacts.

Lemma fadd_real_inv (x y : fnum) :
  is_real (fadd x y) -> is_real x /\ is_real y.
Proof. destruct x, y; cbn; tauto. Qed.

Lemma fmul_real_inv (x y : fnum) :
  is_real (fmul x y) -> is_real x /\ is_real y.
Proof. destruct x, y; cbn; tauto. Qed.

Lemma fsub_real_inv (x y : fnum) :
  is_real (fsub x y) -> is_real x /\ is_real y.
Proof. destruct x, y; cbn; tauto. Qed.

Lemma fdiv_real_inv (x y : fnum) :
  is_real (fdiv x y) -> is_real x /\ is_real y.
Proof.
  destruct x, y; cbv [fdiv is_real]; try tauto.
Qed.

Lemma fsquare_real_inv (x : fnum) : is_real (fsquare x) -> is_real x.
Proof. intros H. apply fmul_real_inv in H. tauto. Qed.

Lemma fsum_real_inv (f : nat -> fnum) (n : nat) :
  is_real (fsum f n) -> forall k, k < n -> is_real (f k).
Proof.
  induction n as [|n IH]; intros H k Hk; [lia|].
  change (fsum f (S n)) with (fadd (fsum f n) (f n)) in H.
  apply fadd_real_inv in H. destruct H as [H1 H2].
  destruct (Nat.eq_dec k n) as [->|]; [assumption | apply IH; [assumption|lia]].
Qed.

Lemma not_real_nan (x : fnum) : ~ is_real x -> x = NaN.
Proof. destruct x; cbn; tauto. Qed.

Lemma is_real_dec (x : fnum) : {is_real x} + {x = NaN}.
Proof. destruct x; [left; exact Logic.I | right; reflexivity]. Qed.

End NaNFacts.

Section SquashDichotomy.

Local Open Scope R_scope.

(** The squared norm of the squash of a nonzero vector of reals. *)
Lemma squash_norm_real (D : nat) (g : nat -> R) :
  let sq := rsum (fun k => g k * g k) D in
  sq <> 0 ->
  sqrt (rsum (fun d => (sq / (1 + sq) * g d / sqrt sq)
                       * (sq / (1 + sq) * g d / sqrt sq)) D)
  = sq / (1 + sq) /\ sq / (1 + sq) < 1.
Proof.
  intros sq Hsq.
  assert (H0 : 0 <= sq) by (apply rsum_nonneg; intros; nra).
  assert (Hpos : 0 < sq) by lra.
  assert (Hroot : 0 < sqrt sq) by (apply sqrt_lt_R0; assumption).
  assert (Hrr : sqrt sq * sqrt sq = sq) by (apply sqrt_sqrt; lra).
  split.
  - rewrite (rsum_ext _ (fun d => (sq / (1 + sq) / sqrt sq) ^ 2 * (g d * g d)))
      by (intros; field; split; lra).
    rewrite rsum_scal. fold sq.
    replace ((sq / (1 + sq) / sqrt sq) ^ 2 * sq)
      with ((sq / (1 + sq)) * (sq / (1 + sq))).
    + apply sqrt_square. apply Rlt_le, Rdiv_lt_0_compat; lra.
    + generalize (sqrt sq) Hroot Hrr. generalize sq Hpos.
      intros q Hq r Hr E. subst q. field. split; nra.
  - apply (Rmult_lt_reg_r (1 + sq)); [lra|].
    unfold Rdiv. rewrite Rmult_assoc, Rinv_l by lra. lra.
Qed.

(** The squash of any vector: every component NaN, or every component a
    number and the norm below 1. *)
Lemma squash_vec_dichotomy (D : nat) (s : nat -> fnum) :
  (forall d, (d < D)%nat -> Spec.squash_vec D s d = NaN) \/
  (exists h : nat -> R,
     (forall d, (d < D)%nat -> Spec.squash_vec D s d = Real (h d)) /\
     sqrt (rsum (fun d => h d * h d) D) < 1).
Proof.
  destruct (is_real_dec (Spec.sqnorm D s)) as [Hr|Hn].
  - assert (Hs : forall k, (k < D)%nat -> s k = Real (rv (s k))).
    { intros k Hk. apply is_real_rv. apply fsquare_real_inv.
      exact (@fsum_real_inv (fun k => fsquare (s k)) D Hr k Hk). }
    set (g := fun k => rv (s k)) in *.
    destruct (Req_dec_T (rsum (fun k => g k * g k) D) 0) as [Hz|Hnz].
    + left. intros d Hd. exact (@squash_vec_zero D s g Hs d Hd Hz).
    + right.
      exists (fun d => rsum (fun k => g k * g k) D
                       / (1 + rsum (fun k => g k * g k) D) * g d
                       / sqrt (rsum (fun k => g k * g k) D)).
      split.
      * intros d Hd. exact (@squash_vec_real D s g Hs d Hd Hnz).
      * destruct (@squash_norm_real D g Hnz) as [E Hlt].
        rewrite E. exact Hlt.
  - left. intros d Hd. unfold Spec.squash_vec. rewrite Hn.
    destruct (fmul _ _); reflexivity.
Qed.

End SquashDichotomy.

Section RoutingExtras.



(** X6.  On a well-sized routing layer and input the forward call returns
    exactly when [num_iterations >= 1], and what it returns has size
    [[M; B; 1; 1; Dout]]. *)
Theorem routing_returns_iff (self : CapsuleLayer) (x w lg : tensor fnum)
  (M B N Din Dout : nat) :
  routing_layer self M N Din Dout w lg -> size x = [B; N; Din] -> 0 < N ->
  ((exists o, CapsuleLayer_forward self x = Ok o) <->
   (1 <= num_iterations self)%Z) /\
  (forall o, CapsuleLayer_forward self x = Ok o ->
             size o = [M; B; 1; 1; Dout]).
Proof.
  intros Hwf Hx HN.
  assert (Hmode : num_route_nodes self <> (-1)%Z)
    by (destruct Hwf as (Hn & _); lia).
  assert (Hraise : (num_iterations self <= 0)%Z ->
            forall o, CapsuleLayer_forward self x <> Ok o).
  { intros HT o Eo.
    assert (Hm : (num_route_nodes self =? -1)%Z = false)
      by (apply Z.eqb_neq; assumption).
    assert (Hr : range (num_iterations self) = []).
    { unfold range. replace (Z.to_nat (num_iterations self)) with 0 by lia.
      reflexivity. }
    destruct Hwf as (Hn & Hw & Hlg & Sw & Slg).
    unfold CapsuleLayer_forward in Eo. rewrite Hm, Hr in Eo.
    cbn [negb for_each] in Eo.
    destruct (priors_spec x w Hx Sw)
      as (xe & we & p & Exe & Ewe & Ep & Sp & Vp).
    rewrite Exe, Hw in Eo. cbn [bind attr] in Eo.
    rewrite Ewe in Eo. cbn [bind] in Eo.
    rewrite Ep, Hlg in Eo. discriminate Eo. }
  split; [split|].
  - intros (o & Eo).
    destruct (Z_lt_le_dec 0 (num_iterations self)) as [H|H]; [lia|].
    exfalso. exact (Hraise H o Eo).
  - intros HT.
    destruct (@forward_routing_spec self x w lg M B N Din Dout
                (Z.to_nat (num_iterations self)) Hwf)
      as (o & Eo & _); try assumption; try lia.
    exists o. assumption.
  - intros o Eo.
    destruct (Z_lt_le_dec 0 (num_iterations self)) as [H|H].
    + destruct (@forward_routing_spec self x w lg M B N Din Dout
                  (Z.to_nat (num_iterations self)) Hwf)
        as (o' & Eo' & So' & _); try assumption; try lia.
      rewrite Eo in Eo'. injection Eo' as <-. assumption.
    + exfalso. exact (Hraise H o Eo).
Qed.

Lemma routing_returns_iff_witness :
  ((exists o, CapsuleLayer_forward (small_layer 3) small_input = Ok o) <->
   (1 <= num_iterations (small_layer 3))%Z) /\
  (forall o, CapsuleLayer_forward (small_layer 3) small_input = Ok o ->
             size o = [1; 1; 1; 1; 1]).
Proof.
  apply (@routing_returns_iff (small_layer 3) small_input
           (of_fun [1; 2; 1; 1] (fun _ => 1%R)) (zeros [1; 1; 2; 1; 1])
           1 1 2 1 1).
  - repeat split.
  - reflexivity.
  - lia.
Defined.

(** An input of the wrong size. *)
Lemma routing_wrong_size_err (self : CapsuleLayer) (x w lg : tensor fnum)
  (M B N N' Din Din' Dout : nat) :
  routing_layer self M N Din Dout w lg ->
  size x = [B; N'; Din'] ->
  Din' <> Din \/ (N' <> N /\ N' <> 1 /\ N <> 1) ->
  CapsuleLayer_forward self x = Err RuntimeError.
Proof.
  intros (Hn & Hw & Hlg & Sw & Slg) Hx Hbad.
  unfold CapsuleLayer_forward.
  assert (Hmode : (num_route_nodes self =? -1)%Z = false)
    by (apply Z.eqb_neq; lia).
  rewrite Hmode, Hw. cbn [negb]. unfold index. rewrite Hx.
  cbn [index_size bind attr]. rewrite Sw. cbn [index_size bind].
  unfold matmul, dim.
  cbn [size elt length Nat.ltb Nat.leb orb Nat.sub firstn skipn].
  destruct (Nat.eqb_spec Din' Din) as [E|E]; [|reflexivity].
  destruct Hbad as [Hbad|(H1 & H2 & H3)]; [contradiction|].
  unfold bsize. cbn [rev app bsize_rev bind].
  assert (Eb : bdim N' N = Err RuntimeError).
  { unfold bdim. destruct (Nat.eqb_spec N' N); [contradiction|].
    destruct (Nat.eqb_spec N' 1); [contradiction|].
    destruct (Nat.eqb_spec N 1); [contradiction|]. reflexivity. }
  rewrite Eb. reflexivity.
Qed.


(** X7.  The routing branch raises on an input whose capsules do not have
    [Din] components, or whose number of route nodes is neither the
    layer's nor 1 (one route node is broadcast to all). *)
Theorem routing_wrong_input_size (self : CapsuleLayer) (x w lg : tensor fnum)
  (M B N N' Din Din' Dout : nat) :
  routing_layer self M N Din Dout w lg ->
  size x = [B; N'; Din'] ->
  Din' <> Din \/ (N' <> N /\ N' <> 1 /\ N <> 1) ->
  raises (CapsuleLayer_forward self x).
Proof.
  intros Hwf Hx Hbad. exists RuntimeError.
  exact (@routing_wrong_size_err self x w lg M B N N' Din Din' Dout
           Hwf Hx Hbad).
Qed.

Lemma routing_wrong_input_size_witness :
  raises (CapsuleLayer_forward (small_layer 3) (zeros [1; 2; 4])).
Proof.
  apply (@routing_wrong_input_size (small_layer 3) (zeros [1; 2; 4])
           (of_fun [1; 2; 1; 1] (fun _ => 1%R)) (zeros [1; 1; 2; 1; 1])
           1 1 2 2 1 4 1).
  - repeat split.
  - reflexivity.
  - left. lia.
Defined.

(** X8.  The routing branch raises on an input of fewer than three axes:
    [x[None, :, :, None, :]] asks for three. *)
Theorem routing_input_too_few_axes (self : CapsuleLayer) (x : tensor fnum) :
  num_route_nodes self <> (-1)%Z -> length (size x) < 3 ->
  raises (CapsuleLayer_forward self x).
Proof.
  intros Hmode Hlen. exists IndexError. unfold CapsuleLayer_forward.
  assert (Hm : (num_route_nodes self =? -1)%Z = false)
    by (apply Z.eqb_neq; assumption).
  rewrite Hm. cbn [negb]. unfold index.
  destruct (size x) as [|a [|b [|c s]]]; cbn [length] in Hlen; try lia;
    reflexivity.
Qed.

Lemma routing_input_too_few_axes_witness :
  raises (CapsuleLayer_forward (small_layer 3) (zeros [2; 1])).
Proof.
  apply (@routing_input_too_few_axes (small_layer 3) (zeros [2; 1])).
  - cbn. discriminate.
  - cbn. lia.
Defined.

(** X9.  The routing branch treats the elements of a batch independently:
    the output capsules of a batch element depend on that element's input
    capsules only, not on the rest of the batch or on its size. *)
Theorem routing_batch_independent (self : CapsuleLayer)
  (x x' w lg : tensor fnum) (M B B' N Din Dout T b b' : nat) :
  routing_layer self M N Din Dout w lg ->
  num_iterations self = Z.of_nat T -> 0 < T -> 0 < N ->
  size x = [B; N; Din] -> size x' = [B'; N; Din] ->
  b < B -> b' < B' ->
  (forall n k, n < N -> k < Din -> elt x [b; n; k] = elt x' [b'; n; k]) ->
  exists o o',
    CapsuleLayer_forward self x = Ok o /\
    CapsuleLayer_forward self x' = Ok o' /\
    forall m d, m < M -> d < Dout ->
      elt o [m; b; 0; 0; d] = elt o' [m; b'; 0; 0; d].
Proof.
  intros Hwf HT HT0 HN Hx Hx' Hb Hb' Hsame.
  destruct (@forward_routing_spec self x w lg M B N Din Dout T)
    as (o & Eo & So & Vo); try assumption.
  destruct (@forward_routing_spec self x' w lg M B' N Din Dout T)
    as (o' & Eo' & So' & Vo'); try assumption.
  exists o, o'. split; [assumption|]. split; [assumption|].
  intros m d Hm Hd. rewrite Vo, Vo' by assumption.
  apply routing_ext; [|reflexivity|assumption].
  intros n k Hn Hk. unfold Spec.vote. apply fsum_ext. intros j Hj.
  rewrite Hsame by assumption. reflexivity.
Qed.

End RoutingExtras.

Section ConvMode.

Lemma unravel_cons (a : nat) (s : list nat) (b n : nat) :
  n < prod s -> unravel (a :: s) (b * prod s + n) = b :: unravel s n.
Proof.
  intros Hn. cbn [unravel].
  assert (Hd : (b * prod s + n) / prod s = b)
    by (symmetry; apply Nat.div_unique with n; lia).
  assert (Hm : (b * prod s + n) mod prod s = n)
    by (symmetry; apply Nat.mod_unique with b; lia).
  rewrite Hd, Hm. reflexivity.
Qed.

Lemma Forall2_nth_rel A B (R : A -> B -> Prop) (l : list A) (l' : list B)
  (da : A) (db : B) (j : nat) :
  Forall2 R l l' -> j < length l -> R (nth j l da) (nth j l' db).
Proof.
  intros H. revert j. induction H as [|a b l l' Hab Hl IH]; intros j Hj.
  - cbn in Hj. lia.
  - destruct j as [|j]; [assumption|]. cbn [nth]. apply IH. cbn in Hj. lia.
Qed.

Lemma Forall2_length_eq A B (R : A -> B -> Prop) (l : list A) (l' : list B) :
  Forall2 R l l' -> length l = length l'.
Proof. induction 1; cbn; congruence. Qed.

(** Concatenating tensors of size 1 along axis 2: position [j] of that
    axis reads tensor [j]. *)
Lemma cat_elt_unit (ts : list (tensor fnum)) (dflt : tensor fnum)
  (b n j : nat) :
  Forall (fun t => nth 2 (size t) 0 = 1) ts -> j < length ts ->
  cat_elt ts 2 [b; n; j] j = elt (nth j ts dflt) [b; n; 0].
Proof.
  intros H. revert j. induction H as [|t ts Ht Hts IH]; intros j Hj.
  - cbn in Hj. lia.
  - cbn [cat_elt]. rewrite Ht. destruct j as [|j].
    + reflexivity.
    + cbn [Nat.ltb Nat.leb nth]. replace (S j - 1) with j by lia.
      cbn [length] in Hj.
      assert (E : forall k, cat_elt ts 2 [b; n; S j] k = cat_elt ts 2 [b; n; j] k).
      { clear. induction ts as [|t ts IH]; intros k; [reflexivity|].
        cbn [cat_elt upd]. rewrite IH. reflexivity. }
      rewrite E. apply IH. lia.
Qed.

Variables (x : tensor fnum) (nb ci h w co k s : nat).
Hypothesis Hx : size x = [nb; ci; h; w].
Hypothesis Hkh : k <= h.
Hypothesis Hkw : k <= w.
Hypothesis Hs : 0 < s.
Hypothesis Hnb : 0 < nb.

Let h' := (h - k) / s + 1.
Let w' := (w - k) / s + 1.

(** One capsule's convolution, flattened per batch element. *)
Local Abbreviation flat_conv :=
  (fun capsule : Conv2d =>
     y <- Conv2d_forward capsule x ;;
     match size x with
     | n0 :: _ => view [Z.of_nat n0; (-1)%Z; 1%Z] y
     | [] => Err IndexError
     end).

Lemma flat_conv_spec (c : Conv2d) :
  conv_sizes c co ci k s ->
  exists y v, Conv2d_forward c x = Ok y /\ flat_conv c = Ok v /\
    size y = [nb; co; h'; w'] /\
    size v = [nb; prod [co; h'; w']; 1] /\
    forall b n, b < nb -> n < prod [co; h'; w'] ->
      elt v [b; n; 0] = elt y (b :: unravel [co; h'; w'] n).
Proof.
  intros Hc.
  destruct (@Conv2d_forward_size c x nb ci h w co k s Hc Hx Hkh Hkw Hs)
    as (y & Ey & Sy).
  fold h' w' in Sy.
  assert (Ev : view [Z.of_nat nb; (-1)%Z; 1%Z] y =
               Ok (mkT [nb; prod [co; h'; w']; 1]
                     (fun ix => elt y (unravel (size y)
                        (ravel [nb; prod [co; h'; w']; 1] ix))))).
  { unfold view, numel. rewrite Sy at 1.
    rewrite (@infer_size_batch nb (prod [co; h'; w']))
      by (try assumption; reflexivity).
    reflexivity. }
  exists y. eexists. split; [assumption|].
  cbv beta. rewrite Ey, Hx. cbn [bind]. split; [exact Ev|].
  split; [assumption|]. split; [reflexivity|].
  intros b n Hb Hn. cbn [elt]. rewrite Sy.
  replace (ravel [nb; prod [co; h'; w']; 1] [b; n; 0])
    with (b * prod [co; h'; w'] + n) by (cbn [ravel prod]; lia).
  rewrite unravel_cons by assumption. reflexivity.
Qed.

Lemma flat_convs_spec (cs : list Conv2d) :
  Forall (fun c => conv_sizes c co ci k s) cs ->
  exists ys vs,
    Forall2 (fun c y => Conv2d_forward c x = Ok y) cs ys /\
    map_result flat_conv cs = Ok vs /\
    Forall2 (fun y v =>
      size v = [nb; prod [co; h'; w']; 1] /\
      forall b n, b < nb -> n < prod [co; h'; w'] ->
        elt v [b; n; 0] = elt y (b :: unravel [co; h'; w'] n)) ys vs.
Proof.
  induction 1 as [|c cs Hc Hcs IH].
  - exists [], []. repeat split; constructor.
  - destruct (flat_conv_spec Hc) as (y & v & Ey & Ev & Sy & Sv & Vv).
    destruct IH as (ys & vs & Hys & Evs & Hvs).
    exists (y :: ys), (v :: vs). cbn [map_result]. rewrite Ev. cbn [bind].
    rewrite Evs. cbn [bind]. repeat split.
    + constructor; assumption.
    + constructor; [split; assumption | assumption].
Qed.

Lemma conv_mode_spec (self : CapsuleLayer) (cs : list Conv2d) :
  num_route_nodes self = (-1)%Z -> capsules self = Some cs ->
  cs <> [] -> Forall (fun c => conv_sizes c co ci k s) cs ->
  exists ys o,
    Forall2 (fun c y => Conv2d_forward c x = Ok y) cs ys /\
    CapsuleLayer_forward self x = Ok o /\
    size o = [nb; prod [co; h'; w']; length cs] /\
    forall b n j, b < nb -> n < prod [co; h'; w'] -> j < length cs ->
      elt o [b; n; j] =
      Spec.squash_vec (length cs)
        (fun j' => elt (nth j' ys (zeros [])) (b :: unravel [co; h'; w'] n)) j.
Proof.
  intros Hmode Hcs Hne Hall.
  destruct (flat_convs_spec Hall) as (ys & vs & Hys & Evs & Hvs).
  pose proof (Forall2_length_eq Hys) as Lys.
  pose proof (Forall2_length_eq Hvs) as Lvs.
  exists ys. unfold CapsuleLayer_forward.
  rewrite Hmode, Hcs. cbn [negb Z.eqb Pos.eqb bind attr].
  rewrite Evs. cbn [bind].
  assert (Hsz : Forall (fun v => size v = [nb; prod [co; h'; w']; 1]) vs).
  { clear - Hvs. induction Hvs as [|y v ys vs [Hv _] _ IH]; constructor;
      assumption. }
  destruct (@cat_last_size vs nb (prod [co; h'; w'])) as (y & Ey & Sy);
    [|assumption|].
  { intros ->. destruct cs; [contradiction|]. cbn in *. lia. }
  assert (Vy : forall b n j, j < length vs ->
            elt y [b; n; j] = elt (nth j vs (zeros [])) [b; n; 0]).
  { intros b n j Hj. destruct vs as [|v0 vs0] eqn:Evs0; [cbn in Hj; lia|].
    rewrite <- Evs0 in *.
    unfold cat in Ey. rewrite Evs0 in Ey. rewrite <- Evs0 in Ey.
    assert (S0 : size v0 = [nb; prod [co; h'; w']; 1])
      by (rewrite Evs0 in Hsz; inversion Hsz; assumption).
    unfold dim in Ey. rewrite S0 in Ey. cbn [length] in Ey.
    change (norm_dim (-1) 3) with (@Ok nat 2) in Ey. cbn [bind] in Ey.
    destruct (forallb _ vs); [|discriminate].
    injection Ey as <-. cbn [elt nth].
    apply cat_elt_unit; [|assumption].
    clear - Hsz. induction Hsz as [|t ts Ht _ IH]; constructor;
      [rewrite Ht; reflexivity | assumption]. }
  rewrite Ey. cbn [bind].
  destruct (squash_3d y Sy) as (o & Eo & So & Vo).
  exists o. split; [assumption|]. split; [assumption|].
  rewrite <- Lvs, <- Lys in *. split; [assumption|].
  intros b n j Hb Hn Hj. rewrite Vo by assumption.
  apply squash_vec_ext; [|assumption].
  intros j' Hj'. rewrite Vy by lia.
  pose proof (@Forall2_nth_rel _ _ _ ys vs (zeros []) (zeros []) j' Hvs
                ltac:(lia)) as [_ Hv].
  apply Hv; assumption.
Qed.

End ConvMode.

Section ConvErrors.

Lemma Conv2d_forward_err (c : Conv2d) (x : tensor fnum)
  (nb ci ci' h w co k s : nat) :
  conv_sizes c co ci k s -> size x = [nb; ci'; h; w] ->
  ci' <> ci \/ h < k \/ w < k \/ s = 0 ->
  Conv2d_forward c x = Err RuntimeError.
Proof.
  intros (Hw & Hb & Hs) Hx Hbad. unfold Conv2d_forward.
  rewrite Hx, Hw, Hb, Hs.
  destruct (Nat.eqb_spec ci' ci); [|reflexivity].
  rewrite Nat.eqb_refl.
  destruct (Nat.leb_spec k h); [|reflexivity].
  destruct (Nat.leb_spec k w); [|reflexivity].
  destruct (Nat.ltb_spec 0 s); [|reflexivity].
  lia.
Qed.

Lemma infer_size_empty_batch (n : nat) :
  infer_size [Z.of_nat 0; (-1)%Z; 1%Z] n = Err RuntimeError.
Proof. reflexivity. Qed.

(** The convolution branch with a first capsule that cannot be applied. *)
Lemma conv_mode_first_fails (self : CapsuleLayer) (c : Conv2d)
  (cs : list Conv2d) (x : tensor fnum) (e : error) :
  num_route_nodes self = (-1)%Z -> capsules self = Some (c :: cs) ->
  Conv2d_forward c x = Err e ->
  CapsuleLayer_forward self x = Err e.
Proof.
  intros Hmode Hcs Ec. unfold CapsuleLayer_forward.
  rewrite Hmode, Hcs. cbn [negb Z.eqb Pos.eqb bind attr map_result].
  rewrite Ec. reflexivity.
Qed.

Lemma conv_mode_empty_batch (self : CapsuleLayer) (c : Conv2d)
  (cs : list Conv2d) (x : tensor fnum) (ci h w co k s : nat) :
  num_route_nodes self = (-1)%Z -> capsules self = Some (c :: cs) ->
  conv_sizes c co ci k s -> size x = [0; ci; h; w] ->
  k <= h -> k <= w -> 0 < s ->
  CapsuleLayer_forward self x = Err RuntimeError.
Proof.
  intros Hmode Hcs Hc Hx Hh Hw Hs. unfold CapsuleLayer_forward.
  rewrite Hmode, Hcs. cbn [negb Z.eqb Pos.eqb bind attr map_result].
  destruct (@Conv2d_forward_size c x 0 ci h w co k s Hc Hx Hh Hw Hs)
    as (y & Ey & Sy).
  rewrite Ey, Hx. cbn [bind]. unfold view.
  rewrite infer_size_empty_batch. reflexivity.
Qed.

End ConvErrors.

Section NetAccepts.

(** The number of primary-capsule positions along an image side. *)
Local Abbreviation side n := ((n - 17) / 2 + 1).

Lemma primary_size_any (self : CapsuleNet) (x : tensor fnum) (nb H W : nat) :
  capsule_net self -> size x = [nb; 1; H; W] ->
  17 <= H -> 17 <= W -> 0 < nb ->
  exists y p,
    Conv2d_forward (conv1 self) x = Ok y /\
    size y = [nb; 256; H - 9 + 1; W - 9 + 1] /\
    CapsuleLayer_forward (primary_capsules self) (F_relu y) = Ok p /\
    size p = [nb; 32 * (side H * side W); 8].
Proof.
  intros Hnet Hx HH HW Hb.
  destruct Hnet as (Hc1 & Hmode & (cs & Hcs & Len & Hall) & _).
  destruct (@Conv2d_forward_size (conv1 self) x nb 1 H W 256 9 1 Hc1 Hx)
    as (y & Ey & Sy); [lia|lia|lia|].
  rewrite !Nat.div_1_r in Sy.
  assert (Sr : size (F_relu y) = [nb; 256; H - 9 + 1; W - 9 + 1]) by exact Sy.
  destruct (@conv_mode_spec (F_relu y) nb 256 (H - 9 + 1) (W - 9 + 1) 32 9 2
              Sr ltac:(lia) ltac:(lia) ltac:(lia) Hb
              (primary_capsules self) cs Hmode Hcs)
    as (ys & p & _ & Ep & Sp & _); [|assumption|].
  { intros ->. discriminate Len. }
  exists y, p. split; [assumption|]. split; [assumption|].
  split; [assumption|].
  rewrite Sp, Len. cbn [prod].
  replace (H - 9 + 1 - 9) with (H - 17) by lia.
  replace (W - 9 + 1 - 9) with (W - 17) by lia.
  f_equal. f_equal. lia.
Qed.

Lemma digit_vectors_any (self : CapsuleNet) (x : tensor fnum) (nb H W : nat) :
  capsule_net self -> size x = [nb; 1; H; W] ->
  17 <= H -> 17 <= W -> side H * side W = 36 -> 0 < nb ->
  exists v, digit_vectors self x = Ok v /\
            size v = if nb =? 1 then [16; 10] else [nb; 10; 16].
Proof.
  intros Hnet Hx HH HW Hside Hb.
  destruct (@primary_size_any self x nb H W Hnet Hx HH HW Hb) as (y & p & Ey & _ & Ep & Sp).
  rewrite Hside in Sp. change (32 * 36) with 1152 in Sp.
  destruct Hnet as (_ & _ & _ & (w & lg & Hd) & HT & _).
  unfold digit_vectors. rewrite Ey. cbn [bind]. rewrite Ep. cbn [bind].
  destruct (@forward_routing_spec (digit_capsules self) p w lg
              10 nb 1152 8 16 3 Hd HT) as (d & Ed & Sd & _);
    [lia | assumption | lia |].
  rewrite Ed. cbn [bind].
  pose proof (squeeze_routed d Sd) as Sq.
  unfold transpose, dim. rewrite Sq.
  destruct (nb =? 1); cbn [length]; ndim; cbn [bind];
    eexists; split; reflexivity.
Qed.

Lemma forward_any_returns (self : CapsuleNet) (x : tensor fnum)
  (nb H W : nat) :
  capsule_net self -> size x = [nb; 1; H; W] ->
  17 <= H -> 17 <= W -> side H * side W = 36 -> 2 <= nb ->
  exists classes reconstructions,
    CapsuleNet_forward self x = Ok (classes, reconstructions) /\
    size classes = [nb; 10] /\ size reconstructions = [nb; 784].
Proof.
  intros Hnet Hx HH HW Hside Hb.
  destruct (@digit_vectors_any self x nb H W Hnet Hx HH HW Hside) as (v & Ev & Sv); [lia|].
  destruct (Nat.eqb_spec nb 1) as [|_]; [lia|].
  destruct (class_activations_spec v Sv) as (cl & Ecl & Scl & _).
  destruct (masked_spec v cl Sv Scl) as (sel & Esel & Ssel & _); [lia|lia|].
  destruct (decoder_size sel Hnet Ssel) as (r & h & Er & Sr & _).
  exists cl, r. unfold CapsuleNet_forward.
  rewrite Ev. cbn [bind]. rewrite Ecl. cbn [bind]. rewrite Esel. cbn [bind].
  rewrite Er. cbn [bind]. repeat split; assumption.
Qed.

Lemma forward_any_raises (self : CapsuleNet) (x : tensor fnum)
  (nb c H W : nat) :
  capsule_net self -> size x = [nb; c; H; W] ->
  ~ (2 <= nb /\ c = 1 /\ 17 <= H /\ 17 <= W /\ side H * side W = 36) ->
  raises (CapsuleNet_forward self x).
Proof.
  intros Hnet Hx Hbad. unfold raises, CapsuleNet_forward, digit_vectors.
  pose proof Hnet as (Hc1 & Hmode & (cs & Hcs & Len & Hall) & (w & lg & Hd)
                        & HT & _).
  destruct cs as [|c0 cs']; [discriminate Len|].
  assert (Hc0 : conv_sizes c0 32 256 9 2) by (inversion Hall; assumption).
  (* the first convolution *)
  destruct (Nat.eq_dec c 1) as [Hc|Hc];
    [|rewrite (@Conv2d_forward_err (conv1 self) x nb 1 c H W 256 9 1 Hc1 Hx)
        by tauto; eexists; reflexivity].
  destruct (le_lt_dec 9 H) as [H9|H9];
    [|rewrite (@Conv2d_forward_err (conv1 self) x nb 1 c H W 256 9 1 Hc1 Hx)
        by tauto; eexists; reflexivity].
  destruct (le_lt_dec 9 W) as [W9|W9];
    [|rewrite (@Conv2d_forward_err (conv1 self) x nb 1 c H W 256 9 1 Hc1 Hx)
        by tauto; eexists; reflexivity].
  subst c.
  destruct (@Conv2d_forward_size (conv1 self) x nb 1 H W 256 9 1 Hc1 Hx)
    as (y & Ey & Sy); [lia|lia|lia|].
  rewrite !Nat.div_1_r in Sy.
  assert (Sr : size (F_relu y) = [nb; 256; H - 9 + 1; W - 9 + 1]) by exact Sy.
  rewrite Ey. cbn [bind].
  (* the primary capsules *)
  destruct (le_lt_dec 17 H) as [H17|H17].
  2:{ rewrite (@conv_mode_first_fails (primary_capsules self) c0 cs'
                 (F_relu y) RuntimeError Hmode Hcs).
      - eexists; reflexivity.
      - apply (@Conv2d_forward_err c0 (F_relu y) nb 256 256
                 (H - 9 + 1) (W - 9 + 1) 32 9 2 Hc0 Sr). right. left. lia. }
  destruct (le_lt_dec 17 W) as [W17|W17].
  2:{ rewrite (@conv_mode_first_fails (primary_capsules self) c0 cs'
                 (F_relu y) RuntimeError Hmode Hcs).
      - eexists; reflexivity.
      - apply (@Conv2d_forward_err c0 (F_relu y) nb 256 256
                 (H - 9 + 1) (W - 9 + 1) 32 9 2 Hc0 Sr). right. right. left. lia. }
  destruct (Nat.eq_dec nb 0) as [Hb0|Hb0].
  { subst nb.
    rewrite (@conv_mode_empty_batch (primary_capsules self) c0 cs' (F_relu y)
               256 (H - 9 + 1) (W - 9 + 1) 32 9 2 Hmode Hcs Hc0 Sr)
      by lia.
    eexists; reflexivity. }
  destruct (@primary_size_any self x nb H W Hnet Hx H17 W17) as (y' & p & Ey' & _ & Ep & Sp);
    [lia|].
  rewrite Ey in Ey'. injection Ey' as <-.
  rewrite Ep. cbn [bind].
  (* the digit capsules *)
  destruct (Nat.eq_dec (side H * side W) 36) as [Hside|Hside].
  2:{ rewrite (@routing_wrong_size_err (digit_capsules self) p w lg
                 10 nb 1152 (32 * (side H * side W)) 8 8 16 Hd Sp).
      - eexists; reflexivity.
      - right. repeat split; nia. }
  (* a batch of one *)
  assert (Hnb : nb = 1) by lia. subst nb.
  destruct (@digit_vectors_any self x 1 H W Hnet Hx H17 W17 Hside) as (v & Ev & Sv); [lia|].
  cbn [Nat.eqb] in Sv. unfold digit_vectors in Ev.
  rewrite Ey in Ev. cbn [bind] in Ev. rewrite Ep in Ev. cbn [bind] in Ev.
  rewrite Ev. cbn [bind].
  destruct (class_activations_2d v Sv) as (cl & Ecl & Scl).
  rewrite Ecl. cbn [bind]. rewrite (masked_1d v cl Scl).
  eexists; reflexivity.
Qed.

End NetAccepts.

Section ActivationBound.

Local Open Scope R_scope.

Lemma exp_ge_1 (x : R) : 0 <= x -> 1 <= exp x.
Proof.
  intros [H|H].
  - pose proof (exp_ineq1 x ltac:(lra)). lra.
  - rewrite <- H, exp_0. lra.
Qed.

Lemma rsum_lower (f : nat -> R) (n c : nat) :
  (forall j, (j < n)%nat -> 1 <= f j) -> (c < n)%nat ->
  f c + INR (n - 1) <= rsum f n.
Proof.
  induction n as [|n IH]; intros Hf Hc; [lia|]. cbn [rsum].
  replace (S n - 1)%nat with n by lia.
  destruct (Nat.eq_dec c n) as [->|Hne].
  - assert (INR n <= rsum f n).
    { clear IH Hc. induction n as [|n IH]; [cbn; lra|].
      rewrite S_INR. cbn [rsum].
      assert (1 <= f n) by (apply Hf; lia).
      assert (INR n <= rsum f n) by (apply IH; intros; apply Hf; lia). lra. }
    lra.
  - assert (Hn : (c < n)%nat) by lia.
    specialize (IH (fun j Hj => Hf j ltac:(lia)) Hn).
    assert (1 <= f n) by (apply Hf; lia).
    destruct n as [|n]; [lia|].
    replace (S n - 1)%nat with n in IH by lia. rewrite S_INR. lra.
Qed.

(** A softmax over ten numbers of [0, 1): every entry is below 1/4. *)
Lemma softmax_of_norms_below_quarter (g : nat -> R) (c : nat) :
  (forall j, (j < 10)%nat -> 0 <= g j < 1) -> (c < 10)%nat ->
  exp (g c) / rsum (fun j => exp (g j)) 10 < 1 / 4.
Proof.
  intros Hg Hc.
  assert (Hlow : exp (g c) + INR (10 - 1) <= rsum (fun j => exp (g j)) 10).
  { apply (rsum_lower (fun j => exp (g j))); [|assumption].
    intros j Hj. apply exp_ge_1. apply (Hg j Hj). }
  change (INR (10 - 1)) with (INR 9) in Hlow.
  replace (INR 9) with 9 in Hlow by (cbn; ring).
  assert (He : exp (g c) < 3).
  { apply Rlt_le_trans with (exp 1); [|apply exp_le_3].
    apply exp_increasing. apply (Hg c Hc). }
  pose proof (exp_pos (g c)) as Hp.
  set (E := exp (g c)) in *. set (S := rsum (fun j => exp (g j)) 10) in *.
  apply (Rmult_lt_reg_r S); [lra|].
  unfold Rdiv. rewrite Rmult_assoc, Rinv_l by lra. lra.
Qed.

End ActivationBound.

Section DigitVectors.

Lemma squeeze_routed_elt (t : tensor fnum) (nb j b k : nat) :
  size t = [10; nb; 1; 1; 16] -> nb <> 1 ->
  elt (squeeze t) [j; b; k] = elt t [j; b; 0; 0; k].
Proof.
  intros H Hnb. unfold squeeze. cbn [elt]. rewrite H.
  cbn [unsqueeze_idx Nat.eqb].
  destruct (Nat.eqb_spec nb 1); [contradiction|]. reflexivity.
Qed.

(** For a batch of two or more: every digit-capsule vector is the squash
    of some vector. *)
Lemma digit_vectors_squashed (self : CapsuleNet) (x : tensor fnum)
  (nb H W : nat) :
  capsule_net self -> size x = [nb; 1; H; W] ->
  17 <= H -> 17 <= W -> ((H - 17) / 2 + 1) * ((W - 17) / 2 + 1) = 36 ->
  2 <= nb ->
  exists v, digit_vectors self x = Ok v /\ size v = [nb; 10; 16] /\
    forall b j, b < nb -> j < 10 ->
      exists s : nat -> fnum,
        forall k, k < 16 -> elt v [b; j; k] = Spec.squash_vec 16 s k.
Proof.
  intros Hnet Hx HH HW Hside Hb.
  destruct (@primary_size_any self x nb H W Hnet Hx HH HW)
    as (y & p & Ey & _ & Ep & Sp); [lia|].
  rewrite Hside in Sp. change (32 * 36) with 1152 in Sp.
  destruct Hnet as (_ & _ & _ & (w & lg & Hd) & HT & _).
  unfold digit_vectors. rewrite Ey. cbn [bind]. rewrite Ep. cbn [bind].
  destruct (@forward_routing_spec (digit_capsules self) p w lg
              10 nb 1152 8 16 3 Hd HT) as (d & Ed & Sd & Vd);
    [lia | assumption | lia |].
  rewrite Ed. cbn [bind].
  pose proof (squeeze_routed d Sd) as Sq.
  destruct (Nat.eqb_spec nb 1) as [|Hne]; [lia|].
  unfold transpose, dim. rewrite Sq. cbn [length]. ndim. cbn [bind].
  eexists. split; [reflexivity|]. split; [reflexivity|].
  intros b j Hb' Hj.
  exists (Spec.weighted_sum 1152 (Spec.vote 8 p w j b)
            (Spec.logits_after 1152 16 (Spec.vote 8 p w j b) (3 - 1)
               (fun n => elt lg [j; 0; n; 0; 0]))).
  intros k Hk. cbn [elt swap upd nth].
  rewrite (squeeze_routed_elt d j b k Sd Hne).
  rewrite Vd by assumption. reflexivity.
Qed.

End DigitVectors.

Section Rows.

Lemma fsum_nan (f : nat -> fnum) (n k : nat) :
  k < n -> f k = NaN -> fsum f n = NaN.
Proof.
  induction n as [|n IH]; intros Hk Hf; [lia|].
  change (fsum f (S n)) with (fadd (fsum f n) (f n)).
  destruct (Nat.eq_dec k n) as [->|Hne].
  - rewrite Hf. destruct (fsum f n); reflexivity.
  - rewrite IH by (try assumption; lia). reflexivity.
Qed.

Lemma some_or_all (P Q : nat -> Prop) (n : nat) :
  (forall j, j < n -> P j \/ Q j) ->
  (exists j, j < n /\ P j) \/ (forall j, j < n -> Q j).
Proof.
  induction n as [|n IH]; intros H.
  - right. intros j Hj. lia.
  - destruct IH as [(j & Hj & Pj) | Hall].
    + intros j Hj. apply H. lia.
    + left. exists j. split; [lia | assumption].
    + destruct (H n ltac:(lia)) as [Pn|Qn].
      * left. exists n. split; [lia | assumption].
      * right. intros j Hj. destruct (Nat.eq_dec j n) as [->|];
          [assumption | apply Hall; lia].
Qed.

(** The norm of a squashed vector: NaN, or a number of [0, 1). *)
Lemma squashed_norm (D : nat) (u s : nat -> fnum) :
  0 < D ->
  (forall k, k < D -> u k = Spec.squash_vec D s k) ->
  fsqrt (Spec.sqnorm D u) = NaN \/
  exists r, fsqrt (Spec.sqnorm D u) = Real r /\ Rle 0 r /\ Rlt r 1.
Proof.
  intros HD Hu.
  destruct (squash_vec_dichotomy D s) as [Hnan | (h & Hh & Hlt)].
  - left. unfold Spec.sqnorm.
    rewrite (@fsum_nan _ D 0); [reflexivity | assumption |].
    rewrite Hu, Hnan by assumption. reflexivity.
  - right. exists (sqrt (rsum (fun d => Rmult (h d) (h d)) D)).
    split; [|split].
    + rewrite (@sqnorm_real D u h)
        by (intros k Hk; rewrite Hu, Hh by assumption; reflexivity).
      apply fsqrt_real. apply rsum_nonneg. intros. nra.
    + apply sqrt_pos.
    + assumption.
Qed.

(** One row of class activations: the softmax of ten such norms. *)
Lemma activation_row (nrm : nat -> fnum) :
  (forall j, j < 10 ->
     nrm j = NaN \/ exists r, nrm j = Real r /\ Rle 0 r /\ Rlt r 1) ->
  (forall c, c < 10 -> Spec.softmax_vec 10 nrm c = NaN) \/
  (exists p : nat -> R,
     (forall c, c < 10 ->
        Spec.softmax_vec 10 nrm c = Real (p c) /\
        Rlt 0 (p c) /\ Rlt (p c) (1 / 4)) /\
     rsum p 10 = 1%R).
Proof.
  intros H. destruct (some_or_all _ _ H) as [(j & Hj & Hn) | Hall].
  - left. intros c Hc. unfold Spec.softmax_vec.
    rewrite (@fsum_nan _ 10 j); [| assumption | rewrite Hn; reflexivity].
    destruct (fexp (nrm c)); reflexivity.
  - right.
    assert (Hg : forall j, j < 10 -> nrm j = Real (rv (nrm j)))
      by (intros j Hj; destruct (Hall j Hj) as (r & -> & _); reflexivity).
    assert (Hr : forall j, j < 10 -> Rle 0 (rv (nrm j)) /\ Rlt (rv (nrm j)) 1)
      by (intros j Hj; destruct (Hall j Hj) as (r & -> & Hr); exact Hr).
    set (g := fun j => rv (nrm j)) in *.
    assert (Hpos : Rlt 0 (rsum (fun j => exp (g j)) 10))
      by (apply rsum_pos; [lia | intros; apply exp_pos]).
    exists (fun c => Rdiv (exp (g c)) (rsum (fun j => exp (g j)) 10)).
    split.
    + intros c Hc. split; [|split].
      * apply (@softmax_vec_real 10 nrm g Hg); [lia | assumption].
      * apply Rdiv_lt_0_compat; [apply exp_pos | assumption].
      * apply softmax_of_norms_below_quarter; assumption.
    + rewrite rsum_div. field. lra.
Qed.

End Rows.

Section NetExtras.

Local Abbreviation side n := ((n - 17) / 2 + 1).

(** The two outputs of the forward call on an accepted batch. *)
Lemma forward_outputs_spec (self : CapsuleNet) (x : tensor fnum)
  (nb H W : nat) :
  capsule_net self -> size x = [nb; 1; H; W] ->
  17 <= H -> 17 <= W -> side H * side W = 36 -> 2 <= nb ->
  exists classes reconstructions,
    CapsuleNet_forward self x = Ok (classes, reconstructions) /\
    size classes = [nb; 10] /\ size reconstructions = [nb; 784] /\
    (forall b, b < nb ->
      (forall c, c < 10 -> elt classes [b; c] = NaN) \/
      (exists p : nat -> R,
         (forall c, c < 10 ->
            elt classes [b; c] = Real (p c) /\
            Rlt 0 (p c) /\ Rlt (p c) (1 / 4)) /\
         rsum p 10 = 1%R)) /\
    (forall ix,
      elt reconstructions ix = NaN \/
      exists r, elt reconstructions ix = Real r /\ Rlt 0 r /\ Rlt r 1).
Proof.
  intros Hnet Hx HH HW Hs Hb.
  destruct (@digit_vectors_squashed self x nb H W Hnet Hx HH HW Hs Hb)
    as (v & Ev & Sv & Vv).
  destruct (class_activations_spec v Sv) as (cl & Ecl & Scl & Vcl).
  destruct (masked_spec v cl Sv Scl) as (sel & Esel & Ssel & _); [lia|lia|].
  destruct (decoder_size sel Hnet Ssel) as (r & h & Er & Sr & Vr).
  exists cl, r. unfold CapsuleNet_forward.
  rewrite Ev. cbn [bind]. rewrite Ecl. cbn [bind]. rewrite Esel. cbn [bind].
  rewrite Er. cbn [bind].
  split; [reflexivity|]. split; [assumption|]. split; [assumption|]. split.
  - intros b Hb'.
    destruct (@activation_row
                (fun j => fsqrt (Spec.sqnorm 16 (fun k => elt v [b; j; k]))))
      as [Hnan | (p & Hp & Hsum)].
    + intros j Hj. destruct (Vv b j Hb' Hj) as (s & Hsq).
      apply (@squashed_norm 16 _ s); [lia | assumption].
    + left. intros c Hc. rewrite Vcl by assumption. apply Hnan. assumption.
    + right. exists p. split; [|assumption].
      intros c Hc. rewrite Vcl by assumption. apply Hp. assumption.
  - intros ix. rewrite Vr. destruct (elt h ix) as [y|].
    + right. destruct (fsigmoid_range y) as (s & Es & Hs0 & Hs1).
      exists s. repeat split; assumption.
    + left. reflexivity.
Qed.

(** X10.  The forward call of the network returns exactly on a batch of at
    least two one-channel images whose sides give 36 primary-capsule
    positions ([((H-17)/2+1) * ((W-17)/2+1) = 36], as for 28x28); on every
    other four-axis input it raises. *)
Theorem forward_returns_iff (self : CapsuleNet) (x : tensor fnum)
  (nb c H W : nat) :
  capsule_net self -> size x = [nb; c; H; W] ->
  ((exists out, CapsuleNet_forward self x = Ok out) <->
   (2 <= nb /\ c = 1 /\ 17 <= H /\ 17 <= W /\ side H * side W = 36)).
Proof.
  intros Hnet Hx. split.
  - intros (out & Eout).
    destruct (le_lt_dec 2 nb) as [Hb|Hb];
    destruct (Nat.eq_dec c 1) as [Hc|Hc];
    destruct (le_lt_dec 17 H) as [HH|HH];
    destruct (le_lt_dec 17 W) as [HW|HW];
    destruct (Nat.eq_dec (side H * side W) 36) as [Hs|Hs];
    try (repeat split; assumption);
    exfalso;
    (destruct (@forward_any_raises self x nb c H W Hnet Hx) as (e & Ee);
     [intros (? & ? & ? & ? & ?); lia | rewrite Ee in Eout; discriminate]).
  - intros (Hb & Hc & HH & HW & Hs). subst c.
    destruct (@forward_any_returns self x nb H W Hnet Hx HH HW Hs Hb)
      as (cl & r & E & _). exists (cl, r). assumption.
Qed.

Lemma forward_returns_iff_witness :
  (exists out, CapsuleNet_forward example_net (zeros [2; 1; 28; 28]) = Ok out)
  <-> (2 <= 2 /\ 1 = 1 /\ 17 <= 28 /\ 17 <= 28 /\ side 28 * side 28 = 36).
Proof.
  apply (@forward_returns_iff example_net (zeros [2; 1; 28; 28]) 2 1 28 28).
  - exact example_net_ok.
  - reflexivity.
Defined.

(** X12.  On every batch that the forward call accepts, the class
    activations have
    size [[batch; 10]] and each row is either NaN throughout or ten
    numbers in (0, 1/4) that add up to 1: an activation never reaches the
    0.9 that the margin loss asks of the true class. *)
Theorem class_activations_range (self : CapsuleNet) (x : tensor fnum)
  (nb H W : nat) :
  capsule_net self -> size x = [nb; 1; H; W] ->
  17 <= H -> 17 <= W -> side H * side W = 36 -> 2 <= nb ->
  exists classes reconstructions,
    CapsuleNet_forward self x = Ok (classes, reconstructions) /\
    size classes = [nb; 10] /\
    forall b, b < nb ->
      (forall c, c < 10 -> elt classes [b; c] = NaN) \/
      (exists p : nat -> R,
         (forall c, c < 10 ->
            elt classes [b; c] = Real (p c) /\
            Rlt 0 (p c) /\ Rlt (p c) (1 / 4)) /\
         rsum p 10 = 1%R).
Proof.
  intros Hnet Hx HH HW Hs Hb.
  destruct (@forward_outputs_spec self x nb H W Hnet Hx HH HW Hs Hb)
    as (cl & r & E & Scl & _ & Hrows & _).
  exists cl, r. repeat split; assumption.
Qed.

Lemma class_activations_range_witness :
  exists classes reconstructions,
    CapsuleNet_forward example_net (zeros [2; 1; 28; 28])
      = Ok (classes, reconstructions) /\
    size classes = [2; 10] /\
    forall b, b < 2 ->
      (forall c, c < 10 -> elt classes [b; c] = NaN) \/
      (exists p : nat -> R,
         (forall c, c < 10 ->
            elt classes [b; c] = Real (p c) /\
            Rlt 0 (p c) /\ Rlt (p c) (1 / 4)) /\
         rsum p 10 = 1%R).
Proof.
  apply (@class_activations_range example_net (zeros [2; 1; 28; 28]) 2 28 28).
  - exact example_net_ok.
  - reflexivity.
  - lia.
  - lia.
  - reflexivity.
  - lia.
Defined.

(** X13.  On every batch that the forward call accepts, the
    reconstruction has size
    [[batch; 784]] and every element of it is NaN or a number between 0
    and 1. *)
Theorem reconstruction_range (self : CapsuleNet) (x : tensor fnum)
  (nb H W : nat) :
  capsule_net self -> size x = [nb; 1; H; W] ->
  17 <= H -> 17 <= W -> side H * side W = 36 -> 2 <= nb ->
  exists classes reconstructions,
    CapsuleNet_forward self x = Ok (classes, reconstructions) /\
    size reconstructions = [nb; 784] /\
    forall ix,
      elt reconstructions ix = NaN \/
      exists r, elt reconstructions ix = Real r /\ Rle 0 r /\ Rle r 1.
Proof.
  intros Hnet Hx HH HW Hs Hb.
  destruct (@forward_outputs_spec self x nb H W Hnet Hx HH HW Hs Hb)
    as (cl & r & E & _ & Sr & _ & Hrec).
  exists cl, r. split; [assumption|]. split; [assumption|].
  intros ix. destruct (Hrec ix) as [Hn | (q & Eq & H0 & H1)].
  - left. assumption.
  - right. exists q. split; [assumption|]. split; apply Rlt_le; assumption.
Qed.

Lemma reconstruction_range_witness :
  exists classes reconstructions,
    CapsuleNet_forward example_net (zeros [2; 1; 28; 28])
      = Ok (classes, reconstructions) /\
    size reconstructions = [2; 784] /\
    forall ix,
      elt reconstructions ix = NaN \/
      exists r, elt reconstructions ix = Real r /\ Rle 0 r /\ Rle r 1.
Proof.
  apply (@reconstruction_range example_net (zeros [2; 1; 28; 28]) 2 28 28).
  - exact example_net_ok.
  - reflexivity.
  - lia.
  - lia.
  - reflexivity.
  - lia.
Defined.

End NetExtras.

Section LossExtras.

Local Open Scope R_scope.

(** One class's term of the margin loss, on numbers that may be NaN. *)
Local Abbreviation fterm l a :=
  (fadd (fmul l (fsquare (fclamp_min 0 (fsub (Real 0.9) a))))
        (fmul (fmul (Real 0.5) (fsub (Real 1) l))
              (fsquare (fclamp_min 0 (fsub a (Real 0.1)))))).

Lemma margin_loss_rows (labels classes : tensor fnum) (B C : nat) :
  size labels = [B; C] -> size classes = [B; C] ->
  margin_loss labels classes =
  Ok (fdiv (fsum (fun b => fsum (fun c =>
              fterm (elt labels [b; c]) (elt classes [b; c])) C) B)
           (Real (INR B))).
Proof.
  intros Slab Scls. unfold margin_loss. trun.
  unfold mean, sum_all, numel. cbn [size elt remove_at firstn skipn app prod].
  rewrite Nat.mul_1_r. f_equal. f_equal.
  apply fsum_ext. intros b Hb. rewrite unravel_1d.
  cbn [insert_at firstn skipn app].
  apply fsum_ext. intros c Hc. erun. reflexivity.
Qed.

Lemma fterm_nan (l : fnum) : fterm l NaN = NaN.
Proof. destruct l; reflexivity. Qed.

Lemma fterm_real (l a : R) :
  fterm (Real l) (Real a) = Real (Spec.margin_term l a).
Proof.
  unfold Spec.margin_term.
  cbv [fadd fsub fmul fsquare fclamp_min lift1 lift2]. f_equal. ring.
Qed.

Lemma fsum_nonneg (f : nat -> fnum) (n : nat) :
  (forall k, (k < n)%nat -> f k = NaN \/ exists r, f k = Real r /\ 0 <= r) ->
  fsum f n = NaN \/ exists r, fsum f n = Real r /\ 0 <= r.
Proof.
  induction n as [|n IH]; intros H.
  - right. exists 0. split; [reflexivity | lra].
  - change (fsum f (S n)) with (fadd (fsum f n) (f n)).
    destruct IH as [-> | (r & -> & Hr)].
    + intros k Hk. apply H. lia.
    + left. reflexivity.
    + destruct (H n (Nat.lt_succ_diag_r n)) as [-> | (q & -> & Hq)].
      * left. reflexivity.
      * right. exists (r + q). split; [reflexivity | lra].
Qed.

Lemma fdiv_count_nonneg (x : fnum) (n : nat) :
  (x = NaN \/ exists r, x = Real r /\ 0 <= r) ->
  fdiv x (Real (INR n)) = NaN \/
  exists r, fdiv x (Real (INR n)) = Real r /\ 0 <= r.
Proof.
  intros [-> | (r & -> & Hr)]; [left; reflexivity|].
  destruct (Nat.eq_dec n 0) as [->|Hn].
  - left. apply fdiv_zero.
  - right. exists (r / INR n). split.
    + apply fdiv_real. apply not_0_INR. assumption.
    + apply Rle_mult_inv_pos; [assumption|]. apply lt_0_INR. lia.
Qed.

Lemma MSELoss_nonneg (input target : tensor fnum) (v : fnum) :
  MSELoss input target = Ok v ->
  v = NaN \/ exists r, v = Real r /\ 0 <= r.
Proof.
  unfold MSELoss. destruct (numel input =? numel target)%nat; [|discriminate].
  intros E. injection E as <-.
  apply fdiv_count_nonneg. apply fsum_nonneg.
  intros k _.
  destruct (elt input (unravel (size input) k)) as [a|];
    destruct (elt target (unravel (size target) k)) as [b|];
    try (left; reflexivity).
  right. exists ((a - b) * (a - b)). split; [reflexivity | apply Rle_0_sqr].
Qed.

Lemma margin_term_nonneg (l a : R) :
  0 <= l <= 1 -> 0 <= Spec.margin_term l a.
Proof.
  intros Hl. unfold Spec.margin_term.
  assert (0 <= Rmax 0 (0.9 - a) ^ 2) by (apply pow2_ge_0).
  assert (0 <= Rmax 0 (a - 0.1) ^ 2) by (apply pow2_ge_0).
  nra.
Qed.

(** The margin loss with labels in [0, 1]: NaN or a number that is not
    negative. *)
Lemma margin_loss_nonneg (labels classes : tensor fnum) (B C : nat)
  (lab : nat -> nat -> R) :
  size labels = [B; C] -> size classes = [B; C] ->
  (forall b c, (b < B)%nat -> (c < C)%nat ->
     elt labels [b; c] = Real (lab b c) /\ 0 <= lab b c <= 1) ->
  exists v, margin_loss labels classes = Ok v /\
    (v = NaN \/ exists r, v = Real r /\ 0 <= r).
Proof.
  intros Slab Scls Vlab.
  rewrite (margin_loss_rows labels classes Slab Scls).
  eexists. split; [reflexivity|].
  apply fdiv_count_nonneg. apply fsum_nonneg. intros b Hb.
  apply fsum_nonneg. intros c Hc.
  destruct (Vlab b c Hb Hc) as (-> & Hl).
  destruct (elt classes [b; c]) as [a|].
  - right. exists (Spec.margin_term (lab b c) a).
    split; [apply fterm_real | apply margin_term_nonneg; assumption].
  - left. reflexivity.
Qed.

(** X15.  With every label a number in [0, 1], activations of the size of
    the labels and reconstructions of the size of the images, the loss
    returns and is never a negative number: it is NaN or at least 0,
    whatever the activations, reconstructions and images hold. *)
Theorem capsule_loss_nonnegative
  (images labels classes reconstructions : tensor fnum) (B C : nat)
  (lab : nat -> nat -> R) :
  size labels = [B; C] -> size classes = [B; C] ->
  (forall b c, (b < B)%nat -> (c < C)%nat ->
     elt labels [b; c] = Real (lab b c) /\ 0 <= lab b c <= 1) ->
  size reconstructions = size images ->
  exists v, CapsuleLoss_forward images labels classes reconstructions = Ok v /\
    (v = NaN \/ exists r, v = Real r /\ 0 <= r).
Proof.
  intros Slab Scls Vlab Hsz.
  destruct (margin_loss_nonneg labels classes lab Slab Scls Vlab)
    as (m & Em & Hm).
  unfold CapsuleLoss_forward. rewrite Em. cbn [bind].
  destruct (MSELoss reconstructions images) as [q|e] eqn:Eq.
  - cbn [bind]. eexists. split; [reflexivity|].
    destruct Hm as [-> | (rm & -> & Hrm)]; [left; reflexivity|].
    destruct (MSELoss_nonneg _ _ Eq) as [-> | (rq & -> & Hrq)];
      [left; reflexivity|].
    right. exists (rm + 0.0005 * rq). split; [reflexivity | lra].
  - exfalso. unfold MSELoss, numel in Eq.
    rewrite Hsz, Nat.eqb_refl in Eq. discriminate.
Qed.

Lemma capsule_loss_nonnegative_witness :
  exists v, CapsuleLoss_forward label_first label_first inside_margins
              inside_margins = Ok v /\
    (v = NaN \/ exists r, v = Real r /\ 0 <= r).
Proof.
  apply (@capsule_loss_nonnegative label_first label_first inside_margins
           inside_margins 1 2
           (fun _ c => match c with O => 1 | _ => 0 end)).
  - reflexivity.
  - reflexivity.
  - intros b c Hb Hc. destruct c as [|[|c]]; [split; [reflexivity|lra] ..|lia].
  - reflexivity.
Defined.

End LossExtras.

Section RealSums.

Local Open Scope R_scope.

Lemma rsum_ge_term (f : nat -> R) (n k : nat) :
  (forall c, (c < n)%nat -> 0 <= f c) -> (k < n)%nat -> f k <= rsum f n.
Proof.
  induction n as [|n IH]; intros Hf Hk; [lia|]. cbn [rsum].
  assert (Hn : 0 <= f n) by (apply Hf; lia).
  destruct (Nat.eq_dec k n) as [->|Hne].
  - assert (0 <= rsum f n) by (apply rsum_nonneg; intros; apply Hf; lia). lra.
  - assert (f k <= rsum f n) by (apply IH; [intros; apply Hf|]; lia). lra.
Qed.

Lemma rsum_gt (f : nat -> R) (m : R) (n : nat) :
  (forall b, (b < n)%nat -> m < f b) -> (0 < n)%nat ->
  INR n * m < rsum f n.
Proof.
  induction n as [|n IH]; intros Hf Hn; [lia|].
  rewrite S_INR. cbn [rsum].
  assert (m < f n) by (apply Hf; lia).
  destruct (Nat.eq_dec n 0) as [->|Hne].
  - cbn [rsum INR]. lra.
  - assert (INR n * m < rsum f n) by (apply IH; [intros; apply Hf|]; lia).
    lra.
Qed.

Lemma margin_term_below_quarter (a : R) :
  a < 1 / 4 -> 0.4225 < Spec.margin_term 1 a.
Proof.
  intros Ha. rewrite margin_term_true.
  rewrite Rmax_right by lra. nra.
Qed.

End RealSums.

Section MarginOfOutputs.

(** The margin loss on one-hot labels and activations whose rows are NaN
    or numbers below 1/4. *)
Lemma margin_of_low_activations (labels classes : tensor fnum) (nb : nat)
  (y : nat -> nat) :
  size labels = [nb; 10] -> size classes = [nb; 10] -> 0 < nb ->
  (forall b c, b < nb -> c < 10 ->
     elt labels [b; c] = Real (if y b =? c then 1%R else 0%R)) ->
  (forall b, b < nb -> y b < 10) ->
  (forall b, b < nb ->
     (forall c, c < 10 -> elt classes [b; c] = NaN) \/
     (exists p : nat -> R,
        (forall c, c < 10 ->
           elt classes [b; c] = Real (p c) /\
           Rlt 0 (p c) /\ Rlt (p c) (1 / 4)) /\
        rsum p 10 = 1%R)) ->
  exists v, margin_loss labels classes = Ok v /\
    (v = NaN \/ exists r, v = Real r /\ (0.4225 < r)%R).
Proof.
  intros Slab Scls Hnb Vlab Hy Hrows.
  destruct (some_or_all _ _ Hrows) as [(b & Hb & Hnan) | Hall].
  - rewrite (margin_loss_rows labels classes Slab Scls).
    eexists. split; [reflexivity|]. left.
    rewrite (@fsum_nan _ nb b); [reflexivity | assumption |].
    apply (@fsum_nan _ 10 0); [lia|].
    rewrite (Hnan 0) by lia. apply fterm_nan.
  - set (act := fun b c => rv (elt classes [b; c])).
    assert (Vcls : forall b c, b < nb -> c < 10 ->
                     elt classes [b; c] = Real (act b c) /\
                     (act b c < 1 / 4)%R).
    { intros b c Hb Hc. unfold act.
      destruct (Hall b Hb) as (p & Hp & _).
      destruct (Hp c Hc) as (-> & _ & Hlt). split; [reflexivity | exact Hlt]. }
    rewrite (@margin_loss_real labels classes nb 10
               (fun b c => if y b =? c then 1%R else 0%R) act Slab Scls Vlab
               (fun b c Hb Hc => proj1 (Vcls b c Hb Hc)) Hnb).
    eexists. split; [reflexivity|]. right. eexists. split; [reflexivity|].
    assert (Hpos : (0 < INR nb)%R) by (apply lt_0_INR; assumption).
    apply (Rmult_lt_reg_r (INR nb)); [assumption|].
    unfold Rdiv. rewrite Rmult_assoc, Rinv_l, Rmult_1_r by lra.
    rewrite Rmult_comm. apply rsum_gt; [|assumption].
    intros b Hb.
    apply Rlt_le_trans with
      (Spec.margin_term (if y b =? y b then 1 else 0) (act b (y b))).
    + rewrite Nat.eqb_refl. apply margin_term_below_quarter.
      apply (Vcls b (y b) Hb (Hy b Hb)).
    + apply (@rsum_ge_term
               (fun c => Spec.margin_term (if y b =? c then 1 else 0)
                           (act b c)) 10 (y b)); [|apply Hy; assumption].
      intros c Hc. apply margin_term_nonneg.
      destruct (y b =? c); lra.
Qed.

(** X17.  The margin loss of the network's own class activations, on any
    batch that forward accepts and any one-hot labels, is NaN or greater
    than 0.4225 = (0.9 - 0.25)^2, whatever the parameters of the network:
    the activations are a softmax over ten norms below 1, so the true
    class never gets more than 1/4 and its margin term never vanishes. *)
Theorem margin_loss_lower_bound (self : CapsuleNet) (x labels : tensor fnum)
  (nb H W : nat) (y : nat -> nat) :
  capsule_net self -> size x = [nb; 1; H; W] ->
  17 <= H -> 17 <= W -> ((H - 17) / 2 + 1) * ((W - 17) / 2 + 1) = 36 ->
  2 <= nb ->
  size labels = [nb; 10] ->
  (forall b c, b < nb -> c < 10 ->
     elt labels [b; c] = Real (if y b =? c then 1%R else 0%R)) ->
  (forall b, b < nb -> y b < 10) ->
  exists classes reconstructions v,
    CapsuleNet_forward self x = Ok (classes, reconstructions) /\
    margin_loss labels classes = Ok v /\
    (v = NaN \/ exists r, v = Real r /\ (0.4225 < r)%R).
Proof.
  intros Hnet Hx HH HW Hs Hnb Slab Vlab Hy.
  destruct (@forward_outputs_spec self x nb H W Hnet Hx HH HW Hs Hnb)
    as (cl & r & E & Scl & _ & Hrows & _).
  destruct (@margin_of_low_activations labels cl nb y Slab Scl ltac:(lia)
              Vlab Hy Hrows) as (v & Ev & Hv).
  exists cl, r, v. repeat split; assumption.
Qed.

Lemma margin_loss_lower_bound_witness :
  exists classes reconstructions v,
    CapsuleNet_forward example_net (zeros [2; 1; 28; 28])
      = Ok (classes, reconstructions) /\
    margin_loss example_labels classes = Ok v /\
    (v = NaN \/ exists r, v = Real r /\ (0.4225 < r)%R).
Proof.
  apply (@margin_loss_lower_bound example_net (zeros [2; 1; 28; 28])
           example_labels 2 28 28 (fun _ => 3)).
  - exact example_net_ok.
  - reflexivity.
  - lia.
  - lia.
  - reflexivity.
  - lia.
  - reflexivity.
  - intros b c Hb Hc. reflexivity.
  - intros b Hb. lia.
Defined.

End MarginOfOutputs.

Section ConvExtras.

Lemma CapsuleLayer_init_conv (K ci co k s : nat) (T : Z) (rnd : samples)
  (self : CapsuleLayer) :
  CapsuleLayer_init K (-1) ci co (Some k) (Some s) T rnd = Ok self ->
  num_route_nodes self = (-1)%Z /\
  exists cs, capsules self = Some cs /\ length cs = K /\
             Forall (fun c => conv_sizes c co ci k s) cs.
Proof.
  unfold CapsuleLayer_init. cbn [negb Z.eqb Pos.eqb].
  intros E. injection E as <-. split; [reflexivity|].
  eexists. split; [reflexivity|]. split.
  - rewrite length_map, length_seq. reflexivity.
  - apply Forall_forall. intros c Hc. apply in_map_iff in Hc.
    destruct Hc as (i & <- & _). repeat split.
Qed.

(** X18.  In convolution mode, on an input of size [[nb; ci; h; w]] that
    the convolutions accept, forward returns size
    [[nb; co * h' * w'; K]] for [K] capsules of [co] channels, with
    [h' = (h - k) / s + 1] and likewise [w']: the element at [[b; n; j]] is
    component [j] of the squash of the [K] convolutions' values at the
    flattened position [n], so a capsule vector runs across the [K]
    convolutions. *)
Theorem conv_mode_output (self : CapsuleLayer) (cs : list Conv2d)
  (x : tensor fnum) (nb ci h w co k s : nat) :
  num_route_nodes self = (-1)%Z -> capsules self = Some cs ->
  cs <> [] -> Forall (fun c => conv_sizes c co ci k s) cs ->
  size x = [nb; ci; h; w] -> k <= h -> k <= w -> 0 < s -> 0 < nb ->
  exists ys o,
    Forall2 (fun c y => Conv2d_forward c x = Ok y) cs ys /\
    CapsuleLayer_forward self x = Ok o /\
    size o = [nb; co * (((h - k) / s + 1) * ((w - k) / s + 1)); length cs] /\
    forall b n j,
      b < nb -> n < co * (((h - k) / s + 1) * ((w - k) / s + 1)) ->
      j < length cs ->
      elt o [b; n; j] =
      Spec.squash_vec (length cs)
        (fun j' => elt (nth j' ys (zeros []))
                     (b :: unravel [co; (h - k) / s + 1; (w - k) / s + 1] n)) j.
Proof.
  intros Hmode Hcs Hne Hall Hx Hkh Hkw Hs Hnb.
  destruct (@conv_mode_spec x nb ci h w co k s Hx Hkh Hkw Hs Hnb self cs
              Hmode Hcs Hne Hall) as (ys & o & Hys & Eo & So & Vo).
  cbn [prod] in So, Vo. rewrite Nat.mul_1_r in So, Vo.
  exists ys, o. repeat split; assumption.
Qed.

Lemma conv_mode_output_witness :
  exists ys o,
    Forall2 (fun c y => Conv2d_forward c (zeros [1; 1; 2; 2]) = Ok y)
      (map (fun i => Conv2d_init 1 1 1 1 (example_samples (2 * i))
                       (example_samples (2 * i + 1))) (seq 0 2)) ys /\
    CapsuleLayer_forward small_conv_layer (zeros [1; 1; 2; 2]) = Ok o /\
    size o = [1; 1 * (((2 - 1) / 1 + 1) * ((2 - 1) / 1 + 1)); 2] /\
    forall b n j,
      b < 1 -> n < 1 * (((2 - 1) / 1 + 1) * ((2 - 1) / 1 + 1)) -> j < 2 ->
      elt o [b; n; j] =
      Spec.squash_vec 2
        (fun j' => elt (nth j' ys (zeros []))
                     (b :: unravel [1; (2 - 1) / 1 + 1; (2 - 1) / 1 + 1] n)) j.
Proof.
  apply (@conv_mode_output small_conv_layer
           (map (fun i => Conv2d_init 1 1 1 1 (example_samples (2 * i))
                            (example_samples (2 * i + 1))) (seq 0 2))
           (zeros [1; 1; 2; 2]) 1 1 2 2 1 1 1).
  - reflexivity.
  - reflexivity.
  - discriminate.
  - repeat constructor.
  - reflexivity.
  - lia.
  - lia.
  - lia.
  - lia.
Defined.



(** X20.  A convolution-mode layer built by [__init__] with [K] capsules,
    [ci] input channels, a [k]x[k] kernel and stride [s] returns from
    forward on a four-axis input exactly when it has at least one capsule,
    the input has [ci] channels, is at least [k] high and wide, the batch
    is not empty and the stride is not zero; otherwise forward raises.
    (Kernel and channel counts of at least 1, as [nn.Conv2d] takes.) *)
Theorem conv_layer_returns_iff (K ci co k s : nat) (T : Z) (rnd : samples)
  (self : CapsuleLayer) (x : tensor fnum) (nb ci' h w : nat) :
  CapsuleLayer_init K (-1) ci co (Some k) (Some s) T rnd = Ok self ->
  size x = [nb; ci'; h; w] -> 0 < k -> 0 < co -> 0 < ci ->
  ((exists o, CapsuleLayer_forward self x = Ok o) <->
   (0 < K /\ ci' = ci /\ k <= h /\ k <= w /\ 0 < s /\ 0 < nb)).
Proof.
  intros Hinit Hx Hk Hco Hci.
  destruct (CapsuleLayer_init_conv Hinit)
    as (Hmode & cs & Hcs & Lcs & Hall).
  split.
  - intros (o & Eo).
    destruct cs as [|c cs'].
    { exfalso. unfold CapsuleLayer_forward in Eo.
      rewrite Hmode, Hcs in Eo. discriminate. }
    assert (Hc : conv_sizes c co ci k s) by (inversion Hall; assumption).
    destruct (Nat.eq_dec ci' ci) as [Eci|Eci];
    [destruct (le_lt_dec k h) as [Hh|Hh];
     [destruct (le_lt_dec k w) as [Hw|Hw];
      [destruct (Nat.eq_dec s 0) as [Hs|Hs]|]|]|];
    try (exfalso;
         rewrite (@conv_mode_first_fails self c cs' x RuntimeError Hmode Hcs)
           in Eo;
         [discriminate |
          apply (@Conv2d_forward_err c x nb ci ci' h w co k s Hc Hx); lia]).
    destruct (Nat.eq_dec nb 0) as [Hnb|Hnb].
    + exfalso. subst nb ci'.
      rewrite (@conv_mode_empty_batch self c cs' x ci h w co k s Hmode Hcs Hc
                 Hx Hh Hw ltac:(lia)) in Eo. discriminate.
    + cbn [length] in Lcs. repeat split; try assumption; lia.
  - intros (HK & -> & Hh & Hw & Hs & Hnb).
    destruct (@conv_mode_spec x nb ci h w co k s Hx Hh Hw Hs Hnb self cs
                Hmode Hcs) as (ys & o & _ & Eo & _); [|assumption|eauto].
    intros ->. cbn [length] in Lcs. lia.
Qed.

Lemma conv_layer_returns_iff_witness :
  (exists o, CapsuleLayer_forward small_conv_layer (zeros [1; 1; 2; 2]) = Ok o)
  <-> (0 < 2 /\ 1 = 1 /\ 1 <= 2 /\ 1 <= 2 /\ 0 < 1 /\ 0 < 1).
Proof.
  apply (@conv_layer_returns_iff 2 1 1 1 1 3 example_samples small_conv_layer
           (zeros [1; 1; 2; 2]) 1 1 2 2).
  - reflexivity.
  - reflexivity.
  - lia.
  - lia.
  - lia.
Defined.

End ConvExtras.

Lemma routing_batch_independent_witness :
  exists o o',
    CapsuleLayer_forward (small_layer 3) small_input = Ok o /\
    CapsuleLayer_forward (small_layer 3) small_batch = Ok o' /\
    forall m d, m < 1 -> d < 1 ->
      elt o [m; 0; 0; 0; d] = elt o' [m; 1; 0; 0; d].
Proof.
  apply (@routing_batch_independent (small_layer 3) small_input small_batch
           (of_fun [1; 2; 1; 1] (fun _ => 1%R)) (zeros [1; 1; 2; 1; 1])
           1 1 2 2 1 1 3 0 1).
  - repeat split.
  - reflexivity.
  - lia.
  - lia.
  - reflexivity.
  - reflexivity.
  - lia.
  - lia.
  - intros n k Hn Hk. destruct n as [|[|n]]; [reflexivity|reflexivity|lia].
Defined.

Section FreshNetwork.

(** X21.  The network that [CapsuleNet.__init__] builds, whatever values
    its parameters are drawn at, returns from forward on every batch of two
    or more 28x28 one-channel images, with class activations of size
    [[batch; 10]] and reconstructions of size [[batch; 784]]. *)
Theorem fresh_net_forward (rnd : samples) (x : tensor fnum) (nb : nat) :
  size x = [nb; 1; 28; 28] -> 2 <= nb ->
  exists net classes reconstructions,
    CapsuleNet_init rnd = Ok net /\
    CapsuleNet_forward net x = Ok (classes, reconstructions) /\
    size classes = [nb; 10] /\ size reconstructions = [nb; 784].
Proof.
  intros Hx Hnb.
  destruct (CapsuleNet_init_ok rnd) as (net & Enet & Hnet).
  destruct (@forward_any_returns net x nb 28 28 Hnet Hx)
    as (cl & r & E & Scl & Sr); [lia | lia | reflexivity | assumption |].
  exists net, cl, r. repeat split; assumption.
Qed.

Lemma fresh_net_forward_witness :
  exists net classes reconstructions,
    CapsuleNet_init example_samples = Ok net /\
    CapsuleNet_forward net (zeros [2; 1; 28; 28])
      = Ok (classes, reconstructions) /\
    size classes = [2; 10] /\ size reconstructions = [2; 784].
Proof.
  apply (@fresh_net_forward example_samples (zeros [2; 1; 28; 28]) 2).
  - reflexivity.
  - lia.
Defined.

End FreshNetwork.

Section Broadcasting.

Lemma bsize_snoc (s1 s2 : list nat) (a b : nat) :
  bsize (s1 ++ [a]) (s2 ++ [b]) =
  (c <- bdim a b ;; r <- bsize s1 s2 ;; Ok (r ++ [c])).
Proof.
  unfold bsize. rewrite !rev_app_distr. cbn [rev app bsize_rev].
  destruct (bdim a b) as [c|e]; cbn [bind]; [|reflexivity].
  destruct (bsize_rev (rev s1) (rev s2)) as [r|e]; cbn [bind rev];
    reflexivity.
Qed.

Lemma snoc_cases (l : list nat) : l = [] \/ exists q x, l = q ++ [x].
Proof.
  destruct l as [|a l]; [left; reflexivity|].
  right. exists (removelast (a :: l)), (last (a :: l) 0).
  apply split_last. discriminate.
Qed.

(** Two sizes of the same length that broadcast axis by axis. *)
Lemma bsize_pointwise (s1 : list nat) : forall s2 r,
  length s2 = length s1 -> length r = length s1 ->
  (forall i, i < length s1 ->
     bdim (nth i s1 0) (nth i s2 0) = Ok (nth i r 0)) ->
  bsize s1 s2 = Ok r.
Proof.
  induction s1 as [|a s1 IH] using rev_ind; intros s2 r L2 Lr Hp.
  - destruct s2; [|discriminate]. destruct r; [|discriminate]. reflexivity.
  - rewrite length_app in *. cbn [length] in *.
    destruct (snoc_cases s2) as [->|(q2 & b & ->)]; [cbn in L2; lia|].
    destruct (snoc_cases r) as [->|(qr & c & ->)]; [cbn in Lr; lia|].
    rewrite length_app in *. cbn [length] in *.
    assert (Lq2 : length q2 = length s1) by lia.
    assert (Lqr : length qr = length s1) by lia.
    rewrite bsize_snoc.
    pose proof (Hp (length s1) ltac:(lia)) as Hlast.
    rewrite nth_middle in Hlast.
    rewrite <- Lq2 in Hlast at 1. rewrite nth_middle in Hlast.
    rewrite <- Lqr in Hlast. rewrite nth_middle in Hlast.
    rewrite Hlast. cbn [bind].
    rewrite (IH q2 qr Lq2 Lqr); [reflexivity|].
    intros i Hi. specialize (Hp i ltac:(lia)).
    rewrite !app_nth1 in Hp by lia. exact Hp.
Qed.

Lemma bsize_same (s : list nat) : bsize s s = Ok s.
Proof.
  apply bsize_pointwise; try reflexivity. intros. apply bdim_refl.
Qed.

Lemma bsize_unit_l (s : list nat) (d : nat) : bsize (upd s d 1) s = Ok s.
Proof.
  apply bsize_pointwise; rewrite ?length_upd; try reflexivity.
  intros i Hi. rewrite nth_upd.
  destruct ((i =? d) && (d <? length s)); [apply bdim_1_l | apply bdim_refl].
Qed.

Lemma bsize_unit_r (s : list nat) (d : nat) : bsize s (upd s d 1) = Ok s.
Proof.
  apply bsize_pointwise; rewrite ?length_upd; try reflexivity.
  intros i Hi. rewrite nth_upd.
  destruct ((i =? d) && (d <? length s)); [apply bdim_1_r | apply bdim_refl].
Qed.

Lemma bidx_snoc (s ix : list nat) (a i : nat) :
  bidx (s ++ [a]) (ix ++ [i]) = bidx s ix ++ [bi a i].
Proof.
  unfold bidx. rewrite !rev_app_distr. cbn [rev app bidx_rev]. reflexivity.
Qed.

(** Where an operand whose size is that of the result, but for axes of
    size 1, is read. *)
Lemma bidx_pointwise (s : list nat) : forall ix r,
  length ix = length s -> length r = length s ->
  (forall i, i < length s -> nth i r 0 = bi (nth i s 0) (nth i ix 0)) ->
  bidx s ix = r.
Proof.
  induction s as [|a s IH] using rev_ind; intros ix r Li Lr Hp.
  - destruct ix; [|discriminate]. destruct r; [|discriminate]. reflexivity.
  - rewrite length_app in *. cbn [length] in *.
    destruct (snoc_cases ix) as [->|(q & c & ->)]; [cbn in Li; lia|].
    destruct (snoc_cases r) as [->|(qr & x & ->)]; [cbn in Lr; lia|].
    rewrite length_app in *. cbn [length] in *.
    assert (Lq : length q = length s) by lia.
    assert (Lqr : length qr = length s) by lia.
    rewrite bidx_snoc.
    pose proof (Hp (length s) ltac:(lia)) as Hlast.
    rewrite nth_middle in Hlast.
    rewrite <- Lq in Hlast at 2. rewrite nth_middle in Hlast.
    rewrite <- Lqr in Hlast. rewrite nth_middle in Hlast.
    rewrite <- Hlast. f_equal.
    apply IH; try assumption.
    intros i Hi. specialize (Hp i ltac:(lia)).
    rewrite !app_nth1 in Hp by lia. exact Hp.
Qed.

Lemma bidx_valid (s ix : list nat) : valid s ix -> bidx s ix = ix.
Proof.
  intros H. apply valid_nth in H. destruct H as [Hl Hn].
  apply bidx_pointwise; try assumption.
  intros i Hi. symmetry. apply bi_lt. apply Hn. assumption.
Qed.

Lemma bidx_unit (s ix : list nat) (d : nat) :
  valid s ix -> d < length s -> bidx (upd s d 1) ix = upd ix d 0.
Proof.
  intros H Hd. apply valid_nth in H. destruct H as [Hl Hn].
  apply bidx_pointwise; rewrite ?length_upd; try assumption.
  intros i Hi. rewrite !nth_upd, Hl.
  destruct (Nat.eqb_spec i d) as [->|Hne]; cbn [andb].
  - destruct (Nat.ltb_spec d (length s)); [reflexivity | lia].
  - symmetry. apply bi_lt. apply Hn. assumption.
Qed.

End Broadcasting.

Section SquashAnyShape.

(** [squash] on a tensor of any shape, along any of its axes: every vector
    along the axis is squashed on its own. *)
Lemma squash_spec (t : tensor fnum) (axis : Z) (d : nat) :
  norm_dim axis (length (size t)) = Ok d ->
  exists o, squash t axis = Ok o /\ size o = size t /\
    forall ix, valid (size t) ix ->
      elt o ix =
      Spec.squash_vec (nth d (size t) 0) (fun c => elt t (upd ix d c))
        (nth d ix 0).
Proof.
  intros Hdim. pose proof (norm_dim_lt _ _ Hdim) as Hd.
  unfold squash, sum_dim, dim. cbn [tmap size]. rewrite Hdim. cbn [bind].
  unfold div, mul, bop. cbn [size tmap].
  rewrite bsize_same. cbn [bind size].
  rewrite bsize_unit_l. cbn [bind size].
  rewrite bsize_unit_r. cbn [bind size].
  eexists. split; [reflexivity|]. split; [reflexivity|].
  intros ix Hix. cbn [elt tmap size].
  assert (Hix0 : valid (size t) (upd ix d 0)).
  { apply valid_upd; [assumption|].
    apply valid_nth in Hix. destruct Hix as [_ Hn].
    specialize (Hn d Hd). lia. }
  rewrite (@bidx_valid _ _ Hix), (@bidx_unit _ _ _ Hix Hd).
  rewrite (@bidx_unit _ _ _ Hix0 Hd), upd_upd.
  unfold Spec.squash_vec, Spec.sqnorm.
  rewrite upd_nth_same.
  rewrite (@fsum_ext (fun k => fsquare (elt t (upd (upd ix d 0) d k)))
             (fun k => fsquare (elt t (upd ix d k))))
    by (intros k Hk; rewrite upd_upd; reflexivity).
  rewrite ?(@bidx_valid _ _ Hix). reflexivity.
Qed.

End SquashAnyShape.

Section SquashVectors.

Local Open Scope R_scope.


End SquashVectors.

Section SquashClaimsAnyShape.

(** The vector through [ix] along axis [d], squashed. *)
Lemma squash_along (t : tensor fnum) (axis : Z) (d : nat) (ix : list nat) :
  norm_dim axis (length (size t)) = Ok d ->
  valid (size t) ix ->
  exists o, squash t axis = Ok o /\ size o = size t /\
    forall c, c < nth d (size t) 0 ->
      elt o (upd ix d c) =
      Spec.squash_vec (nth d (size t) 0) (fun c' => elt t (upd ix d c')) c.
Proof.
  intros Hdim Hix.
  destruct (squash_spec t axis Hdim) as (o & Eo & So & Vo).
  exists o. split; [assumption|]. split; [assumption|].
  intros c Hc.
  assert (Hv : valid (size t) (upd ix d c)) by (apply valid_upd; assumption).
  rewrite (Vo _ Hv).
  assert (Hn : nth d (upd ix d c) 0 = c).
  { pose proof (norm_dim_lt _ _ Hdim) as Hd.
    apply valid_nth in Hix. destruct Hix as [Hl _].
    rewrite nth_upd, Nat.eqb_refl, Hl.
    destruct (Nat.ltb_spec d (length (size t))); [reflexivity | lia]. }
  rewrite Hn. apply squash_vec_ext; [|assumption].
  intros k Hk. rewrite upd_upd. reflexivity.
Qed.

(** Claim C3, amended.  [squash] does not guard its division by
    [sqrt(squared_norm)]: wherever a vector along the chosen axis of the
    input is zero, the call returns, without raising, NaN ([0 / 0]) in
    every component of that vector, not the zero vector.  This holds in a
    tensor of any shape, along any of its axes. *)
Theorem squash_zero_vector_nan (t : tensor fnum) (axis : Z) (d : nat)
  (ix : list nat) :
  norm_dim axis (length (size t)) = Ok d ->
  valid (size t) ix ->
  (forall c, c < nth d (size t) 0 -> elt t (upd ix d c) = Real 0) ->
  exists o, squash t axis = Ok o /\ size o = size t /\
    forall c, c < nth d (size t) 0 -> elt o (upd ix d c) = NaN.
Proof.
  intros Hdim Hix Hz.
  destruct (@squash_along t axis d ix Hdim Hix) as (o & Eo & So & Vo).
  exists o. split; [assumption|]. split; [assumption|].
  intros c Hc. rewrite (Vo c Hc).
  apply (@squash_vec_zero (nth d (size t) 0)
           (fun c' => elt t (upd ix d c')) (fun _ => 0%R) Hz c Hc).
  apply sq_zero_of_zero. reflexivity.
Qed.

Lemma squash_zero_vector_nan_witness :
  exists o, squash (zeros [2; 3]) (-1) = Ok o /\ size o = [2; 3] /\
    forall c, c < 3 -> elt o (upd [1; 0] 1 c) = NaN.
Proof.
  apply (@squash_zero_vector_nan (zeros [2; 3]) (-1) 1 [1; 0]).
  - reflexivity.
  - cbn. lia.
  - intros c Hc. reflexivity.
Defined.




End SquashClaimsAnyShape.
